(** * keycard-qt: secure channel, command set and APDU transport

    A shallow embedding of the Keycard client library
    ([SecureChannel], [CommandSet], the Android NFC multi-frame handler and the
    BIP32 path parser) together with the properties of its specification that
    the code was checked against.

    Conventions.  A [QByteArray] is a [list Z] of byte values; a cast to
    [char]/[uint8_t] is written [Z.land _ 0xFF] (or [_ mod 256]).  A [QString]
    is a [string].  Objects mutated by the C++ code ([SecureChannel::Private],
    the [CommandSet] members, the card behind the channel) live in one [World]
    record threaded through a state-and-exception monad. *)

From Stdlib Require Import String Ascii ZArith Bool Lia Arith List Btauto.
Import ListNotations.
Open Scope Z_scope.

(** ** Byte arrays *)

Definition QByteArray := list Z.

Module QBA.
  (** [QByteArray(n, c)] *)
Definition fill (n : nat) (c : Z) : QByteArray := repeat c n.
  (** [a.left(n)] *)
Definition left (n : nat) (a : QByteArray) : QByteArray := firstn n a.
  (** [a.mid(pos)] *)
Definition mid (pos : nat) (a : QByteArray) : QByteArray := skipn pos a.
  (** [a.mid(pos, len)] *)
Definition mid2 (pos len : nat) (a : QByteArray) : QByteArray :=
    firstn len (skipn pos a).
  (** [a.right(n)] *)
Definition right (n : nat) (a : QByteArray) : QByteArray :=
    skipn (length a - n) a.
  (** [a.isEmpty()] *)
Definition isEmpty (a : QByteArray) : bool :=
    match a with [] => true | _ => false end.
  (** [a == b] *)
Fixpoint eqb (a b : QByteArray) : bool :=
    match a, b with
    | [], [] => true
    | x :: a', y :: b' => (x =? y) && eqb a' b'
    | _, _ => false
    end.
  (** [static_cast<char>(n)] for a size or a small integer *)
Definition to_char (n : Z) : Z := Z.land n 0xFF.
  (** byte-wise exclusive or of two arrays; a byte missing on either side
      counts as zero (the first argument fixes the length) *)
Fixpoint xor (a b : QByteArray) : QByteArray :=
    match a with
    | [] => []
    | x :: a' => Z.lxor x (hd 0 b) :: xor a' (tl b)
    end.
End QBA.

(** ** AES-256 (FIPS-197)

    The block transformation that OpenSSL's [EVP_aes_256_cbc] applies to each
    16-byte block.  A state is the list of its 16 bytes in input order
    (column-major); bytes that a short key or block lacks read as zero. *)

Module AES256.

Definition xtime (b : Z) : Z :=
    let d := Z.shiftl b 1 in
    if d <? 256 then d else Z.land (Z.lxor d 0x11B) 0xFF.

  (** multiplication in GF(2^8), by the bits of [b] *)
Fixpoint gmul_fuel (n : nat) (a b : Z) : Z :=
    match n with
    | O => 0
    | S n' =>
        Z.lxor (if Z.testbit b 0 then a else 0)
               (gmul_fuel n' (xtime a) (Z.shiftr b 1))
    end.
Definition gmul (a b : Z) : Z := gmul_fuel 8 a b.

Definition gsquare (a : Z) : Z := gmul a a.

  (** multiplicative inverse, [a^254]; zero maps to zero *)
Definition ginv (a : Z) : Z :=
    let a2 := gsquare a in
    let a4 := gsquare a2 in
    let a8 := gsquare a4 in
    let a16 := gsquare a8 in
    let a32 := gsquare a16 in
    let a64 := gsquare a32 in
    let a128 := gsquare a64 in
    gmul a128 (gmul a64 (gmul a32 (gmul a16 (gmul a8 (gmul a4 a2))))).

Definition rotl8 (b : Z) (k : Z) : Z :=
    Z.land (Z.lor (Z.shiftl b k) (Z.shiftr b (8 - k))) 0xFF.

Definition sbox_calc (x : Z) : Z :=
    let i := ginv x in
    Z.lxor (Z.lxor (Z.lxor (Z.lxor (Z.lxor i (rotl8 i 1)) (rotl8 i 2))
                           (rotl8 i 3)) (rotl8 i 4)) 0x63.

Definition byte_values : list Z := map Z.of_nat (seq 0 256).

Definition sbox_table : list Z :=
    Eval vm_compute in map sbox_calc byte_values.

Definition inv_sbox_table : list Z :=
    Eval vm_compute in
      map (fun y =>
             fold_right (fun x acc => if nth (Z.to_nat x) sbox_table 0 =? y
                                      then x else acc)
                        0 byte_values)
          byte_values.

Definition sub_byte (b : Z) : Z := nth (Z.to_nat b) sbox_table 0.
Definition inv_sub_byte (b : Z) : Z := nth (Z.to_nat b) inv_sbox_table 0.

Definition at_ (s : list Z) (i : nat) : Z := nth i s 0.

Definition sixteen : list nat := seq 0 16.

Definition sub_bytes (s : list Z) : list Z :=
    map (fun i => sub_byte (at_ s i)) sixteen.
Definition inv_sub_bytes (s : list Z) : list Z :=
    map (fun i => inv_sub_byte (at_ s i)) sixteen.

  (** byte [i] sits in row [i mod 4], column [i / 4] *)
Definition shift_rows (s : list Z) : list Z :=
    map (fun i => let r := (i mod 4)%nat in let c := (i / 4)%nat in
                  at_ s (r + 4 * ((c + r) mod 4))%nat) sixteen.
Definition inv_shift_rows (s : list Z) : list Z :=
    map (fun i => let r := (i mod 4)%nat in let c := (i / 4)%nat in
                  at_ s (r + 4 * ((c + 4 - r) mod 4))%nat) sixteen.

Definition mix_column (m0 m1 m2 m3 : Z) (a0 a1 a2 a3 : Z) : Z :=
    Z.lxor (Z.lxor (gmul a0 m0) (gmul a1 m1))
           (Z.lxor (gmul a2 m2) (gmul a3 m3)).

Definition mix_with (k0 k1 k2 k3 : Z) (s : list Z) : list Z :=
    map (fun i =>
           let r := (i mod 4)%nat in
           let c := (4 * (i / 4))%nat in
           let a j := at_ s (c + (r + j) mod 4)%nat in
           mix_column k0 k1 k2 k3 (a 0%nat) (a 1%nat) (a 2%nat) (a 3%nat))
        sixteen.

  (** row [r] of the output is [2 a_r + 3 a_(r+1) + a_(r+2) + a_(r+3)] *)
Definition mix_columns : list Z -> list Z := mix_with 2 3 1 1.
  (** row [r] of the output is [14 a_r + 11 a_(r+1) + 13 a_(r+2) + 9 a_(r+3)] *)
Definition inv_mix_columns : list Z -> list Z := mix_with 14 11 13 9.

Definition add_round_key (rk s : list Z) : list Z :=
    map (fun i => Z.lxor (at_ s i) (at_ rk i)) sixteen.

  (** Key expansion for Nk = 8, Nr = 14: 60 words, 240 bytes. *)
Definition rcon (j : nat) : Z := Nat.iter (j - 1) xtime 1.

Definition next_word (w : list Z) (i : nat) : list Z :=
    let prev j := at_ w (4 * (i - 1) + j) in
    let back j := at_ w (4 * (i - 8) + j) in
    let temp :=
      if (i mod 8 =? 0)%nat then
        [ Z.lxor (sub_byte (prev 1%nat)) (rcon (i / 8));
          sub_byte (prev 2%nat); sub_byte (prev 3%nat); sub_byte (prev 0%nat) ]
      else if (i mod 8 =? 4)%nat then
        [ sub_byte (prev 0%nat); sub_byte (prev 1%nat);
          sub_byte (prev 2%nat); sub_byte (prev 3%nat) ]
      else [ prev 0%nat; prev 1%nat; prev 2%nat; prev 3%nat ] in
    map (fun j => Z.lxor (back j) (at_ temp j)) (seq 0 4).

Definition key_expansion (key : QByteArray) : list Z :=
    fold_left (fun w i => w ++ next_word w i) (seq 8 52)
              (map (fun i => at_ key i) (seq 0 32)).

Definition round_key (w : list Z) (r : nat) : list Z :=
    firstn 16 (skipn (16 * r) w).

Definition encrypt_block (key block : QByteArray) : QByteArray :=
    let w := key_expansion key in
    let s0 := add_round_key (round_key w 0) block in
    let s13 :=
      fold_left (fun s r =>
                   add_round_key (round_key w r)
                                 (mix_columns (shift_rows (sub_bytes s))))
                (seq 1 13) s0 in
    add_round_key (round_key w 14) (shift_rows (sub_bytes s13)).

Definition decrypt_block (key block : QByteArray) : QByteArray :=
    let w := key_expansion key in
    let s0 := add_round_key (round_key w 14) block in
    let s13 :=
      fold_left (fun s r =>
                   inv_mix_columns
                     (add_round_key (round_key w r)
                                    (inv_sub_bytes (inv_shift_rows s))))
                (rev (seq 1 13)) s0 in
    add_round_key (round_key w 0) (inv_sub_bytes (inv_shift_rows s13)).

End AES256.

Arguments AES256.encrypt_block : simpl never.
Arguments AES256.decrypt_block : simpl never.

(** FIPS-197, appendix C.3 *)
Definition fips197_key : QByteArray := map Z.of_nat (seq 0 32).
Definition fips197_plain : QByteArray :=
  [0x00;0x11;0x22;0x33;0x44;0x55;0x66;0x77;0x88;0x99;0xaa;0xbb;0xcc;0xdd;0xee;0xff].
Definition fips197_cipher : QByteArray :=
  [0x8e;0xa2;0xb7;0xca;0x51;0x67;0x45;0xbf;0xea;0xfc;0x49;0x90;0x4b;0x49;0x60;0x89].

(** ** OpenSSL EVP, CBC mode without padding

    The call sequence [EVP_EncryptInit_ex(ctx, EVP_aes_256_cbc(), key, iv)],
    [EVP_CIPHER_CTX_set_padding(ctx, 0)], [EVP_EncryptUpdate], [EVP_EncryptFinal_ex],
    [resize(len + finalLen)].  With padding disabled the final call fails when the
    input is not a whole number of blocks; [None] is that failure. *)

Fixpoint chunks16 (fuel : nat) (a : QByteArray) : list QByteArray :=
  match fuel with
  | O => []
  | S f =>
      match a with
      | [] => []
      | _ => firstn 16 a :: chunks16 f (skipn 16 a)
      end
  end.

Definition blocks16 (a : QByteArray) : list QByteArray := chunks16 (length a) a.

Fixpoint cbc_encrypt_blocks (key iv : QByteArray) (bs : list QByteArray)
  : list QByteArray :=
  match bs with
  | [] => []
  | b :: rest =>
      let c := AES256.encrypt_block key (QBA.xor b iv) in
      c :: cbc_encrypt_blocks key c rest
  end.

Fixpoint cbc_decrypt_blocks (key iv : QByteArray) (cs : list QByteArray)
  : list QByteArray :=
  match cs with
  | [] => []
  | c :: rest =>
      QBA.xor (AES256.decrypt_block key c) iv :: cbc_decrypt_blocks key c rest
  end.

Definition whole_blocks (a : QByteArray) : bool := (length a mod 16 =? 0)%nat.

Definition EVP_aes_256_cbc_encrypt (key iv data : QByteArray) : option QByteArray :=
  if whole_blocks data
  then Some (concat (cbc_encrypt_blocks key iv (blocks16 data)))
  else None.

Definition EVP_aes_256_cbc_decrypt (key iv data : QByteArray) : option QByteArray :=
  if whole_blocks data
  then Some (concat (cbc_decrypt_blocks key iv (blocks16 data)))
  else None.

(** ** APDU utilities *)

Module Utils.
  (** Modelled from the spec: [APDU::Utils::pad] (keycard-qt/apdu/utils.h is
      not among the sources).  ISO/IEC 9797-1 method 2: append [0x80], then
      zero bytes up to a multiple of [block]; at least one byte is added. *)
Definition pad (x : QByteArray) (block : nat) : QByteArray :=
    x ++ [0x80] ++ repeat 0 ((block - (length x + 1) mod block) mod block)%nat.

  (** Modelled from the spec: [APDU::Utils::unpad].  Trailing zeros are
      removed up to the [0x80] sentinel.  The spec calls a missing sentinel a
      decoding error without fixing the value returned; the empty array, the
      error value of this code base, stands for it here. *)
Fixpoint unpad_rev (r : QByteArray) : QByteArray :=
    match r with
    | [] => []
    | b :: r' =>
        if b =? 0 then unpad_rev r'
        else if b =? 0x80 then rev r' else []
    end.
Definition unpad (x : QByteArray) : QByteArray := unpad_rev (rev x).
End Utils.

(** ** SecureChannel::calculateMAC

    [d->macKey] is the first argument.  (Built with KEYCARD_QT_HAS_OPENSSL.) *)

Definition zero_mac : QByteArray := QBA.fill 16 0x00.

Definition mac_padding (data : QByteArray) : QByteArray :=
  let paddedData := data in
  let paddingSize := (16 - (length data mod 16))%nat in
  let paddedData := paddedData ++ [0x80] in
  if (1 <? paddingSize)%nat
  then paddedData ++ QBA.fill (paddingSize - 1) 0x00
  else paddedData.

Definition calculateMAC (macKey meta data : QByteArray) : QByteArray :=
  let paddedData := mac_padding data in
  (* Step 1: encrypt meta with zero IV *)
  let zeroIV := QBA.fill 16 0x00 in
  match EVP_aes_256_cbc_encrypt macKey zeroIV meta with
  | None => QBA.fill 16 0x00
  | Some encryptedMeta =>
      (* Step 2: last block of encrypted meta is the IV for the data *)
      let newIV := QBA.right 16 encryptedMeta in
      match EVP_aes_256_cbc_encrypt macKey newIV paddedData with
      | None => QBA.fill 16 0x00
      | Some encryptedData =>
          (* second-to-last block is the MAC *)
          if (length encryptedData <? 32)%nat
          then QBA.fill 16 0x00
          else QBA.mid2 (length encryptedData - 32) 16 encryptedData
      end
  end.

(** [SecureChannel::updateMAC]: the legacy entry point, an all-zero meta *)
Definition updateMAC (macKey data : QByteArray) : QByteArray :=
  calculateMAC macKey (QBA.fill 16 0x00) data.

(** [SecureChannel::verifyMAC] *)
Definition verifyMAC (macKey data receivedMAC : QByteArray) : bool :=
  QBA.eqb (updateMAC macKey data) receivedMAC.

(** *** The MAC as the specification words it (section 4.3.1)

    [aes256_cbc_encrypt] is the no-padding contract of section 4.2, defined on
    inputs that are a multiple of 16 bytes; [byte_range lo hi] is the
    half-open range of indices [lo .. hi). *)

Definition aes256_cbc_encrypt (key iv plaintext : QByteArray) : QByteArray :=
  concat (cbc_encrypt_blocks key iv (blocks16 plaintext)).

Definition byte_range (lo hi : Z) (a : QByteArray) : QByteArray :=
  firstn (Z.to_nat (hi - Z.max lo 0)) (skipn (Z.to_nat lo) a).

Definition retail_mac_spec (key meta data : QByteArray) : QByteArray :=
  let padded := Utils.pad data 16 in
  let c_meta := aes256_cbc_encrypt key (QBA.fill 16 0) meta in
  let iv' := byte_range (Z.of_nat (length c_meta) - 16) (Z.of_nat (length c_meta)) c_meta in
  let c_data := aes256_cbc_encrypt key iv' padded in
  let len := Z.of_nat (length c_data) in
  byte_range (len - 32) (len - 16) c_data.

(** Scenario S4 of the specification: the MAC of empty data *)
Definition S4_key : QByteArray := QBA.fill 32 0xDD.
Definition S4_meta : QByteArray := QBA.fill 16 0x00.
Definition S4_data : QByteArray := [].

(** A 16-byte payload for the regression vector of [calculateMAC] *)
Definition S4_block : QByteArray := map Z.of_nat (seq 0 16).

(** ** Strings

    A [QString] is modelled by the string of its UTF-8 bytes. *)

Abbreviation QString := string (only parsing).

Module QStr.
(** [s.toUtf8()] *)
Definition toUtf8 (s : QString) : QByteArray :=
  map (fun c => Z.of_nat (nat_of_ascii c)) (list_ascii_of_string s).

Definition digit_char (d : Z) : ascii := ascii_of_nat (48 + Z.to_nat d).
Definition hex_char (d : Z) : ascii :=
  if d <? 10 then ascii_of_nat (48 + Z.to_nat d) else ascii_of_nat (87 + Z.to_nat d).

Fixpoint digits (base : Z) (digit : Z -> ascii) (fuel : nat) (n : Z) (acc : string)
  : string :=
  match fuel with
  | O => acc
  | S f =>
      let acc' := String (digit (n mod base)) acc in
      if n / base =? 0 then acc' else digits base digit f (n / base) acc'
  end.

(** [QString::number(n)], as [arg(n)] prints an [int] *)
Definition number (n : Z) : string :=
  if n <? 0 then String "-"%char (digits 10 digit_char 20 (- n) "")
  else digits 10 digit_char 20 n "".

(** a field of [width] characters: [s] with [fillc] in front as often as it
    takes; a longer [s] stays as it is *)
Definition pad_left (width : nat) (fillc : ascii) (s : string) : string :=
  (string_of_list_ascii (repeat fillc (width - String.length s)) ++ s)%string.

(** [arg(n, 4, 16, QChar('0'))] *)
Definition hex4 (n : Z) : string := pad_left 4 "0"%char (digits 16 hex_char 16 n "").

(** the characters that [QChar::isSpace] accepts, each as its UTF-8 bytes:
    U+0009..U+000D and U+0020; U+0085 and U+00A0; the separators of Unicode
    (Zs, Zl, Zp): U+1680, U+2000..U+200A, U+2028, U+2029, U+202F, U+205F and
    U+3000 *)
Definition space_characters : list (list ascii) :=
  map (map ascii_of_nat)
    [ [9]; [10]; [11]; [12]; [13]; [32];
      [194; 133]; [194; 160];
      [225; 154; 128];
      [226; 128; 128]; [226; 128; 129]; [226; 128; 130]; [226; 128; 131];
      [226; 128; 132]; [226; 128; 133]; [226; 128; 134]; [226; 128; 135];
      [226; 128; 136]; [226; 128; 137]; [226; 128; 138];
      [226; 128; 168]; [226; 128; 169]; [226; 128; 175];
      [226; 129; 159];
      [227; 128; 128] ]%nat.

(** [l] without the bytes [p] it starts with *)
Fixpoint strip_prefix (p l : list ascii) : option (list ascii) :=
  match p, l with
  | [], _ => Some l
  | a :: p', b :: l' => if Ascii.eqb a b then strip_prefix p' l' else None
  | _ :: _, [] => None
  end.

(** [l] without the first of [ps] it starts with *)
Fixpoint strip_any (ps : list (list ascii)) (l : list ascii) : option (list ascii) :=
  match ps with
  | [] => None
  | p :: ps' =>
      match strip_prefix p l with
      | Some l' => Some l'
      | None => strip_any ps' l
      end
  end.

(** [l] without the characters of [spaces] it starts with; at most [fuel]
    of them are there when [fuel] is the length of [l] *)
Fixpoint drop_spaces (spaces : list (list ascii)) (fuel : nat) (l : list ascii)
  : list ascii :=
  match fuel with
  | O => l
  | S f =>
      match strip_any spaces l with
      | Some l' => drop_spaces spaces f l'
      | None => l
      end
  end.

(** [s.trimmed()]: the white space at the start and at the end goes *)
Definition trimmed (s : QString) : QString :=
  let l := list_ascii_of_string s in
  let r := rev (drop_spaces space_characters (length l) l) in
  string_of_list_ascii
    (rev (drop_spaces (map (@rev ascii) space_characters) (length r) r)).

(** [s.startsWith(p)] *)
Definition startsWith (p s : QString) : bool := String.prefix p s.

(** [s.mid(n)] *)
Definition mid (n : nat) (s : QString) : QString :=
  String.substring n (String.length s - n) s.

(** [s.left(n)] *)
Definition left (n : nat) (s : QString) : QString := String.substring 0 n s.

(** [s.endsWith(p)] *)
Definition endsWith (p s : QString) : bool :=
  (String.length p <=? String.length s)%nat
  && String.eqb (String.substring (String.length s - String.length p)
                                  (String.length p) s) p.

Definition isEmpty (s : QString) : bool :=
  match s with EmptyString => true | _ => false end.

(** [s.split(sep)] with the default [Qt::KeepEmptyParts]: the fields between
    separators, empty ones included *)
Fixpoint split_chars (sep : ascii) (l : list ascii) (cur : list ascii)
  : list (list ascii) :=
  match l with
  | [] => [rev cur]
  | c :: l' =>
      if Ascii.eqb c sep then rev cur :: split_chars sep l' []
      else split_chars sep l' (c :: cur)
  end.
Definition split (sep : ascii) (s : QString) : list QString :=
  map string_of_list_ascii (split_chars sep (list_ascii_of_string s) []).

Definition newline : string := String (ascii_of_nat 10) EmptyString.
End QStr.

(** ** APDU commands and responses *)

(** Modelled from the spec: [APDU::Command] (keycard-qt/apdu/command.h is not
    among the sources).  Header [CLA INS P1 P2]; when data is present, a
    one-byte [Lc] and the data; when [Le] is set, [Le]. *)
Record Command := mkCommand {
  cmd_cla : Z; cmd_ins : Z; cmd_p1 : Z; cmd_p2 : Z;
  cmd_data : QByteArray;
  cmd_le : option Z            (* [hasLe()] and [le()] *)
}.

Definition Command4 (cla ins p1 p2 : Z) : Command := mkCommand cla ins p1 p2 [] None.
Definition setData (data : QByteArray) (c : Command) : Command :=
  mkCommand (cmd_cla c) (cmd_ins c) (cmd_p1 c) (cmd_p2 c) data (cmd_le c).
Definition setLe (le : Z) (c : Command) : Command :=
  mkCommand (cmd_cla c) (cmd_ins c) (cmd_p1 c) (cmd_p2 c) (cmd_data c) (Some le).

Definition serialize (c : Command) : QByteArray :=
  [cmd_cla c; cmd_ins c; cmd_p1 c; cmd_p2 c]
  ++ (if QBA.isEmpty (cmd_data c) then []
      else QBA.to_char (Z.of_nat (length (cmd_data c))) :: cmd_data c)
  ++ (match cmd_le c with Some le => [le] | None => [] end).

(** Modelled from the spec: [APDU::Response] (keycard-qt/apdu/response.h is
    not among the sources).  The last two bytes are [SW1 SW2], the bytes
    before them the data; [SW = (SW1 << 8) | SW2]; [0x9000] is success.  A
    raw response shorter than two bytes carries no status word; it is given
    status 0 and no data. *)
Record Response := mkResponse { resp_data : QByteArray; resp_sw : Z }.

Definition Response_of (raw : QByteArray) : Response :=
  if (length raw <? 2)%nat then mkResponse [] 0
  else
    let n := (length raw - 2)%nat in
    mkResponse (QBA.left n raw)
               (Z.lor (Z.shiftl (QBA.to_char (nth n raw 0)) 8)
                      (QBA.to_char (nth (S n) raw 0))).

Definition isOK (r : Response) : bool := resp_sw r =? 0x9000.

(** ** Pairing information *)

(** Modelled from the spec: [PairingInfo] (keycard-qt/types.h is not among the
    sources): [{index: 0..=4, key: 32 bytes}], valid when the key is 32 bytes
    long and the index is below the number of slots.  The default value has
    an empty key. *)
Record PairingInfo := mkPairingInfo { pi_key : QByteArray; pi_index : Z }.

Definition PairingInfo_default : PairingInfo := mkPairingInfo [] (-1).

Definition pairing_slots : Z := 5.

Definition isValid (p : PairingInfo) : bool :=
  (length (pi_key p) =? 32)%nat && (0 <=? pi_index p) && (pi_index p <? pairing_slots).

(** [ApplicationStatus] (types/application_status.h) *)
Record ApplicationStatus := mkApplicationStatus {
  m_pinRetryCount : Z; m_pukRetryCount : Z; m_hasKey : bool; m_keyPath : QByteArray
}.

Definition ApplicationStatus_default : ApplicationStatus :=
  mkApplicationStatus 0 0 false [].

(** ** What the library is built on

    The constants of keycard-qt/apdu/command.h, which is not among the
    sources, are taken as parameters; so are Qt's hashes and random generator,
    OpenSSL's elliptic-curve calls, the parsers of types_parser.h and the card
    behind the [IChannel]. *)

Class Constants := {
  CLA : Z;
  INS_PAIR : Z; P1PairFirstStep : Z; P1PairFinalStep : Z;
  INS_OPEN_SECURE_CHANNEL : Z;
  INS_UNPAIR : Z; INS_GET_STATUS : Z; INS_VERIFY_PIN : Z;
  INS_CHANGE_PIN : Z;
  P1ChangePinPIN : Z; P1ChangePinPUK : Z; P1ChangePinPairingSecret : Z;
  INS_UNBLOCK_PIN : Z;
  INS_GENERATE_KEY : Z; INS_GENERATE_MNEMONIC : Z;
  INS_LOAD_KEY : Z; P1LoadKeySeed : Z;
  INS_REMOVE_KEY : Z; INS_DERIVE_KEY : Z;
  P1DeriveKeyFromMaster : Z; P1DeriveKeyFromParent : Z; P1DeriveKeyFromCurrent : Z;
  INS_SIGN : Z;
  P1SignCurrentKey : Z; P1SignDerive : Z; P1SignDeriveAndMakeCurrent : Z;
  P1SignPinless : Z;
  INS_SET_PINLESS_PATH : Z; INS_STORE_DATA : Z; INS_GET_DATA : Z;
  INS_EXPORT_KEY : Z;
  P1ExportKeyCurrent : Z; P1ExportKeyDerive : Z; P1ExportKeyDeriveAndMakeCurrent : Z
}.

Class Platform := {
  (** [QCryptographicHash], Sha256 and Sha512, of the data added *)
  sha256 : QByteArray -> QByteArray;
  sha512 : QByteArray -> QByteArray;
  (** [QMessageAuthenticationCode::hash(message, key, Sha256)] *)
  hmac_sha256 : QByteArray -> QByteArray -> QByteArray;
  (** [QRandomGenerator::global()]: its state, and [fillRange] over [n]
      32-bit words, giving [4 * n] bytes *)
  Rng : Type;
  fillRange : Rng -> nat -> QByteArray * Rng;
  (** OpenSSL keys on secp256k1: key generation with the public point in
      uncompressed form, import of a peer's point, ECDH derivation *)
  EVP_PKEY : Type;
  EVP_PKEY_keygen : Rng -> option (EVP_PKEY * QByteArray) * Rng;
  EC_POINT_oct2point : QByteArray -> option EVP_PKEY;
  EVP_PKEY_derive : EVP_PKEY -> EVP_PKEY -> option QByteArray;
  (** the card: [IChannel::transmit] answers with the response bytes or
      throws [std::runtime_error] ([inl] its message) *)
  Card : Type;
  card_transmit : Card -> QByteArray -> (string + QByteArray) * Card;
  (** [QString::toUInt(&ok)]: the value when [ok] *)
  toUInt : QString -> option Z;
  (** [parseApplicationStatus] and [APDU::Response::errorMessage] *)
  parseApplicationStatus : QByteArray -> ApplicationStatus;
  errorMessage : Response -> QString
}.

(** ** The state of a session *)

(** [SecureChannel::Private] *)
Record Private {P : Platform} := mkPrivate {
  privateKey : option EVP_PKEY;
  cardPublicKey : option EVP_PKEY;
  secret : QByteArray;
  rawPublicKeyData : QByteArray;
  iv : QByteArray;
  encKey : QByteArray;
  macKey : QByteArray;
  open : bool;
  openedIndex : Z
}.
Arguments mkPrivate {P}.

(** what the outside observes, in order: an APDU handed to the channel, a
    [QThread::msleep], an assignment to [d->iv] (old value, new value) *)
Inductive Event :=
| Transmit (apdu : QByteArray)
| Msleep (ms : Z)
| IvUpdated (old new : QByteArray).

(** The [CommandSet] with its [SecureChannel], the channel and the random
    generator.  [channel = None] is a null [IChannel*]. *)
Record World {P : Platform} := mkWorld {
  d : Private;
  m_pairingInfo : PairingInfo;
  m_lastError : QString;
  m_remainingPINAttempts : Z;
  channel : option Card;
  rng : Rng;
  trace : list Event
}.
Arguments mkWorld {P}.

Inductive Exception :=
| runtime_error (what : string)      (* [std::runtime_error] *)
| null_channel.                      (* a call through a null [IChannel*] *)

Inductive Outcome (A : Type) :=
| Returned (a : A)
| Thrown (e : Exception).
Arguments Returned {A} a.
Arguments Thrown {A} e.

Section Library.
Context {K : Constants} {P : Platform}.

(** state and exceptions: C++ mutations made before a throw persist *)
Definition M (A : Type) : Type := World -> Outcome A * World.

Definition ret {A} (a : A) : M A := fun w => (Returned a, w).
Definition bind {A B} (m : M A) (k : A -> M B) : M B :=
  fun w => match m w with
           | (Returned a, w') => k a w'
           | (Thrown e, w') => (Thrown e, w')
           end.
Definition throw {A} (e : Exception) : M A := fun w => (Thrown e, w).
Definition gets {A} (f : World -> A) : M A := fun w => (Returned (f w), w).
Definition modify (f : World -> World) : M unit := fun w => (Returned tt, f w).

Local Notation "x <- m ;; k" := (bind m (fun x => k))
  (at level 61, m at next level, right associativity).
Local Notation "m ;;; k" := (bind m (fun _ => k))
  (at level 61, right associativity).

Definition with_d (f : Private -> Private) (w : World) : World :=
  mkWorld (f (d w)) (m_pairingInfo w) (m_lastError w) (m_remainingPINAttempts w)
          (channel w) (rng w) (trace w).
Definition with_pairingInfo (p : PairingInfo) (w : World) : World :=
  mkWorld (d w) p (m_lastError w) (m_remainingPINAttempts w)
          (channel w) (rng w) (trace w).
Definition with_lastError (e : QString) (w : World) : World :=
  mkWorld (d w) (m_pairingInfo w) e (m_remainingPINAttempts w)
          (channel w) (rng w) (trace w).
Definition with_remainingPINAttempts (n : Z) (w : World) : World :=
  mkWorld (d w) (m_pairingInfo w) (m_lastError w) n (channel w) (rng w) (trace w).
Definition with_channel (c : option Card) (w : World) : World :=
  mkWorld (d w) (m_pairingInfo w) (m_lastError w) (m_remainingPINAttempts w)
          c (rng w) (trace w).
Definition with_rng (r : Rng) (w : World) : World :=
  mkWorld (d w) (m_pairingInfo w) (m_lastError w) (m_remainingPINAttempts w)
          (channel w) r (trace w).
Definition with_event (e : Event) (w : World) : World :=
  mkWorld (d w) (m_pairingInfo w) (m_lastError w) (m_remainingPINAttempts w)
          (channel w) (rng w) (trace w ++ [e]).

Definition set_iv (v : QByteArray) (p : Private) : Private :=
  mkPrivate (privateKey p) (cardPublicKey p) (secret p) (rawPublicKeyData p)
            v (encKey p) (macKey p) (open p) (openedIndex p).

Definition set_lastError (e : QString) : M unit := modify (with_lastError e).
Definition emit (e : Event) : M unit := modify (with_event e).

(** [m_channel->transmit(apdu)] / [d->channel->transmit(apdu)] *)
Definition transmit (apdu : QByteArray) : M QByteArray :=
  fun w =>
    match channel w with
    | None => (Thrown null_channel, w)
    | Some c =>
        let (r, c') := card_transmit c apdu in
        let w' := with_event (Transmit apdu) (with_channel (Some c') w) in
        match r with
        | inl what => (Thrown (runtime_error what), w')
        | inr response => (Returned response, w')
        end
    end.

(** [QRandomGenerator::global()->fillRange(ptr, size / sizeof(quint32))] *)
Definition random_words (n : nat) : M QByteArray :=
  fun w => let (bytes, r) := fillRange (rng w) n in (Returned bytes, with_rng r w).

(** [QThread::msleep(ms)] *)
Definition msleep (ms : Z) : M unit := emit (Msleep ms).

(** ** SecureChannel *)

(** the state built by [SecureChannel::SecureChannel] (and [Private]'s member
    initialisers) *)
Definition Private_new : Private :=
  mkPrivate None None [] [] [] [] [] false (-1).

(** [SecureChannel::generateSecret] *)
Definition generateSecret (cardPublicKey_ : QByteArray) : M bool :=
  if negb ((length cardPublicKey_ =? 65)%nat) || negb (QBA.to_char (hd 0 cardPublicKey_) =? 0x04)
  then ret false
  else
    r <- gets rng ;;
    let (kp, r') := EVP_PKEY_keygen r in
    modify (with_rng r') ;;;
    match kp with
    | None => ret false
    | Some (priv, pub) =>
        (* Steps 1 and 2: our key pair, the public key in uncompressed form *)
        modify (with_d (fun p =>
          mkPrivate (Some priv) (cardPublicKey p) (secret p) pub
                    (iv p) (encKey p) (macKey p) (open p) (openedIndex p))) ;;;
        (* Step 3: the card's public key *)
        match EC_POINT_oct2point cardPublicKey_ with
        | None => ret false
        | Some card =>
            modify (with_d (fun p =>
              mkPrivate (privateKey p) (Some card) (secret p) (rawPublicKeyData p)
                        (iv p) (encKey p) (macKey p) (open p) (openedIndex p))) ;;;
            (* Step 4: the ECDH shared secret *)
            match EVP_PKEY_derive priv card with
            | None => ret false
            | Some s =>
                modify (with_d (fun p =>
                  mkPrivate (privateKey p) (cardPublicKey p) s (rawPublicKeyData p)
                            (iv p) (encKey p) (macKey p) (open p) (openedIndex p))) ;;;
                ret true
            end
        end
    end.

(** [SecureChannel::init] *)
Definition SecureChannel_init (iv_ encKey_ macKey_ : QByteArray) (p : Private)
  : Private :=
  mkPrivate (privateKey p) (cardPublicKey p) (secret p) (rawPublicKeyData p)
            iv_ encKey_ macKey_ true 0.

(** [SecureChannel::reset]: the session keys go; [d->secret],
    [d->rawPublicKeyData] and [d->privateKey] are kept, the card's public key
    is freed *)
Definition SecureChannel_reset (p : Private) : Private :=
  mkPrivate (privateKey p) None (secret p) (rawPublicKeyData p)
            [] [] [] false (-1).

Definition rawPublicKey (p : Private) : QByteArray := rawPublicKeyData p.

(** [SecureChannel::isOpen] *)
Definition isOpen (p : Private) : bool := open p.

(** [SecureChannel::encrypt] *)
Definition encrypt (p : Private) (plaintext : QByteArray) : QByteArray :=
  if negb (open p) then []
  else
    let padded := Utils.pad plaintext 16 in
    match EVP_aes_256_cbc_encrypt (encKey p) (iv p) padded with
    | None => []
    | Some encrypted => encrypted
    end.

(** [SecureChannel::decrypt] *)
Definition decrypt (p : Private) (ciphertext : QByteArray) : QByteArray :=
  if negb (open p) then []
  else if QBA.isEmpty ciphertext then []
  else
    match EVP_aes_256_cbc_decrypt (encKey p) (iv p) ciphertext with
    | None => []
    | Some decrypted => Utils.unpad decrypted
    end.

(** the metadata blocks that [send] feeds to the MAC *)
Definition request_meta (command : Command) (encData : QByteArray) : QByteArray :=
  [cmd_cla command; cmd_ins command; cmd_p1 command; cmd_p2 command;
   QBA.to_char (Z.of_nat (length encData) + 16)] ++ QBA.fill 11 0x00.

Definition response_meta (data : QByteArray) : QByteArray :=
  QBA.to_char (Z.of_nat (length data)) :: QBA.fill 15 0x00.

(** [SecureChannel::send], second half: "Decrypt response if successful" *)
Definition send_receive (response : Response) : M Response :=
  (* SW1 = 0x61 is logged as not handled; nothing else is done *)
  if isOK response && negb (QBA.isEmpty (resp_data response)) then
    if (length (resp_data response) <? 16)%nat
    then throw (runtime_error "Response too short")
    else
      let responseMac := QBA.left 16 (resp_data response) in
      let responseData := QBA.mid 16 (resp_data response) in
      p <- gets d ;;
      (* decrypt first, under the current IV *)
      let decrypted := decrypt p responseData in
      let rmeta := response_meta (resp_data response) in
      let calculatedMac := calculateMAC (macKey p) rmeta responseData in
      if negb (QBA.eqb calculatedMac responseMac)
      then throw (runtime_error "Response MAC verification failed")
      else
        let prevIV := iv p in
        modify (with_d (set_iv calculatedMac)) ;;;
        emit (IvUpdated prevIV calculatedMac) ;;;
        (* the decrypted data ends with the status word *)
        ret (Response_of decrypted)
  else ret response.

(** the command that goes out: the original header, [newData], and the
    caller's [Le] when it set one *)
Definition secure_command (command : Command) (newData : QByteArray) : Command :=
  let secureCmd :=
    setData newData (Command4 (cmd_cla command) (cmd_ins command)
                              (cmd_p1 command) (cmd_p2 command)) in
  match cmd_le command with
  | Some le => setLe le secureCmd
  | None => secureCmd
  end.

(** [SecureChannel::send] *)
Definition send (command : Command) : M Response :=
  p <- gets d ;;
  if negb (open p) then throw (runtime_error "Secure channel not open")
  else
    ch <- gets channel ;;
    match ch with
    | None => throw (runtime_error "No base channel available")
    | Some _ =>
        (* only the command data is encrypted, not the header *)
        let encData := encrypt p (cmd_data command) in
        let meta := request_meta command encData in
        (* the IV becomes the MAC over meta and encrypted data *)
        let oldIV := iv p in
        let newIV := calculateMAC (macKey p) meta encData in
        modify (with_d (set_iv newIV)) ;;;
        emit (IvUpdated oldIV newIV) ;;;
        (* new data: [IV][encrypted data] *)
        let newData := newIV ++ encData in
        let secureCmd := secure_command command newData in
        rawResponse <- transmit (serialize secureCmd) ;;
        send_receive (Response_of rawResponse)
    end.

(** ** CommandSet *)

(** the members as [CommandSet::CommandSet] leaves them *)
Definition CommandSet_new (ch : option Card) (r : Rng) : World :=
  mkWorld Private_new PairingInfo_default "" (-1) ch r [].

(** [CommandSet::checkOK] *)
Definition checkOK (response : Response) : M bool :=
  if negb (isOK response) then
    set_lastError ("APDU error: SW=" ++ QStr.hex4 (resp_sw response)) ;;;
    ret false
  else
    set_lastError "" ;;;
    ret true.

(** [CommandSet::buildCommand] *)
Definition buildCommand (ins p1 p2 : Z) (data : QByteArray) : Command :=
  let cmd := Command4 CLA ins p1 p2 in
  if negb (QBA.isEmpty data) then setData data cmd else cmd.

(** [derivePairingToken]: PBKDF2-HMAC-SHA256, 50000 iterations, 32 bytes.
    With [keyLength = 32] the outer loop runs for [block = 1] only. *)
Definition pairing_salt : QByteArray := QStr.toUtf8 "Keycard Pairing Password Salt".
Definition pbkdf2_iterations : N := 50000.

Definition pbkdf2_step (passwordBytes : QByteArray) (UT : QByteArray * QByteArray)
  : QByteArray * QByteArray :=
  let U := hmac_sha256 (fst UT) passwordBytes in
  (U, QBA.xor (snd UT) U).

Definition pbkdf2_block (passwordBytes : QByteArray) (block : Z) : QByteArray :=
  let blockData :=
    pairing_salt ++ [ Z.land (Z.shiftr block 24) 0xFF; Z.land (Z.shiftr block 16) 0xFF;
                      Z.land (Z.shiftr block 8) 0xFF; Z.land block 0xFF ] in
  let U := hmac_sha256 blockData passwordBytes in
  snd (N.iter (pbkdf2_iterations - 1) (pbkdf2_step passwordBytes) (U, U)).

Definition derivePairingToken (password : QString) : QByteArray :=
  let T := pbkdf2_block (QStr.toUtf8 password) 1 in
  map (fun i => nth i T 0) (seq 0 32).

Definition no_slots_message : QString :=
  "No available pairing slots (SW=6A84). All pairing slots are full. To fix:"
  ++ QStr.newline ++ "1. Use an existing pairing from your saved pairings file"
  ++ QStr.newline ++ "2. Use Keycard Connect app to clear pairings"
  ++ QStr.newline ++ "3. Factory reset the card (WARNING: erases all data)".

(** [CommandSet::pair] *)
Definition pair (pairingPassword : QString) : M PairingInfo :=
  (* Step 1: send a random challenge *)
  challenge <- random_words 8 ;;
  let cmd1 := buildCommand INS_PAIR P1PairFirstStep 0 challenge in
  rawResp1 <- transmit (serialize cmd1) ;;
  let resp1 := Response_of rawResp1 in
  ok1 <- checkOK resp1 ;;
  if negb ok1 then
    (if resp_sw resp1 =? 0x6A84
     then set_lastError no_slots_message
     else set_lastError ("Pair step 1 failed: " ++ errorMessage resp1)) ;;;
    ret PairingInfo_default
  else if (length (resp_data resp1) <? 64)%nat then
    set_lastError "Invalid pair response size" ;;;
    ret PairingInfo_default
  else
    let cardCryptogram := QBA.left 32 (resp_data resp1) in
    let cardChallenge := QBA.mid2 32 32 (resp_data resp1) in
    (* Step 2: the secret hash, and the cryptogram the card must have sent *)
    let secretHash := derivePairingToken pairingPassword in
    let expectedCryptogram := sha256 (secretHash ++ challenge) in
    if negb (QBA.eqb expectedCryptogram cardCryptogram) then
      set_lastError "Invalid card cryptogram - wrong pairing password" ;;;
      ret PairingInfo_default
    else
      let ourCryptogram := sha256 (secretHash ++ cardChallenge) in
      let cmd2 := buildCommand INS_PAIR P1PairFinalStep 0 ourCryptogram in
      rawResp2 <- transmit (serialize cmd2) ;;
      let resp2 := Response_of rawResp2 in
      ok2 <- checkOK resp2 ;;
      if negb ok2 then
        set_lastError "Pair step 2 failed" ;;;
        ret PairingInfo_default
      else if QBA.isEmpty (resp_data resp2) then
        set_lastError "No pairing data in response" ;;;
        ret PairingInfo_default
      else
        let pairingIndex := QBA.to_char (hd 0 (resp_data resp2)) in
        let salt := QBA.mid 1 (resp_data resp2) in
        let pairingKey := sha256 (secretHash ++ salt) in
        let info := mkPairingInfo pairingKey pairingIndex in
        modify (with_pairingInfo info) ;;;
        ret info.

(** [CommandSet::mutualAuthenticate] *)
Definition mutualAuthenticate : M bool :=
  challenge <- random_words 8 ;;
  let cmd := buildCommand 0x11 0 0 challenge in
  resp <- send cmd ;;
  checkOK resp.

(** [CommandSet::openSecureChannel] *)
Definition openSecureChannel (pairingInfo : PairingInfo) : M bool :=
  if negb (isValid pairingInfo) then
    set_lastError "Invalid pairing info" ;;;
    ret false
  else
    modify (with_pairingInfo pairingInfo) ;;;
    p <- gets d ;;
    let data := rawPublicKey p in
    if QBA.isEmpty data then
      set_lastError "No public key available - secure channel not initialized" ;;;
      ret false
    else
      let cmd := buildCommand INS_OPEN_SECURE_CHANNEL (pi_index pairingInfo) 0 data in
      rawResp <- transmit (serialize cmd) ;;
      let resp := Response_of rawResp in
      ok <- checkOK resp ;;
      if negb ok then
        set_lastError "Failed to open secure channel" ;;;
        ret false
      else
        (* cardData is [salt (32 bytes)][iv (16 bytes)] *)
        let cardData := resp_data resp in
        if (length cardData <? 48)%nat then
          set_lastError "Invalid card data size for session key derivation" ;;;
          ret false
        else
          let salt := QBA.left 32 cardData in
          let iv_ := QBA.mid 32 cardData in
          let result := sha512 (secret p ++ pi_key pairingInfo ++ salt) in
          let encKey_ := QBA.left 32 result in
          let macKey_ := QBA.mid 32 result in
          modify (with_d (SecureChannel_init iv_ encKey_ macKey_)) ;;;
          authenticated <- mutualAuthenticate ;;
          if negb authenticated then
            set_lastError "Mutual authentication failed" ;;;
            ret false
          else ret true.

(** the guard that opens every operation on the secure channel:
    [if (!m_secureChannel->isOpen()) { m_lastError = ...; return failure; }] *)
Definition requires_open {A} (failure : A) (body : M A) : M A :=
  p <- gets d ;;
  if negb (isOpen p) then
    set_lastError "Secure channel not open" ;;;
    ret failure
  else body.

(** an input check that comes before the guard *)
Definition validate {A} (valid : bool) (message : QString) (failure : A) (body : M A)
  : M A :=
  if negb valid then
    set_lastError message ;;;
    ret failure
  else body.

(** [CommandSet::unpair] *)
Definition unpair (index : Z) : M bool :=
  requires_open false (
    let cmd := buildCommand INS_UNPAIR index 0 [] in
    resp <- send cmd ;;
    checkOK resp).

(** [CommandSet::getStatus] *)
Definition getStatus (info : Z) : M ApplicationStatus :=
  requires_open ApplicationStatus_default (
    let cmd := buildCommand INS_GET_STATUS info 0 [] in
    resp <- send cmd ;;
    ok <- checkOK resp ;;
    if negb ok then ret ApplicationStatus_default
    else ret (parseApplicationStatus (resp_data resp))).

(** [CommandSet::verifyPIN] *)
Definition verifyPIN (pin : QString) : M bool :=
  requires_open false (
    let cmd := buildCommand INS_VERIFY_PIN 0 0 (QStr.toUtf8 pin) in
    resp <- send cmd ;;
    (* hot-plug: one retry when the card answers 0x6f05 *)
    resp <- (if resp_sw resp =? 0x6f05
             then msleep 50 ;;; send cmd
             else ret resp) ;;
    (* wrong PIN *)
    if Z.land (resp_sw resp) 0x63C0 =? 0x63C0 then
      let remaining := Z.land (resp_sw resp) 0x000F in
      modify (with_remainingPINAttempts remaining) ;;;
      set_lastError ("Wrong PIN. Remaining attempts: " ++ QStr.number remaining) ;;;
      ret false
    else
      modify (with_remainingPINAttempts (-1)) ;;;
      checkOK resp).

(** [QDataStream], big-endian, [stream << value] for a [uint32_t] *)
Definition stream_u32 (result : QByteArray) (value : Z) : QByteArray :=
  result ++ [ Z.land (Z.shiftr value 24) 0xFF; Z.land (Z.shiftr value 16) 0xFF;
              Z.land (Z.shiftr value 8) 0xFF; Z.land value 0xFF ].

(** one segment of a path: the value written, if [ok] *)
Definition segment_value (segment : QString) : option Z :=
  if QStr.endsWith "'" segment || QStr.endsWith "h" segment
  then match toUInt (QStr.left (String.length segment - 1) segment) with
       | Some v => Some (Z.lor v 0x80000000)
       | None => None
       end
  else toUInt segment.

(** [parseDerivationPath]: the bytes returned and the value left in
    [startingPoint] *)
Definition parseDerivationPath (path : QString) : QByteArray * Z :=
  let cleanPath := QStr.trimmed path in
  let '(startingPoint, cleanPath) :=
    if QStr.startsWith "m/" cleanPath then
      (P1DeriveKeyFromMaster, QStr.mid 2 cleanPath)
    else if QStr.startsWith "../" cleanPath then
      (P1DeriveKeyFromParent, QStr.mid 3 cleanPath)
    else if QStr.startsWith "./" cleanPath then
      (P1DeriveKeyFromCurrent, QStr.mid 2 cleanPath)
    else (P1DeriveKeyFromCurrent, cleanPath) in
  if QStr.isEmpty cleanPath then ([], startingPoint)
  else
    let segments := QStr.split "/" cleanPath in
    (fold_left (fun result segment =>
                  match segment_value segment with
                  | Some value => stream_u32 result value
                  | None => result
                  end) segments [],
     startingPoint).

(** [CommandSet::changePIN] *)
Definition changePIN (newPIN : QString) : M bool :=
  requires_open false (
    let cmd := buildCommand INS_CHANGE_PIN P1ChangePinPIN 0 (QStr.toUtf8 newPIN) in
    resp <- send cmd ;;
    checkOK resp).

(** [CommandSet::changePUK] *)
Definition changePUK (newPUK : QString) : M bool :=
  requires_open false (
    let cmd := buildCommand INS_CHANGE_PIN P1ChangePinPUK 0 (QStr.toUtf8 newPUK) in
    resp <- send cmd ;;
    checkOK resp).

(** [CommandSet::unblockPIN] *)
Definition unblockPIN (puk newPIN : QString) : M bool :=
  requires_open false (
    let data := QStr.toUtf8 puk ++ QStr.toUtf8 newPIN in
    let cmd := buildCommand INS_UNBLOCK_PIN 0 0 data in
    resp <- send cmd ;;
    (* wrong PUK *)
    if Z.land (resp_sw resp) 0x63C0 =? 0x63C0 then
      let remaining := Z.land (resp_sw resp) 0x000F in
      set_lastError ("Wrong PUK. Remaining attempts: " ++ QStr.number remaining) ;;;
      ret false
    else checkOK resp).

(** [CommandSet::changePairingSecret] *)
Definition changePairingSecret (newPassword : QString) : M bool :=
  requires_open false (
    let data := QStr.toUtf8 newPassword in
    let cmd := buildCommand INS_CHANGE_PIN P1ChangePinPairingSecret 0 data in
    resp <- send cmd ;;
    checkOK resp).

(** [CommandSet::generateKey] *)
Definition generateKey : M QByteArray :=
  requires_open [] (
    let cmd := buildCommand INS_GENERATE_KEY 0 0 [] in
    resp <- send cmd ;;
    ok <- checkOK resp ;;
    if negb ok then ret [] else ret (resp_data resp)).

(** the word indexes of a mnemonic: two bytes each, big-endian *)
Fixpoint mnemonic_indexes (data : QByteArray) : list Z :=
  match data with
  | b0 :: b1 :: rest =>
      Z.land (Z.lor (Z.shiftl (QBA.to_char b0) 8) (QBA.to_char b1)) 0xFFFF
      :: mnemonic_indexes rest
  | _ => []
  end.

(** [CommandSet::generateMnemonic] *)
Definition generateMnemonic (checksumSize : Z) : M (list Z) :=
  requires_open [] (
    let cmd := buildCommand INS_GENERATE_MNEMONIC (QBA.to_char checksumSize) 0 [] in
    resp <- send cmd ;;
    ok <- checkOK resp ;;
    if negb ok then ret [] else ret (mnemonic_indexes (resp_data resp))).

(** [CommandSet::loadSeed] *)
Definition loadSeed (seed : QByteArray) : M QByteArray :=
  validate (length seed =? 64)%nat "Seed must be 64 bytes" [] (
  requires_open [] (
    let cmd := buildCommand INS_LOAD_KEY P1LoadKeySeed 0 seed in
    resp <- send cmd ;;
    ok <- checkOK resp ;;
    if negb ok then ret [] else ret (resp_data resp))).

(** [CommandSet::removeKey] *)
Definition removeKey : M bool :=
  requires_open false (
    let cmd := buildCommand INS_REMOVE_KEY 0 0 [] in
    resp <- send cmd ;;
    checkOK resp).

(** [CommandSet::deriveKey] *)
Definition deriveKey (path : QString) : M bool :=
  requires_open false (
    let '(pathData, startingPoint) := parseDerivationPath path in
    let cmd := buildCommand INS_DERIVE_KEY startingPoint 0 pathData in
    resp <- send cmd ;;
    checkOK resp).

(** the signature part of a SIGN response: the public key (65 bytes) skipped *)
Definition skip_public_key (fullResp : QByteArray) : QByteArray :=
  if (65 <? length fullResp)%nat then QBA.mid 65 fullResp else fullResp.

(** [CommandSet::sign] *)
Definition sign (data : QByteArray) : M QByteArray :=
  validate (length data =? 32)%nat "Data must be 32 bytes (hash)" [] (
  requires_open [] (
    let cmd := buildCommand INS_SIGN P1SignCurrentKey 1 data in
    resp <- send cmd ;;
    ok <- checkOK resp ;;
    if negb ok then ret [] else ret (skip_public_key (resp_data resp)))).

(** [CommandSet::signWithPath] *)
Definition signWithPath (data : QByteArray) (path : QString) (makeCurrent : bool)
  : M QByteArray :=
  validate (length data =? 32)%nat "Data must be 32 bytes (hash)" [] (
  requires_open [] (
    let '(pathData, _) := parseDerivationPath path in
    let p1 := if makeCurrent then P1SignDeriveAndMakeCurrent else P1SignDerive in
    let cmdData := data ++ pathData in
    let cmd := buildCommand INS_SIGN p1 1 cmdData in
    resp <- send cmd ;;
    ok <- checkOK resp ;;
    if negb ok then ret [] else ret (skip_public_key (resp_data resp)))).

(** [CommandSet::signWithPathFullResponse] *)
Definition signWithPathFullResponse (data : QByteArray) (path : QString)
  (makeCurrent : bool) : M QByteArray :=
  validate (length data =? 32)%nat "Data must be 32 bytes (hash)" [] (
  requires_open [] (
    let '(pathData, _) := parseDerivationPath path in
    let p1 := if makeCurrent then P1SignDeriveAndMakeCurrent else P1SignDerive in
    let cmdData := data ++ pathData in
    let cmd := buildCommand INS_SIGN p1 1 cmdData in
    resp <- send cmd ;;
    ok <- checkOK resp ;;
    if negb ok then ret [] else ret (resp_data resp))).

(** [CommandSet::signPinless] *)
Definition signPinless (data : QByteArray) : M QByteArray :=
  validate (length data =? 32)%nat "Data must be 32 bytes (hash)" [] (
  requires_open [] (
    let cmd := buildCommand INS_SIGN P1SignPinless 1 data in
    resp <- send cmd ;;
    ok <- checkOK resp ;;
    if negb ok then ret [] else ret (skip_public_key (resp_data resp)))).

(** [CommandSet::setPinlessPath] *)
Definition setPinlessPath (path : QString) : M bool :=
  validate (QStr.startsWith "m/" path)
           "Pinless path must be absolute (start with m/)" false (
  requires_open false (
    let '(pathData, _) := parseDerivationPath path in
    let cmd := buildCommand INS_SET_PINLESS_PATH 0 0 pathData in
    resp <- send cmd ;;
    checkOK resp)).

(** [CommandSet::storeData] *)
Definition storeData (type : Z) (data : QByteArray) : M bool :=
  requires_open false (
    let cmd := buildCommand INS_STORE_DATA type 0 data in
    resp <- send cmd ;;
    checkOK resp).

(** [CommandSet::getData] *)
Definition getData (type : Z) : M QByteArray :=
  requires_open [] (
    let cmd := buildCommand INS_GET_DATA type 0 [] in
    resp <- send cmd ;;
    ok <- checkOK resp ;;
    if negb ok then ret [] else ret (resp_data resp)).

(** the P1 and path data shared by the two EXPORT KEY operations *)
Definition export_parameters (derive makeCurrent : bool) (path : QString)
  : Z * QByteArray :=
  if derive then
    let '(pathData, startingPoint) := parseDerivationPath path in
    let p1 := if makeCurrent then P1ExportKeyDeriveAndMakeCurrent
              else P1ExportKeyDerive in
    (QBA.to_char (Z.lor p1 startingPoint), pathData)
  else (P1ExportKeyCurrent, []).

(** [CommandSet::exportKey] *)
Definition exportKey (derive makeCurrent : bool) (path : QString) (exportType : Z)
  : M QByteArray :=
  requires_open [] (
    let '(p1, pathData) := export_parameters derive makeCurrent path in
    let cmd := setLe 0xFF (buildCommand INS_EXPORT_KEY p1 exportType pathData) in
    resp <- send cmd ;;
    ok <- checkOK resp ;;
    if negb ok then
      set_lastError ("EXPORT_KEY failed with SW: 0x" ++ QStr.hex4 (resp_sw resp)) ;;;
      ret []
    else ret (resp_data resp)).

(** [CommandSet::exportKeyExtended] *)
Definition exportKeyExtended (derive makeCurrent : bool) (path : QString)
  (exportType : Z) : M QByteArray :=
  requires_open [] (
    let '(p1, pathData) := export_parameters derive makeCurrent path in
    let cmd := setLe 0 (buildCommand INS_EXPORT_KEY p1 exportType pathData) in
    resp <- send cmd ;;
    ok <- checkOK resp ;;
    if negb ok then
      set_lastError ("EXPORT_KEY_EXTENDED failed with SW: 0x"
                     ++ QStr.hex4 (resp_sw resp)) ;;;
      ret []
    else ret (resp_data resp)).

(** ** The operations that need the secure channel, as one type

    Each constructor is a call of the [CommandSet] method of that name. *)

Inductive Operation :=
| VerifyPIN (pin : QString)
| ChangePIN (newPIN : QString)
| ChangePUK (newPUK : QString)
| UnblockPIN (puk newPIN : QString)
| ChangePairingSecret (newPassword : QString)
| GenerateKey
| GenerateMnemonic (checksumSize : Z)
| LoadSeed (seed : QByteArray)
| RemoveKey
| DeriveKey (path : QString)
| Sign (data : QByteArray)
| SignWithPath (data : QByteArray) (path : QString) (makeCurrent : bool)
| SignPinless (data : QByteArray)
| SetPinlessPath (path : QString)
| StoreData (type : Z) (data : QByteArray)
| GetData (type : Z)
| ExportKey (derive makeCurrent : bool) (path : QString) (exportType : Z)
| ExportKeyExtended (derive makeCurrent : bool) (path : QString) (exportType : Z)
| Unpair (index : Z)
| GetStatus (info : Z).

(** what a method returns: [bool], [QByteArray], [QVector<int>] or
    [ApplicationStatus] *)
Inductive Value :=
| VBool (b : bool)
| VBytes (b : QByteArray)
| VIndexes (l : list Z)
| VStatus (s : ApplicationStatus).

Definition fmap {A B} (f : A -> B) (m : M A) : M B := a <- m ;; ret (f a).

Definition call (op : Operation) : M Value :=
  match op with
  | VerifyPIN pin => fmap VBool (verifyPIN pin)
  | ChangePIN newPIN => fmap VBool (changePIN newPIN)
  | ChangePUK newPUK => fmap VBool (changePUK newPUK)
  | UnblockPIN puk newPIN => fmap VBool (unblockPIN puk newPIN)
  | ChangePairingSecret pw => fmap VBool (changePairingSecret pw)
  | GenerateKey => fmap VBytes generateKey
  | GenerateMnemonic n => fmap VIndexes (generateMnemonic n)
  | LoadSeed seed => fmap VBytes (loadSeed seed)
  | RemoveKey => fmap VBool removeKey
  | DeriveKey path => fmap VBool (deriveKey path)
  | Sign data => fmap VBytes (sign data)
  | SignWithPath data path mk => fmap VBytes (signWithPath data path mk)
  | SignPinless data => fmap VBytes (signPinless data)
  | SetPinlessPath path => fmap VBool (setPinlessPath path)
  | StoreData type data => fmap VBool (storeData type data)
  | GetData type => fmap VBytes (getData type)
  | ExportKey dv mk path ty => fmap VBytes (exportKey dv mk path ty)
  | ExportKeyExtended dv mk path ty => fmap VBytes (exportKeyExtended dv mk path ty)
  | Unpair index => fmap VBool (unpair index)
  | GetStatus info => fmap VStatus (getStatus info)
  end.

(** the value each method returns on failure: [false], [QByteArray()],
    [QVector<int>()], [ApplicationStatus()] *)
Definition failure_value (op : Operation) : Value :=
  match op with
  | VerifyPIN _ | ChangePIN _ | ChangePUK _ | UnblockPIN _ _
  | ChangePairingSecret _ | RemoveKey | DeriveKey _ | SetPinlessPath _
  | StoreData _ _ | Unpair _ => VBool false
  | GenerateKey | LoadSeed _ | Sign _ | SignWithPath _ _ _ | SignPinless _
  | GetData _ | ExportKey _ _ _ _ | ExportKeyExtended _ _ _ _ => VBytes []
  | GenerateMnemonic _ => VIndexes []
  | GetStatus _ => VStatus ApplicationStatus_default
  end.

(** the message of the input check that a method makes before it looks at
    the channel, when the input fails it *)
Definition rejected_input (op : Operation) : option QString :=
  match op with
  | LoadSeed seed =>
      if (length seed =? 64)%nat then None else Some "Seed must be 64 bytes"%string
  | Sign data | SignWithPath data _ _ | SignPinless data =>
      if (length data =? 32)%nat then None else Some "Data must be 32 bytes (hash)"%string
  | SetPinlessPath path =>
      if QStr.startsWith "m/" path then None
      else Some "Pinless path must be absolute (start with m/)"%string
  | _ => None
  end.

(** the events a call added to the trace *)
Definition transmitted (t : list Event) : list QByteArray :=
  flat_map (fun e => match e with Transmit a => [a] | _ => [] end) t.
Definition slept (t : list Event) : list Z :=
  flat_map (fun e => match e with Msleep ms => [ms] | _ => [] end) t.

(** ** Names for what [send] computes

    the MAC of the outgoing request, the APDU sent, and the world in which
    [send] hands that APDU to the channel *)
Definition request_mac (p : Private) (command : Command) : QByteArray :=
  let encData := encrypt p (cmd_data command) in
  calculateMAC (macKey p) (request_meta command encData) encData.

Definition request_apdu (p : Private) (command : Command) : QByteArray :=
  serialize (secure_command command
               (request_mac p command ++ encrypt p (cmd_data command))).

Definition sending (command : Command) (w : World) : World :=
  with_event (IvUpdated (iv (d w)) (request_mac (d w) command))
             (with_d (set_iv (request_mac (d w) command)) w).


(** ** Names for what [openSecureChannel] does

    the OPEN SECURE CHANNEL request, and whether its response lets the
    session keys be derived (valid pairing, a public key to send, a success
    with at least 48 bytes of data) *)

Definition open_request (pairingInfo : PairingInfo) (w : World) : QByteArray :=
  serialize (buildCommand INS_OPEN_SECURE_CHANNEL (pi_index pairingInfo) 0
                          (rawPublicKey (d w))).

Definition keys_derived (pairingInfo : PairingInfo) (w : World) : bool :=
  isValid pairingInfo && negb (QBA.isEmpty (rawPublicKey (d w))) &&
  match channel w with
  | None => false
  | Some c =>
      match fst (card_transmit c (open_request pairingInfo w)) with
      | inl _ => false
      | inr rawResp =>
          isOK (Response_of rawResp)
          && negb (length (resp_data (Response_of rawResp)) <? 48)%nat
      end
  end.

(** two states of the secure channel that differ in the IV at most *)
Definition same_session (p p' : Private) : Prop :=
  set_iv [] p = set_iv [] p'.

(** ** Observations on a call

    [quiet]: the call adds no event.  [at_most_one_apdu]: the call never
    sleeps and hands at most one APDU to the channel. *)

Definition quiet {A} (m : M A) : Prop :=
  forall (w w' : World) (out : Outcome A), m w = (out, w') -> trace w' = trace w.

Definition at_most_one_apdu {A} (m : M A) : Prop :=
  forall (w w' : World) (out : Outcome A),
    m w = (out, w') ->
    slept (trace w') = slept (trace w) /\
    (transmitted (trace w') = transmitted (trace w) \/
     exists apdu, transmitted (trace w') = transmitted (trace w) ++ [apdu]).

(** the VERIFY PIN command of [verifyPIN] *)
Definition verify_command (pin : QString) : Command :=
  buildCommand INS_VERIFY_PIN 0 0 (QStr.toUtf8 pin).

(** ** The path parser as the specification words it

    the wire form of one component, and the components of a path that are
    valid numbers, in order, with the hardened bit already set *)

Definition BE32 (v : Z) : QByteArray :=
  [ Z.land (Z.shiftr v 24) 0xFF; Z.land (Z.shiftr v 16) 0xFF;
    Z.land (Z.shiftr v 8) 0xFF; Z.land v 0xFF ].

Definition path_values (segments : list QString) : list Z :=
  flat_map (fun segment => match segment_value segment with
                           | Some value => [value]
                           | None => []
                           end) segments.

Definition path_start (cleanPath : QString) : Z :=
  if QStr.startsWith "m/" cleanPath then P1DeriveKeyFromMaster
  else if QStr.startsWith "../" cleanPath then P1DeriveKeyFromParent
  else P1DeriveKeyFromCurrent.

Definition path_rest (cleanPath : QString) : QString :=
  if QStr.startsWith "m/" cleanPath then QStr.mid 2 cleanPath
  else if QStr.startsWith "../" cleanPath then QStr.mid 3 cleanPath
  else if QStr.startsWith "./" cleanPath then QStr.mid 2 cleanPath
  else cleanPath.

Definition path_segments (path : QString) : list QString :=
  let rest := path_rest (QStr.trimmed path) in
  if QStr.isEmpty rest then [] else QStr.split "/" rest.

(** four bytes, most significant first, back to a number *)
Fixpoint decode_BE32 (bytes : QByteArray) : list Z :=
  match bytes with
  | b0 :: b1 :: b2 :: b3 :: rest =>
      (Z.shiftl b0 24 + Z.shiftl b1 16 + Z.shiftl b2 8 + b3) :: decode_BE32 rest
  | _ => []
  end.

(** ** The path parser as the claim words it

    a path is white space, one of the prefixes, components with [/] between
    them, white space *)

(** UTF-8, for the code points of the Basic Multilingual Plane and beyond *)
Definition utf8 (ucs4 : Z) : list ascii :=
  map (fun b => ascii_of_nat (Z.to_nat b))
    (if ucs4 <? 0x80 then [ucs4]
     else if ucs4 <? 0x800 then
       [Z.lor 0xC0 (Z.shiftr ucs4 6); Z.lor 0x80 (Z.land ucs4 0x3F)]
     else if ucs4 <? 0x10000 then
       [Z.lor 0xE0 (Z.shiftr ucs4 12);
        Z.lor 0x80 (Z.land (Z.shiftr ucs4 6) 0x3F);
        Z.lor 0x80 (Z.land ucs4 0x3F)]
     else
       [Z.lor 0xF0 (Z.shiftr ucs4 18);
        Z.lor 0x80 (Z.land (Z.shiftr ucs4 12) 0x3F);
        Z.lor 0x80 (Z.land (Z.shiftr ucs4 6) 0x3F);
        Z.lor 0x80 (Z.land ucs4 0x3F)]).

(** [QChar::isSpace], by code point *)
Definition isSpace (ucs4 : Z) : bool :=
  (ucs4 =? 0x20) || ((0x09 <=? ucs4) && (ucs4 <=? 0x0D))
  || (ucs4 =? 0x85) || (ucs4 =? 0xA0) || (ucs4 =? 0x1680)
  || ((0x2000 <=? ucs4) && (ucs4 <=? 0x200A))
  || (ucs4 =? 0x2028) || (ucs4 =? 0x2029) || (ucs4 =? 0x202F)
  || (ucs4 =? 0x205F) || (ucs4 =? 0x3000).

(** the text of a run of characters *)
Definition text (ucs4s : list Z) : string :=
  string_of_list_ascii (flat_map utf8 ucs4s).

(** a visible character of ASCII *)
Definition graphic (c : ascii) : bool :=
  ((33 <=? nat_of_ascii c) && (nat_of_ascii c <=? 126))%nat.

(** a text that neither starts nor ends in white space: it is empty, or its
    first and its last character are visible characters of ASCII *)
Definition no_space_at_ends (s : string) : bool :=
  match list_ascii_of_string s with
  | [] => true
  | c :: l => graphic c && graphic (last l c)
  end.

(** components laid out with [/] between them *)
Fixpoint join (components : list string) : string :=
  match components with
  | [] => ""
  | [c] => c
  | c :: rest => c ++ "/" ++ join rest
  end.

Definition has_slash (component : string) : bool :=
  existsb (Ascii.eqb "/") (list_ascii_of_string component).

(** the four ways a path starts *)
Inductive Prefix := FromMaster | FromParent | FromCurrent | NoPrefix.

Definition prefix_text (p : Prefix) : string :=
  match p with
  | FromMaster => "m/"
  | FromParent => "../"
  | FromCurrent => "./"
  | NoPrefix => ""
  end.

(** a text that starts with none of the three prefixes *)
Definition unprefixed (s : string) : bool :=
  negb (String.prefix "m/" s) && negb (String.prefix "../" s)
  && negb (String.prefix "./" s).

Definition prefix_start (p : Prefix) : Z :=
  match p with
  | FromMaster => P1DeriveKeyFromMaster
  | FromParent => P1DeriveKeyFromParent
  | FromCurrent | NoPrefix => P1DeriveKeyFromCurrent
  end.

(** what a component contributes: nothing when it is not a number; the
    number, most significant byte first; with bit [0x80000000] set, the
    number being what precedes the suffix, when it ends in ['] or [h] *)
Definition component_bytes (component : string) : QByteArray :=
  match rev (list_ascii_of_string component) with
  | c :: body =>
      if Ascii.eqb c "'" || Ascii.eqb c "h" then
        match toUInt (string_of_list_ascii (rev body)) with
        | Some number => BE32 (Z.setbit number 31)
        | None => []
        end
      else
        match toUInt component with
        | Some number => BE32 number
        | None => []
        end
  | [] =>
      match toUInt component with
      | Some number => BE32 number
      | None => []
      end
  end.

(** ** What [verifyPIN] reports, and what never sleeps *)

(** what the caller of [verifyPIN] gets from the exchange it settles on:
    [response] arrived in world [w2]; [out] is returned in world [w'] *)
Definition verifyPIN_reports (response : Response) (w2 : World)
  (out : Outcome bool) (w' : World) : Prop :=
  trace w' = trace w2 /\ d w' = d w2 /\
  (resp_sw response = 0x9000 ->
   out = Returned true /\ m_lastError w' = ""%string /\
   m_remainingPINAttempts w' = -1) /\
  (Z.land (resp_sw response) 0x63C0 = 0x63C0 ->
   out = Returned false /\
   m_remainingPINAttempts w' = Z.land (resp_sw response) 0x000F /\
   m_lastError w'
   = ("Wrong PIN. Remaining attempts: "
      ++ QStr.number (Z.land (resp_sw response) 0x000F))%string) /\
  (resp_sw response <> 0x9000 -> Z.land (resp_sw response) 0x63C0 <> 0x63C0 ->
   out = Returned false /\ m_remainingPINAttempts w' = -1 /\
   m_lastError w' = ("APDU error: SW=" ++ QStr.hex4 (resp_sw response))%string).

(** the message with which an operation surfaces the status [6f 05] *)
Definition surfaced_6f05 (op : Operation) : string :=
  match op with
  | ExportKey _ _ _ _ => "EXPORT_KEY failed with SW: 0x6f05"
  | ExportKeyExtended _ _ _ _ => "EXPORT_KEY_EXTENDED failed with SW: 0x6f05"
  | _ => "APDU error: SW=6f05"
  end.

(** a call that never sleeps *)
Definition never_sleeps {A} (m : M A) : Prop :=
  forall (w w' : World) (out : Outcome A),
    m w = (out, w') -> slept (trace w') = slept (trace w).

(** ** Frames, verdicts and scenarios for the properties of the session *)

(** a call after which two worlds stand in the relation [R], whatever the
    outcome *)
Definition preserves (R : World -> World -> Prop) {A} (m : M A) : Prop :=
  forall (w w' : World) (out : Outcome A), m w = (out, w') -> R w w'.

(** the session is as it was: the secure channel but for its IV, the stored
    pairing, the random generator *)
Definition session_kept (w w' : World) : Prop :=
  same_session (d w) (d w') /\ m_pairingInfo w' = m_pairingInfo w /\
  rng w' = rng w.

Definition attempts_kept (w w' : World) : Prop :=
  m_remainingPINAttempts w' = m_remainingPINAttempts w.

(** what a returned value says about [m_lastError]: a value other than
    [failure] comes with an empty [m_lastError]; when [strict], [failure]
    comes with a message *)
Definition verdict {A} (failure : A) (strict : bool) (m : M A) : Prop :=
  forall (w w' : World) (a : A),
    m w = (Returned a, w') ->
    (a <> failure -> m_lastError w' = ""%string) /\
    (strict = true -> a = failure -> m_lastError w' <> ""%string).

(** the world in which [openSecureChannel] calls [mutualAuthenticate]: the
    pairing stored, OPEN SECURE CHANNEL answered with [rawResp] by a card
    left as [c'], the session keys installed *)
Definition session_opened (pairingInfo : PairingInfo) (rawResp : QByteArray)
  (c' : Card) (w : World) : World :=
  let cardData := resp_data (Response_of rawResp) in
  let result := sha512 (secret (d w) ++ pi_key pairingInfo ++ QBA.left 32 cardData) in
  with_d (SecureChannel_init (QBA.mid 32 cardData) (QBA.left 32 result)
                             (QBA.mid 32 result))
    (with_lastError ""
       (with_event (Transmit (open_request pairingInfo w))
          (with_channel (Some c') (with_pairingInfo pairingInfo w)))).

(** what a card that shares the session answers to [command] when its
    reply, in the clear, is [plain] (data followed by the status word): the
    reply encrypted under the request MAC as IV, preceded by its MAC, with
    [90 00] *)
Definition secure_reply (p : Private) (command : Command) (plain : QByteArray)
  : QByteArray :=
  let p' := set_iv (request_mac p command) p in
  let rct := encrypt p' plain in
  let rmac := calculateMAC (macKey p') (response_meta (QBA.fill 16 0 ++ rct)) rct in
  rmac ++ rct ++ [0x90; 0x00].

(** ** One-shot encryption

    [RAND_bytes] is OpenSSL's generator, with a state of its own; it gives
    the bytes asked for or fails. *)

Section OneShot.
Variable RandState : Type.
Variable RAND_bytes : RandState -> nat -> option QByteArray * RandState.

(** [SecureChannel::oneShotEncrypt] *)
Definition oneShotEncrypt (p : Private) (data : QByteArray) (r : RandState)
  : QByteArray * RandState :=
  if QBA.isEmpty (secret p) then ([], r)
  else
    (* a random IV *)
    match RAND_bytes r 16 with
    | (None, r') => ([], r')
    | (Some iv_, r') =>
        let padded := Utils.pad data 16 in
        (* AES-256-CBC under the shared secret, padding disabled *)
        match EVP_aes_256_cbc_encrypt (secret p) iv_ padded with
        | None => ([], r')
        | Some encrypted =>
            (* [pubkey_len][pubkey][IV][ciphertext] *)
            let pubKey := rawPublicKeyData p in
            (QBA.to_char (Z.of_nat (length pubKey)) :: pubKey ++ iv_ ++ encrypted,
             r')
        end
    end.

End OneShot.

End Library.

Arguments Private : clear implicits.
Arguments World : clear implicits.

(** ** Multi-frame responses in the NFC backends *)

Section Nfc.

(** the tag behind [IsoDep]; a call through JNI gives the reply bytes, or an
    invalid object ([None]) *)
Variable Tag : Type.
(** [s_activeIsoDep.callObjectMethod("transceive", ...)] *)
Variable isoDep_transceive : Tag -> QByteArray -> option QByteArray * Tag.
(** [m_readerCallback.callObjectMethod("transceive", ...)], the Java
    [KeycardNfcReader] in front of the same tag *)
Variable reader_transceive : Tag -> QByteArray -> option QByteArray * Tag.

(** [KeycardChannelAndroidNfc]: [s_connected] and [s_activeIsoDep] (valid or
    not, with the tag it reaches) *)
Record AndroidNfc := mkAndroidNfc {
  s_connected : bool;
  s_activeIsoDep : option Tag
}.

Definition sw1_of (response : QByteArray) : Z :=
  QBA.to_char (nth (length response - 2) response 0).
Definition sw2_of (response : QByteArray) : Z :=
  QBA.to_char (nth (length response - 1) response 0).

(** GET RESPONSE: [00 C0 00 00 Le] *)
Definition getResponseApdu (sw2 : Z) : QByteArray := [0x00; 0xC0; 0x00; 0x00; sw2].

(** [KeycardChannelAndroidNfc::handleMultiFrameResponse]: the response as it
    is left, the tag, and the APDUs sent to it *)
Definition handleMultiFrameResponse (response : QByteArray) (tag : Tag)
  : QByteArray * Tag * list QByteArray :=
  if (length response <? 2)%nat then (response, tag, [])
  else
    let sw1 := sw1_of response in
    let sw2 := sw2_of response in
    if sw1 =? 0x61 then
      match isoDep_transceive tag (getResponseApdu sw2) with
      | (Some additionalResponse, tag') =>
          (* the first status word goes, the final one stays *)
          (QBA.left (length response - 2) response ++ additionalResponse,
           tag', [getResponseApdu sw2])
      | (None, tag') => (response, tag', [getResponseApdu sw2])
      end
    else (response, tag, []).

(** [KeycardChannelAndroidNfc::transmit] *)
Definition AndroidNfc_transmit (apdu : QByteArray) (s : AndroidNfc)
  : QByteArray * AndroidNfc * list QByteArray :=
  match s_connected s, s_activeIsoDep s with
  | true, Some tag =>
      match reader_transceive tag apdu with
      | (None, tag') => ([], mkAndroidNfc false None, [apdu])
      | (Some response, tag') =>
          let '(response', tag'', sent) := handleMultiFrameResponse response tag' in
          (response', mkAndroidNfc true (Some tag''), apdu :: sent)
      end
  | _, _ => ([], s, [])
  end.

(** [KeycardChannelQtNfc::transmit], the Android branch that talks to
    [g_activeIsoDep]: the [while] loop over status [61 xx].  The loop has no
    bound of its own; [fuel] bounds the number of rounds, [None] is fuel
    exhausted. *)
Fixpoint QtNfc_collect (fuel : nat) (finalResponse : QByteArray) (tag : Tag)
  (sent : list QByteArray) : option (QByteArray * Tag * list QByteArray) :=
  match fuel with
  | O => None
  | S f =>
      if (length finalResponse <? 2)%nat then Some (finalResponse, tag, sent)
      else
        let sw1 := sw1_of finalResponse in
        let sw2 := sw2_of finalResponse in
        if negb (sw1 =? 0x61) then Some (finalResponse, tag, sent)
        else
          match isoDep_transceive tag (getResponseApdu sw2) with
          | (Some additionalResponse, tag') =>
              QtNfc_collect f
                (QBA.left (length finalResponse - 2) finalResponse
                 ++ additionalResponse)
                tag' (sent ++ [getResponseApdu sw2])
          | (None, tag') =>
              Some (finalResponse, tag', sent ++ [getResponseApdu sw2])
          end
  end.

(** the whole call; [inl] is the [std::runtime_error] of a failed transceive *)
Definition QtNfc_transmit (fuel : nat) (apdu : QByteArray) (tag : Tag)
  : option ((string + QByteArray) * Tag * list QByteArray) :=
  match isoDep_transceive tag apdu with
  | (None, tag') => Some (inl "IsoDep transceive failed"%string, tag', [apdu])
  | (Some response, tag') =>
      match QtNfc_collect fuel response tag' [apdu] with
      | Some (final, tag'', sent) => Some (inr final, tag'', sent)
      | None => None
      end
  end.

End Nfc.

(** ** A test bench

    The closed checks below run the library on the [MockChannel] of the unit
    tests (a queue of scripted responses, then [nextResponse]).  The INS
    bytes are those of the table in section 6 of the specification; GENERATE
    KEY, which the table lacks, and the P1 values are the Keycard applet's.
    No property depends on these values.  AES is the real cipher; the hashes,
    the elliptic curve and the random generator are stand-ins that are
    deterministic and cheap to evaluate, since no check depends on their
    values. *)

#[export] Instance keycard_constants : Constants := {|
  CLA := 0x80;
  INS_PAIR := 0x12; P1PairFirstStep := 0x00; P1PairFinalStep := 0x01;
  INS_OPEN_SECURE_CHANNEL := 0x10;
  INS_UNPAIR := 0x13; INS_GET_STATUS := 0xF2; INS_VERIFY_PIN := 0x20;
  INS_CHANGE_PIN := 0x21;
  P1ChangePinPIN := 0x00; P1ChangePinPUK := 0x01; P1ChangePinPairingSecret := 0x02;
  INS_UNBLOCK_PIN := 0x22;
  INS_GENERATE_KEY := 0xD4; INS_GENERATE_MNEMONIC := 0xD6;
  INS_LOAD_KEY := 0xD4; P1LoadKeySeed := 0x03;
  INS_REMOVE_KEY := 0xC0; INS_DERIVE_KEY := 0xD5;
  P1DeriveKeyFromMaster := 0x00; P1DeriveKeyFromParent := 0x40;
  P1DeriveKeyFromCurrent := 0x80;
  INS_SIGN := 0xC8;
  P1SignCurrentKey := 0x00; P1SignDerive := 0x01; P1SignDeriveAndMakeCurrent := 0x02;
  P1SignPinless := 0x03;
  INS_SET_PINLESS_PATH := 0xC9; INS_STORE_DATA := 0xE2; INS_GET_DATA := 0xCA;
  INS_EXPORT_KEY := 0xC2;
  P1ExportKeyCurrent := 0x00; P1ExportKeyDerive := 0x01;
  P1ExportKeyDeriveAndMakeCurrent := 0x02
|}.

(** [MockChannel] (tests/test_command_set_new.cpp) *)
Record MockChannel := mkMockChannel {
  responseQueue : list QByteArray;
  nextResponse : QByteArray
}.

Definition MockChannel_transmit (c : MockChannel) (apdu : QByteArray)
  : (string + QByteArray) * MockChannel :=
  match responseQueue c with
  | r :: q => (inr r, mkMockChannel q (nextResponse c))
  | [] => (inr (nextResponse c), c)
  end.

Definition byte_sum (m : QByteArray) : Z := fold_left Z.add m 0.

(** [n] bytes that depend on the message only through its length and sum *)
Definition stand_in_digest (n : nat) (m : QByteArray) : QByteArray :=
  let s := byte_sum m + Z.of_nat (length m) in
  map (fun i => (s + 7 * Z.of_nat i) mod 256) (seq 0 n).

(** 32 bytes: the head of the message, masked with a byte of the key's *)
Definition stand_in_mac (message key : QByteArray) : QByteArray :=
  let k := Z.land (byte_sum key) 0xFF in
  let m := message ++ QBA.fill 32 0 in
  map (Z.lxor k) (firstn 32 (skipn 1 m ++ firstn 1 m)).

(** unsigned decimal numerals below [2^32] *)
Fixpoint decimal_value (l : list ascii) (acc : Z) : option Z :=
  match l with
  | [] => Some acc
  | c :: l' =>
      let n := Z.of_nat (nat_of_ascii c) in
      if (48 <=? n) && (n <=? 57) then decimal_value l' (10 * acc + (n - 48))
      else None
  end.

Definition decimal_toUInt (s : string) : option Z :=
  match list_ascii_of_string s with
  | [] => None
  | l => match decimal_value l 0 with
         | Some v => if v <? 2 ^ 32 then Some v else None
         | None => None
         end
  end.

#[export] Instance bench : Platform := {|
  sha256 := stand_in_digest 32;
  sha512 := stand_in_digest 64;
  hmac_sha256 := stand_in_mac;
  Rng := Z;
  fillRange := fun seed n =>
    (map (fun i => (seed + Z.of_nat i) mod 256) (seq 0 (4 * n)), seed + 1);
  EVP_PKEY := QByteArray;
  EVP_PKEY_keygen := fun seed =>
    (Some (QBA.fill 32 (seed mod 256), 0x04 :: QBA.fill 64 (seed mod 256)), seed + 1);
  EC_POINT_oct2point := fun pub => Some pub;
  EVP_PKEY_derive := fun priv pub => Some (stand_in_digest 32 (priv ++ pub));
  Card := MockChannel;
  card_transmit := MockChannel_transmit;
  toUInt := decimal_toUInt;
  parseApplicationStatus := fun _ => ApplicationStatus_default;
  errorMessage := fun _ => "card error"%string
|}.

(** a command set whose channel was opened as the tests do, with
    [testInjectSecureChannelState] *)
Definition bench_world (queue : list QByteArray) (next : QByteArray) : World bench :=
  mkWorld (SecureChannel_init (QBA.fill 16 0x00) (QBA.fill 32 0xEE) (QBA.fill 32 0xDD)
                              Private_new)
          (mkPairingInfo (QBA.fill 32 0xAB) 1) "" (-1)
          (Some (mkMockChannel queue next)) 0 [].

(** a command set just constructed over the mock channel *)
Definition fresh_world (queue : list QByteArray) (next : QByteArray) : World bench :=
  CommandSet_new (Some (mkMockChannel queue next)) 0.

(** *** Scenarios *)

(** a GET DATA exchange whose reply the card authenticates: the reply is
    what a card that shares the session answers, its data ([01 02 03 90 00]
    in the clear) encrypted under the request MAC as IV and preceded by the
    response MAC *)
Definition exchange_command : Command := buildCommand INS_GET_DATA 0 0 [].

Definition card_reply (p : Private bench) (command : Command) (plain : QByteArray)
  : QByteArray :=
  let p' := set_iv (request_mac p command) p in
  let rct := encrypt p' plain in
  let rmac := calculateMAC (macKey p') (response_meta (QBA.fill 16 0 ++ rct)) rct in
  rmac ++ rct ++ [0x90; 0x00].

Definition exchange_reply : QByteArray :=
  Eval vm_compute in
    card_reply (d (bench_world [] [])) exchange_command [0x01; 0x02; 0x03; 0x90; 0x00].

Definition exchange_world : World bench := bench_world [exchange_reply] [].

(** a command set after SELECT on an initialized card: the handshake is
    seeded, the channel is closed, and the card will answer OPEN SECURE
    CHANNEL with 48 bytes and [90 00], then MUTUALLY AUTHENTICATE with
    [69 82].  The card's public key is the generator point of secp256k1 in
    uncompressed form. *)
Definition card_key : QByteArray :=
  [ 0x04;
    0x79; 0xBE; 0x66; 0x7E; 0xF9; 0xDC; 0xBB; 0xAC; 0x55; 0xA0; 0x62; 0x95;
    0xCE; 0x87; 0x0B; 0x07; 0x02; 0x9B; 0xFC; 0xDB; 0x2D; 0xCE; 0x28; 0xD9;
    0x59; 0xF2; 0x81; 0x5B; 0x16; 0xF8; 0x17; 0x98;
    0x48; 0x3A; 0xDA; 0x77; 0x26; 0xA3; 0xC4; 0x65; 0x5D; 0xA4; 0xFB; 0xFC;
    0x0E; 0x11; 0x08; 0xA8; 0xFD; 0x17; 0xB4; 0x48; 0xA6; 0x85; 0x54; 0x19;
    0x9C; 0x47; 0xD0; 0x8F; 0xFB; 0x10; 0xD4; 0xB8 ].

Definition handshake_world : World bench :=
  snd (generateSecret card_key
         (fresh_world [QBA.fill 48 0x22 ++ [0x90; 0x00]] [0x69; 0x82])).

Definition bench_pairing : PairingInfo := mkPairingInfo (QBA.fill 32 0xAB) 1.

(** a scripted tag: each transceive takes the next scripted reply *)
Definition script_transceive (tag : list (option QByteArray)) (apdu : QByteArray)
  : option QByteArray * list (option QByteArray) :=
  match tag with
  | reply :: rest => (reply, rest)
  | [] => (None, [])
  end.

(** three frames: [01 02 | 61 02], then [03 04 | 61 02], then [05 06 | 90 00] *)
Definition frame1 : QByteArray := [0x01; 0x02; 0x61; 0x02].
Definition frame2 : QByteArray := [0x03; 0x04; 0x61; 0x02].
Definition frame3 : QByteArray := [0x05; 0x06; 0x90; 0x00].
Definition later_frames : list (option QByteArray) := [Some frame2; Some frame3].

Definition exchange_after : World bench := snd (send exchange_command exchange_world).

(** the first step of PAIR answered with 64 bytes of [0x33] and [90 00] *)
Definition pairing_world : World bench :=
  fresh_world [QBA.fill 64 0x33 ++ [0x90; 0x00]] [].
Definition pairing_challenge : QByteArray := fst (fillRange (rng pairing_world) 8).

(** a card that answers [6f 05] once, then [90 00] *)
Definition hot_plug_world : World bench := bench_world [[0x6F; 0x05]] [0x90; 0x00].


(** ** Bytes and blocks *)

Definition is_byte (b : Z) : Prop := 0 <= b < 256.

Definition byteb (b : Z) : bool := (0 <=? b) && (b <? 256).

(** a block: sixteen bytes *)
Definition is_block (s : list Z) : Prop := length s = 16%nat /\ Forall is_byte s.

(** a chain of frames: each of [more] is a payload followed by [61 le], the
    last frame closes the chain *)
Fixpoint chained (more : list (QByteArray * Z)) (last : QByteArray)
  : list QByteArray :=
  match more with
  | [] => [last]
  | (payload, le) :: more' => (payload ++ [0x61; le]) :: chained more' last
  end.

(** a card that holds the pairing password: it answers the first step of
    PAIR with the right cryptogram and a challenge of 32 bytes [0x44], the
    final step with slot 2 and a salt of 32 bytes [0x55] *)
Definition pairing_cryptogram : QByteArray :=
  Eval vm_compute in
    sha256 (derivePairingToken "KeycardTest" ++ pairing_challenge).

Definition paired_step1 : QByteArray :=
  pairing_cryptogram ++ QBA.fill 32 0x44 ++ [0x90; 0x00].
Definition paired_step2 : QByteArray := 0x02 :: QBA.fill 32 0x55 ++ [0x90; 0x00].

Definition paired_world : World bench := fresh_world [paired_step1; paired_step2] [].

(** a command set after SELECT whose card answers OPEN SECURE CHANNEL with
    48 bytes and [90 00], then MUTUALLY AUTHENTICATE with a bare [90 00] *)
Definition accepting_world : World bench :=
  snd (generateSecret card_key
         (fresh_world [QBA.fill 48 0x22 ++ [0x90; 0x00]] [0x90; 0x00])).

(** a scripted [RAND_bytes]: the state is the byte it fills with *)
Definition scripted_RAND_bytes (r : Z) (n : nat) : option QByteArray * Z :=
  (Some (QBA.fill n (r mod 256)), r + 1).
(** * Properties *)

Lemma QBA_eqb_eq (a b : QByteArray) : QBA.eqb a b = true <-> a = b.
Proof.
  revert b; induction a as [|x a IH]; intros [|y b]; simpl; split;
    try congruence; try reflexivity.
  - intros H. apply andb_true_iff in H as [Hx Hab].
    apply Z.eqb_eq in Hx. apply IH in Hab. congruence.
  - intros H. injection H as -> ->. rewrite Z.eqb_refl. simpl. now apply IH.
Qed.

Lemma QBA_eqb_refl (a : QByteArray) : QBA.eqb a a = true.
Proof. now apply QBA_eqb_eq. Qed.

Lemma QBA_eqb_neq (a b : QByteArray) : QBA.eqb a b = false <-> a <> b.
Proof.
  split.
  - intros H E. apply QBA_eqb_eq in E. congruence.
  - intros H. destruct (QBA.eqb a b) eqn:E; [|reflexivity].
    apply QBA_eqb_eq in E. contradiction.
Qed.

Example aes256_fips197_encrypt :
  AES256.encrypt_block fips197_key fips197_plain = fips197_cipher.
Proof. vm_compute. reflexivity. Qed.

Example aes256_fips197_decrypt :
  AES256.decrypt_block fips197_key fips197_cipher = fips197_plain.
Proof. vm_compute. reflexivity. Qed.

Lemma aes256_encrypt_block_length (key block : QByteArray) :
  length (AES256.encrypt_block key block) = 16%nat.
Proof. unfold AES256.encrypt_block, AES256.add_round_key. now rewrite length_map. Qed.

Lemma aes256_decrypt_block_length (key block : QByteArray) :
  length (AES256.decrypt_block key block) = 16%nat.
Proof. unfold AES256.decrypt_block, AES256.add_round_key. now rewrite length_map. Qed.

Ltac splits := repeat match goal with |- _ /\ _ => split end.

Ltac finish H :=
  unfold bind, set_lastError, modify, ret in H;
  apply pair_equal_spec in H; destruct H as [<- <-].

(** ** Blocks and CBC *)

Lemma chunks16_nil (fuel : nat) : chunks16 fuel [] = [].
Proof. now destruct fuel. Qed.

Lemma chunks16_whole (n : nat) :
  forall (fuel : nat) (a : QByteArray),
    length a = (16 * n)%nat -> (length a <= fuel)%nat ->
    length (chunks16 fuel a) = n /\
    concat (chunks16 fuel a) = a /\
    Forall (fun b => length b = 16%nat) (chunks16 fuel a).
Proof.
  induction n as [|n IH]; intros fuel a Hlen Hfuel.
  - destruct a; [|simpl in Hlen; lia]. rewrite chunks16_nil. now repeat split.
  - destruct fuel as [|f]; [lia|].
    destruct a as [|x a']; [simpl in Hlen; lia|].
    remember (x :: a') as a eqn:Ea.
    assert (Hs : length (skipn 16 a) = (16 * n)%nat)
      by (rewrite length_skipn; lia).
    destruct (IH f (skipn 16 a) Hs ltac:(lia)) as (Hl & Hc & Hf).
    assert (E : chunks16 (S f) a = firstn 16 a :: chunks16 f (skipn 16 a))
      by (subst a; reflexivity).
    rewrite E. cbn [length concat]. rewrite Hl, Hc, firstn_skipn. repeat split.
    constructor; [|exact Hf]. rewrite length_firstn. lia.
Qed.

Lemma blocks16_length (n : nat) (a : QByteArray) :
  length a = (16 * n)%nat -> length (blocks16 a) = n.
Proof. intros H. now apply (chunks16_whole n (length a) a H). Qed.

Lemma cbc_encrypt_blocks_length (key : QByteArray) (bs : list QByteArray) :
  forall iv, length (concat (cbc_encrypt_blocks key iv bs)) = (16 * length bs)%nat.
Proof.
  induction bs as [|b bs IH]; intros iv; [reflexivity|].
  cbn [cbc_encrypt_blocks concat length]. cbv zeta.
  rewrite length_app, aes256_encrypt_block_length, IH. lia.
Qed.

Lemma whole_blocks_iff (a : QByteArray) :
  whole_blocks a = true <-> exists n, length a = (16 * n)%nat.
Proof.
  unfold whole_blocks. rewrite Nat.eqb_eq. split.
  - intros H. exists (length a / 16)%nat.
    pose proof (Nat.div_mod_eq (length a) 16). lia.
  - intros [n ->]. rewrite Nat.mul_comm. apply Nat.Div0.mod_mul.
Qed.

Lemma EVP_encrypt_whole (key iv data : QByteArray) (n : nat) :
  length data = (16 * n)%nat ->
  EVP_aes_256_cbc_encrypt key iv data = Some (aes256_cbc_encrypt key iv data) /\
  length (aes256_cbc_encrypt key iv data) = (16 * n)%nat.
Proof.
  intros H. unfold EVP_aes_256_cbc_encrypt, aes256_cbc_encrypt.
  assert (W : whole_blocks data = true) by (apply whole_blocks_iff; eauto).
  rewrite W, cbc_encrypt_blocks_length, (blocks16_length n data H). now split.
Qed.

Lemma EVP_encrypt_partial (key iv data : QByteArray) :
  (length data mod 16 <> 0)%nat -> EVP_aes_256_cbc_encrypt key iv data = None.
Proof.
  intros H. unfold EVP_aes_256_cbc_encrypt, whole_blocks.
  now apply Nat.eqb_neq in H as ->.
Qed.

(** ** Padding inside the MAC *)

Lemma mac_padding_is_pad (data : QByteArray) :
  mac_padding data = Utils.pad data 16.
Proof.
  unfold mac_padding, Utils.pad, QBA.fill.
  pose proof (Nat.mod_upper_bound (length data) 16 ltac:(lia)) as Hr.
  pose proof (Nat.div_mod_eq (length data) 16) as Hd.
  set (r := (length data mod 16)%nat) in *.
  assert (Hm : ((length data + 1) mod 16 = (r + 1) mod 16)%nat).
  { replace (length data + 1)%nat with ((r + 1) + (length data / 16) * 16)%nat by lia.
    apply Nat.Div0.mod_add. }
  rewrite Hm.
  destruct (Nat.eq_dec r 15) as [E|E].
  - rewrite E. simpl. reflexivity.
  - rewrite (Nat.mod_small (r + 1) 16) by lia.
    rewrite (Nat.mod_small (16 - (r + 1)) 16) by lia.
    replace (1 <? 16 - r)%nat with true by (symmetry; apply Nat.ltb_lt; lia).
    rewrite <- app_assoc. do 3 f_equal. lia.
Qed.

Lemma mac_padding_length (data : QByteArray) :
  length (mac_padding data) = (16 * (length data / 16 + 1))%nat.
Proof.
  unfold mac_padding, QBA.fill.
  pose proof (Nat.mod_upper_bound (length data) 16 ltac:(lia)) as Hr.
  pose proof (Nat.div_mod_eq (length data) 16) as Hd.
  destruct (1 <? 16 - length data mod 16)%nat eqn:E.
  - apply Nat.ltb_lt in E. rewrite !length_app, repeat_length.
    cbn [length]. lia.
  - apply Nat.ltb_ge in E. rewrite length_app. cbn [length]. lia.
Qed.

Lemma pad16_length (x : QByteArray) :
  length (Utils.pad x 16) = (16 * (length x / 16 + 1))%nat.
Proof. rewrite <- mac_padding_is_pad. apply mac_padding_length. Qed.

Lemma unpad_rev_zeros (n : nat) (r : QByteArray) :
  Utils.unpad_rev (repeat 0 n ++ r) = Utils.unpad_rev r.
Proof. induction n as [|n IH]; [reflexivity|exact IH]. Qed.

(** padding round trip (section 8, property 1), for any block size *)
Lemma unpad_pad (x : QByteArray) (block : nat) :
  Utils.unpad (Utils.pad x block) = x.
Proof.
  unfold Utils.unpad, Utils.pad.
  rewrite !rev_app_distr, rev_repeat, <- app_assoc, unpad_rev_zeros.
  cbn [rev app Utils.unpad_rev Z.eqb Pos.eqb]. apply rev_involutive.
Qed.

Lemma byte_range_tail (a : QByteArray) (k : nat) :
  (k <= length a)%nat ->
  byte_range (Z.of_nat (length a) - Z.of_nat k) (Z.of_nat (length a)) a
  = QBA.right k a.
Proof.
  intros H. unfold byte_range, QBA.right.
  replace (Z.to_nat (Z.of_nat (length a) - Z.of_nat k)) with (length a - k)%nat by lia.
  apply firstn_all2. rewrite length_skipn. lia.
Qed.

Lemma byte_range_mid (a : QByteArray) :
  (32 <= length a)%nat ->
  byte_range (Z.of_nat (length a) - 32) (Z.of_nat (length a) - 16) a
  = QBA.mid2 (length a - 32) 16 a.
Proof.
  intros H. unfold byte_range, QBA.mid2. f_equal; [lia|f_equal; lia].
Qed.

(** ** C1: the retail MAC *)

Lemma calculateMAC_short_data (macKey meta data : QByteArray) :
  (length data < 16)%nat -> calculateMAC macKey meta data = zero_mac.
Proof.
  intros Hlt. unfold calculateMAC.
  destruct (EVP_aes_256_cbc_encrypt macKey (QBA.fill 16 0) meta) as [em|];
    [|reflexivity].
  assert (Hp : length (mac_padding data) = (16 * 1)%nat).
  { rewrite mac_padding_length, Nat.div_small by exact Hlt. reflexivity. }
  destruct (EVP_encrypt_whole macKey (QBA.right 16 em) _ 1 Hp) as [-> Hl].
  rewrite Hl. reflexivity.
Qed.

Lemma calculateMAC_long_data (macKey meta data : QByteArray) :
  length meta = 16%nat -> (16 <= length data)%nat ->
  calculateMAC macKey meta data = retail_mac_spec macKey meta data /\
  length (calculateMAC macKey meta data) = 16%nat.
Proof.
  intros Hmeta Hge.
  assert (Hq : (1 <= length data / 16)%nat)
    by (apply Nat.div_le_lower_bound; lia).
  unfold calculateMAC, retail_mac_spec.
  destruct (EVP_encrypt_whole macKey (QBA.fill 16 0) meta 1 Hmeta) as [-> Hlm].
  rewrite <- mac_padding_is_pad.
  set (c_meta := aes256_cbc_encrypt macKey (QBA.fill 16 0) meta) in *.
  replace (Z.of_nat (length c_meta) - 16)
    with (Z.of_nat (length c_meta) - Z.of_nat 16) by lia.
  rewrite byte_range_tail by lia.
  destruct (EVP_encrypt_whole macKey (QBA.right 16 c_meta) (mac_padding data)
              _ (mac_padding_length data)) as [-> Hld].
  set (c_data := aes256_cbc_encrypt macKey (QBA.right 16 c_meta) (mac_padding data)) in *.
  assert (H32 : (32 <= length c_data)%nat) by lia.
  replace (length c_data <? 32)%nat with false
    by (symmetry; apply Nat.ltb_ge; exact H32).
  split.
  - symmetry. now apply byte_range_mid.
  - unfold QBA.mid2. rewrite length_firstn, length_skipn. lia.
Qed.

(** *** The MAC as a CBC-MAC

    For data of whole blocks the value returned is the last block of the CBC
    encryption, under a zero IV, of [meta] followed by the data: the padding
    block that [calculateMAC] appends is encrypted and then left out. *)

Lemma chunks16_fuel (f1 : nat) :
  forall (f2 : nat) (a : QByteArray),
    (length a <= f1)%nat -> (length a <= f2)%nat ->
    chunks16 f1 a = chunks16 f2 a.
Proof.
  induction f1 as [|f1 IH]; intros f2 a H1 H2.
  - destruct a; [|cbn in H1; lia]. now rewrite !chunks16_nil.
  - destruct a as [|x a']; [now rewrite !chunks16_nil|].
    destruct f2 as [|f2]; [cbn in H2; lia|].
    remember (x :: a') as a eqn:Ea.
    assert (E : forall f, chunks16 (S f) a = firstn 16 a :: chunks16 f (skipn 16 a))
      by (intros f; subst a; reflexivity).
    rewrite !E. f_equal.
    assert (Hl : (length (skipn 16 a) < length a)%nat)
      by (rewrite length_skipn; subst a; cbn [length]; lia).
    apply IH; lia.
Qed.

Lemma blocks16_cons (b rest : QByteArray) :
  length b = 16%nat -> blocks16 (b ++ rest) = b :: blocks16 rest.
Proof.
  intros Hb. unfold blocks16.
  destruct b as [|x b']; [discriminate|].
  remember (x :: b') as b eqn:Eb.
  assert (E : chunks16 (length (b ++ rest)) (b ++ rest)
              = firstn 16 (b ++ rest)
                :: chunks16 (length (b ++ rest) - 1) (skipn 16 (b ++ rest))).
  { rewrite length_app, Hb. subst b. reflexivity. }
  rewrite E.
  rewrite firstn_app, Hb, Nat.sub_diag, firstn_all2 by lia.
  rewrite skipn_app, Hb, Nat.sub_diag, skipn_all2 by lia.
  cbn [firstn skipn app]. rewrite app_nil_r. f_equal.
  apply chunks16_fuel; rewrite ?length_app; lia.
Qed.

Lemma blocks16_app (n : nat) :
  forall a b : QByteArray,
    length a = (16 * n)%nat -> blocks16 (a ++ b) = blocks16 a ++ blocks16 b.
Proof.
  induction n as [|n IH]; intros a b Ha.
  - destruct a; [reflexivity|cbn in Ha; lia].
  - rewrite <- (firstn_skipn 16 a) at 1. rewrite <- app_assoc.
    assert (Hf : length (firstn 16 a) = 16%nat) by (rewrite length_firstn; lia).
    assert (Hs : length (skipn 16 a) = (16 * n)%nat) by (rewrite length_skipn; lia).
    rewrite (blocks16_cons _ _ Hf), (IH _ b Hs).
    rewrite <- (firstn_skipn 16 a) at 3.
    now rewrite (blocks16_cons _ _ Hf).
Qed.

Lemma last_cons_default {A} (cs : list A) :
  forall c d : A, last (c :: cs) d = last cs c.
Proof.
  induction cs as [|x cs IH]; intros c d; [reflexivity|].
  change (last (c :: x :: cs) d) with (last (x :: cs) d).
  now rewrite !IH.
Qed.

Lemma cbc_encrypt_blocks_app (key : QByteArray) (bs : list QByteArray) :
  forall (iv : QByteArray) (b : QByteArray),
    cbc_encrypt_blocks key iv (bs ++ [b])
    = cbc_encrypt_blocks key iv bs
      ++ [AES256.encrypt_block key
            (QBA.xor b (last (cbc_encrypt_blocks key iv bs) iv))].
Proof.
  induction bs as [|b0 bs IH]; intros iv b; [reflexivity|].
  cbn [app cbc_encrypt_blocks]. cbv zeta. rewrite IH, last_cons_default.
  reflexivity.
Qed.

Lemma cbc_encrypt_blocks_sizes (key : QByteArray) (bs : list QByteArray) :
  forall iv, Forall (fun c => length c = 16%nat) (cbc_encrypt_blocks key iv bs)
             /\ length (cbc_encrypt_blocks key iv bs) = length bs.
Proof.
  induction bs as [|b bs IH]; intros iv; cbn [cbc_encrypt_blocks length];
    [now split|].
  cbv zeta. destruct (IH (AES256.encrypt_block key (QBA.xor b iv))) as [Hf Hl].
  split; [constructor; [apply aes256_encrypt_block_length|exact Hf]|now rewrite Hl].
Qed.

(** the second-to-last block of blocks laid end to end *)
Lemma second_to_last_block (cs : list QByteArray) (x : QByteArray) :
  cs <> [] -> Forall (fun c => length c = 16%nat) cs -> length x = 16%nat ->
  QBA.mid2 (length (concat (cs ++ [x])) - 32) 16 (concat (cs ++ [x]))
  = last cs [].
Proof.
  intros Hne Hf Hx.
  destruct (exists_last Hne) as (cs' & c & ->).
  apply Forall_app in Hf as [Hf' Hc]. inversion Hc as [|? ? Hc16 _]; subst.
  rewrite last_last, <- app_assoc, !concat_app. cbn [concat app].
  rewrite !app_nil_r, !length_app, Hc16, Hx.
  replace (length (concat cs') + (16 + 16) - 32)%nat with (length (concat cs')) by lia.
  unfold QBA.mid2.
  rewrite skipn_app, Nat.sub_diag, skipn_all2 by lia. cbn [skipn app].
  rewrite firstn_app, Hc16, Nat.sub_diag, firstn_all2 by lia.
  cbn [firstn]. apply app_nil_r.
Qed.

(** X5: over data of whole blocks, the MAC is the last block of AES-256-CBC
    under the MAC key with a zero IV, run over the meta block followed by the
    data; the padding block that [calculateMAC] appends does not enter it. *)
Lemma calculateMAC_is_cbc_mac (macKey meta data : QByteArray) (n : nat) :
  length meta = 16%nat -> length data = (16 * S n)%nat ->
  calculateMAC macKey meta data
  = last (cbc_encrypt_blocks macKey (QBA.fill 16 0x00) (blocks16 (meta ++ data))) [].
Proof.
  intros Hmeta Hdata.
  set (c0 := AES256.encrypt_block macKey (QBA.xor meta (QBA.fill 16 0))).
  assert (Hc0 : length c0 = 16%nat) by apply aes256_encrypt_block_length.
  rewrite (blocks16_cons meta data Hmeta).
  cbn [cbc_encrypt_blocks]. cbv zeta. fold c0.
  assert (Hbd : length (blocks16 data) = S n) by (now apply blocks16_length).
  destruct (cbc_encrypt_blocks_sizes macKey (blocks16 data) c0) as [Hsz Hlen].
  set (cs := cbc_encrypt_blocks macKey c0 (blocks16 data)) in *.
  assert (Hne : cs <> []) by (intros E; rewrite E, Hbd in Hlen; discriminate).
  replace (last (c0 :: cs) []) with (last cs [])
    by (destruct cs; [contradiction|reflexivity]).
  unfold calculateMAC.
  (* the meta block *)
  assert (Em : EVP_aes_256_cbc_encrypt macKey (QBA.fill 16 0) meta = Some c0).
  { unfold EVP_aes_256_cbc_encrypt, whole_blocks. rewrite Hmeta. cbn [Nat.modulo].
    replace (16 mod 16 =? 0)%nat with true by reflexivity.
    rewrite <- (app_nil_r meta) at 1. rewrite (blocks16_cons meta [] Hmeta).
    cbn [blocks16 length chunks16 cbc_encrypt_blocks concat]. cbv zeta.
    fold c0. now rewrite app_nil_r. }
  rewrite Em.
  replace (QBA.right 16 c0) with c0
    by (unfold QBA.right; rewrite Hc0, Nat.sub_diag; reflexivity).
  (* the data and the padding block *)
  assert (Ep : mac_padding data = data ++ (0x80 :: QBA.fill 15 0x00)).
  { unfold mac_padding. rewrite Hdata.
    replace ((16 * S n) mod 16)%nat with 0%nat
      by (symmetry; rewrite Nat.mul_comm; apply Nat.Div0.mod_mul).
    cbn [Nat.sub Nat.ltb Nat.leb]. now rewrite <- app_assoc. }
  rewrite Ep.
  assert (Ed : EVP_aes_256_cbc_encrypt macKey c0 (data ++ 0x80 :: QBA.fill 15 0)
               = Some (concat (cs ++ [AES256.encrypt_block macKey
                                        (QBA.xor (0x80 :: QBA.fill 15 0)
                                                 (last cs c0))]))).
  { unfold EVP_aes_256_cbc_encrypt.
    assert (W : whole_blocks (data ++ 0x80 :: QBA.fill 15 0) = true).
    { apply whole_blocks_iff. exists (S (S n)).
      rewrite length_app, Hdata. cbn [length QBA.fill repeat]. lia. }
    rewrite W, (blocks16_app (S n) data _ Hdata).
    replace (blocks16 (0x80 :: QBA.fill 15 0)) with [0x80 :: QBA.fill 15 0]
      by reflexivity.
    now rewrite cbc_encrypt_blocks_app. }
  rewrite Ed.
  set (x := AES256.encrypt_block macKey _).
  assert (Hx : length x = 16%nat) by apply aes256_encrypt_block_length.
  assert (Hl : length (concat (cs ++ [x])) = (16 * S (S n))%nat).
  { rewrite concat_app, length_app. cbn [concat]. rewrite app_nil_r, Hx.
    assert (Hcc : length (concat cs) = (16 * length cs)%nat).
    { clear - Hsz. induction Hsz as [|c l Hc _ IH]; [reflexivity|].
      cbn [concat length]. rewrite length_app, Hc, IH. lia. }
    rewrite Hcc, Hlen, Hbd. lia. }
  replace (length (concat (cs ++ [x])) <? 32)%nat with false
    by (symmetry; apply Nat.ltb_ge; lia).
  now apply second_to_last_block.
Qed.

(** C1 (as amended).  For a 16-byte [meta], [calculateMAC] returns the
    second-to-last 16-byte block of the CBC ciphertext of the padded data, as
    the specification's formula has it, whenever the data is at least 16 bytes
    long; for shorter data (the empty string included) the padded data is a
    single block, no second-to-last block exists, and the function returns 16
    zero bytes.  In both cases the result is 16 bytes long. *)
Theorem calculateMAC_second_to_last_block (macKey meta data : QByteArray) :
  length meta = 16%nat ->
  calculateMAC macKey meta data =
    (if (length data <? 16)%nat
     then QBA.fill 16 0x00
     else retail_mac_spec macKey meta data)
  /\ length (calculateMAC macKey meta data) = 16%nat.
Proof.
  intros Hmeta.
  destruct (length data <? 16)%nat eqn:E.
  - apply Nat.ltb_lt in E.
    rewrite (calculateMAC_short_data macKey meta data E). now split.
  - apply Nat.ltb_ge in E.
    exact (calculateMAC_long_data macKey meta data Hmeta E).
Qed.

Lemma calculateMAC_second_to_last_block_witness :
  calculateMAC S4_key S4_meta S4_block = retail_mac_spec S4_key S4_meta S4_block
  /\ length (calculateMAC S4_key S4_meta S4_block) = 16%nat.
Proof.
  exact (calculateMAC_second_to_last_block S4_key S4_meta S4_block eq_refl).
Defined.

(** The regression vector: AES-256-CBC under [32 x 0xDD], checked against
    OpenSSL ([51 22 20 bc 47 81 0d 17 e3 e2 4b 73 0b b2 ef 76]). *)
Example calculateMAC_regression_vector :
  calculateMAC S4_key S4_meta S4_block =
  [0x51;0x22;0x20;0xbc;0x47;0x81;0x0d;0x17;0xe3;0xe2;0x4b;0x73;0x0b;0xb2;0xef;0x76].
Proof. vm_compute. reflexivity. Qed.

(** C1 as stated fails at scenario S4 (key [32 x 0xDD], zero meta, empty
    data): the code returns 16 zero bytes; the byte range [len-32 .. len-16)
    of the one-block ciphertext is empty, and the zero block is not a block of
    that ciphertext either. *)
Lemma calculateMAC_S4_counterexample :
  calculateMAC S4_key S4_meta S4_data = QBA.fill 16 0x00
  /\ retail_mac_spec S4_key S4_meta S4_data = []
  /\ calculateMAC S4_key S4_meta S4_data <> retail_mac_spec S4_key S4_meta S4_data
  /\ aes256_cbc_encrypt S4_key (aes256_cbc_encrypt S4_key (QBA.fill 16 0) S4_meta)
                        (Utils.pad S4_data 16)
     = [0xa0;0x62;0x21;0x49;0x1c;0xaa;0x07;0xea;0xf0;0x22;0xd2;0xb9;0x40;0xeb;0xa7;0xd7].
Proof.
  assert (Hc : calculateMAC S4_key S4_meta S4_data = QBA.fill 16 0x00)
    by (apply calculateMAC_short_data; simpl; lia).
  assert (Hs : retail_mac_spec S4_key S4_meta S4_data = [])
    by (vm_compute; reflexivity).
  split; [exact Hc|]. split; [exact Hs|]. split.
  - rewrite Hc, Hs. discriminate.
  - vm_compute. reflexivity.
Qed.

#[local] Arguments parseDerivationPath : simpl never.

(** ** C8: the path parser *)

Lemma list_ascii_app (s t : string) :
  list_ascii_of_string (s ++ t) = list_ascii_of_string s ++ list_ascii_of_string t.
Proof. induction s as [|c s IH]; cbn; [reflexivity|now rewrite IH]. Qed.

Lemma string_of_list_app (l m : list ascii) :
  string_of_list_ascii (l ++ m)
  = (string_of_list_ascii l ++ string_of_list_ascii m)%string.
Proof. induction l as [|c l IH]; cbn; [reflexivity|now rewrite IH]. Qed.

Lemma isSpace_cases (ucs4 : Z) :
  isSpace ucs4 = true ->
  In ucs4 [0x09; 0x0A; 0x0B; 0x0C; 0x0D; 0x20; 0x85; 0xA0; 0x1680;
           0x2000; 0x2001; 0x2002; 0x2003; 0x2004; 0x2005; 0x2006; 0x2007;
           0x2008; 0x2009; 0x200A; 0x2028; 0x2029; 0x202F; 0x205F; 0x3000].
Proof.
  unfold isSpace. rewrite !orb_true_iff, !andb_true_iff, !Z.eqb_eq, !Z.leb_le.
  intros H. cbn [In].
  assert (ucs4 = 9 \/ ucs4 = 10 \/ ucs4 = 11 \/ ucs4 = 12 \/ ucs4 = 13 \/ ucs4 = 32
          \/ ucs4 = 133 \/ ucs4 = 160 \/ ucs4 = 5760
          \/ ucs4 = 8192 \/ ucs4 = 8193 \/ ucs4 = 8194 \/ ucs4 = 8195 \/ ucs4 = 8196
          \/ ucs4 = 8197 \/ ucs4 = 8198 \/ ucs4 = 8199 \/ ucs4 = 8200 \/ ucs4 = 8201
          \/ ucs4 = 8202 \/ ucs4 = 8232 \/ ucs4 = 8233 \/ ucs4 = 8239 \/ ucs4 = 8287
          \/ ucs4 = 12288) as E by lia.
  repeat (destruct E as [E|E]; [subst; tauto|]). subst. tauto.
Qed.

Lemma strip_space (ucs4 : Z) (rest : list ascii) :
  isSpace ucs4 = true ->
  QStr.strip_any QStr.space_characters (utf8 ucs4 ++ rest) = Some rest.
Proof.
  intros H. apply isSpace_cases in H. cbn [In] in H.
  repeat (destruct H as [<-|H]; [reflexivity|]). destruct H.
Qed.

Lemma strip_space_rev (ucs4 : Z) (rest : list ascii) :
  isSpace ucs4 = true ->
  QStr.strip_any (map (@rev ascii) QStr.space_characters) (rev (utf8 ucs4) ++ rest)
  = Some rest.
Proof.
  intros H. apply isSpace_cases in H. cbn [In] in H.
  repeat (destruct H as [<-|H]; [reflexivity|]). destruct H.
Qed.

Lemma strip_graphic (c : ascii) (l : list ascii) :
  graphic c = true ->
  QStr.strip_any QStr.space_characters (c :: l) = None
  /\ QStr.strip_any (map (@rev ascii) QStr.space_characters) (c :: l) = None.
Proof.
  destruct c as [[] [] [] [] [] [] [] []]; intros H; try discriminate H;
    split; reflexivity.
Qed.

Lemma utf8_length (ucs4 : Z) : (1 <= length (utf8 ucs4))%nat.
Proof.
  unfold utf8. rewrite length_map.
  destruct (ucs4 <? 128); [cbn; lia|].
  destruct (ucs4 <? 2048); [cbn; lia|].
  destruct (ucs4 <? 65536); cbn; lia.
Qed.

Lemma drop_spaces_run (spaces : list (list ascii)) (enc : Z -> list ascii) :
  (forall ucs4 rest, isSpace ucs4 = true ->
                     QStr.strip_any spaces (enc ucs4 ++ rest) = Some rest) ->
  forall (run : list Z) (rest : list ascii) (fuel : nat),
    forallb isSpace run = true -> (length run <= fuel)%nat ->
    QStr.strip_any spaces rest = None ->
    QStr.drop_spaces spaces fuel (flat_map enc run ++ rest) = rest.
Proof.
  intros Henc. induction run as [|ucs4 run IH]; intros rest fuel Hrun Hfuel Hrest.
  - destruct fuel; cbn [flat_map app QStr.drop_spaces]; [reflexivity|].
    now rewrite Hrest.
  - destruct fuel as [|fuel]; [cbn in Hfuel; lia|].
    cbn [forallb] in Hrun. apply andb_true_iff in Hrun as [Hc Hrun].
    cbn [flat_map QStr.drop_spaces]. rewrite <- app_assoc, (Henc _ _ Hc).
    apply IH; [exact Hrun|cbn in Hfuel; lia|exact Hrest].
Qed.

Lemma flat_map_utf8_length (run : list Z) :
  (length run <= length (flat_map utf8 run))%nat.
Proof.
  induction run as [|c run IH]; cbn [flat_map length]; [lia|].
  rewrite length_app. pose proof (utf8_length c). lia.
Qed.

Lemma rev_flat_map_utf8 (run : list Z) :
  rev (flat_map utf8 run) = flat_map (fun c => rev (utf8 c)) (rev run).
Proof.
  induction run as [|c run IH]; [reflexivity|].
  cbn [flat_map rev]. rewrite rev_app_distr, IH, flat_map_app. cbn [flat_map].
  now rewrite app_nil_r.
Qed.

Lemma forallb_rev {A} (f : A -> bool) (l : list A) :
  forallb f (rev l) = forallb f l.
Proof.
  induction l as [|a l IH]; [reflexivity|].
  cbn [rev forallb]. rewrite forallb_app, IH. cbn [forallb].
  rewrite andb_true_r. apply andb_comm.
Qed.

Lemma strip_any_nil (spaces : list (list ascii)) :
  ~ In [] spaces -> QStr.strip_any spaces [] = None.
Proof.
  induction spaces as [|p spaces IH]; intros Hn; [reflexivity|].
  cbn [QStr.strip_any]. destruct p as [|a p]; [exfalso; apply Hn; now left|].
  cbn [QStr.strip_prefix]. apply IH. intros H. apply Hn. now right.
Qed.

Lemma last_graphic_rev (c : ascii) (m : list ascii) :
  exists y, rev (c :: m) = last m c :: y.
Proof.
  revert c. induction m as [|a m IH]; intros c; [now exists []|].
  destruct (IH a) as [y Hy]. exists (y ++ [c]).
  change (rev (c :: a :: m)) with (rev (a :: m) ++ [c]). rewrite Hy.
  now rewrite (last_cons_default m a c).
Qed.

Lemma trimmed_bytes (lead trail : list Z) (cl : list ascii) :
  forallb isSpace lead = true -> forallb isSpace trail = true ->
  match cl with [] => true | c :: l => graphic c && graphic (last l c) end = true ->
  let l := flat_map utf8 lead ++ cl ++ flat_map utf8 trail in
  let r := rev (QStr.drop_spaces QStr.space_characters (length l) l) in
  rev (QStr.drop_spaces (map (@rev ascii) QStr.space_characters) (length r) r) = cl.
Proof.
  intros Hlead Htrail Hcore. cbv zeta.
  destruct cl as [|c m].
  - cbn [app]. rewrite <- flat_map_app.
    assert (E : QStr.drop_spaces QStr.space_characters
                  (length (flat_map utf8 (lead ++ trail)))
                  (flat_map utf8 (lead ++ trail)) = []).
    { assert (H1 : forallb isSpace (lead ++ trail) = true)
        by now rewrite forallb_app, Hlead, Htrail.
      pose proof (drop_spaces_run _ utf8 strip_space (lead ++ trail) []
                    (length (flat_map utf8 (lead ++ trail))) H1
                    (flat_map_utf8_length _) eq_refl) as E.
      now rewrite app_nil_r in E. }
    rewrite E. reflexivity.
  - apply andb_true_iff in Hcore as [Hc Hl].
    rewrite (drop_spaces_run _ utf8 strip_space lead).
    + rewrite rev_app_distr, rev_flat_map_utf8.
      destruct (last_graphic_rev c m) as [y Hy].
      rewrite (drop_spaces_run _ (fun c => rev (utf8 c)) strip_space_rev).
      * now rewrite rev_involutive.
      * now rewrite forallb_rev.
      * rewrite length_app, <- rev_flat_map_utf8, !length_rev.
        pose proof (flat_map_utf8_length trail). lia.
      * rewrite Hy. exact (proj2 (strip_graphic _ _ Hl)).
    + exact Hlead.
    + rewrite length_app. pose proof (flat_map_utf8_length lead). lia.
    + cbn [app]. exact (proj1 (strip_graphic c _ Hc)).
Qed.

(** [trimmed] takes the white space off both ends *)
Lemma trimmed_text (lead trail : list Z) (core : string) :
  forallb isSpace lead = true -> forallb isSpace trail = true ->
  no_space_at_ends core = true ->
  QStr.trimmed (text lead ++ core ++ text trail) = core.
Proof.
  intros Hlead Htrail Hcore. unfold QStr.trimmed, text.
  rewrite !list_ascii_app, !list_ascii_of_string_of_list_ascii.
  rewrite (trimmed_bytes lead trail _ Hlead Htrail Hcore).
  apply string_of_list_ascii_of_string.
Qed.

(** *** Splitting what was joined *)

Lemma split_chars_plain (sep : ascii) (l : list ascii) :
  existsb (Ascii.eqb sep) l = false ->
  forall cur rest,
    QStr.split_chars sep l cur = [rev cur ++ l] /\
    QStr.split_chars sep (l ++ sep :: rest) cur
    = (rev cur ++ l) :: QStr.split_chars sep rest [].
Proof.
  induction l as [|c l IH]; intros Hl cur rest.
  - cbn [app QStr.split_chars]. rewrite Ascii.eqb_refl, app_nil_r. now split.
  - cbn [existsb] in Hl. apply orb_false_iff in Hl as [Hc Hl].
    cbn [app QStr.split_chars]. rewrite (Ascii.eqb_sym c sep), Hc.
    destruct (IH Hl (c :: cur) rest) as [H1 H2]. rewrite H1, H2.
    cbn [rev]. rewrite <- !app_assoc. now split.
Qed.

Lemma has_slash_join (c : string) (rest : list string) :
  list_ascii_of_string (join (c :: rest))
  = match rest with
    | [] => list_ascii_of_string c
    | _ => list_ascii_of_string c ++ "/"%char :: list_ascii_of_string (join rest)
    end.
Proof.
  destruct rest as [|c' rest]; [reflexivity|].
  change (join (c :: c' :: rest)) with (c ++ "/" ++ join (c' :: rest))%string.
  now rewrite !list_ascii_app.
Qed.

Lemma split_join (components : list string) :
  components <> [] ->
  forallb (fun c => negb (has_slash c)) components = true ->
  QStr.split "/" (join components) = components.
Proof.
  intros Hne Hc. unfold QStr.split.
  induction components as [|c rest IH]; [congruence|]. clear Hne.
  cbn [forallb] in Hc. apply andb_true_iff in Hc as [Hc Hrest].
  apply negb_true_iff in Hc. unfold has_slash in Hc.
  rewrite has_slash_join.
  destruct (split_chars_plain "/" (list_ascii_of_string c) Hc []
              (list_ascii_of_string (join rest))) as [H1 H2].
  destruct rest as [|c' rest].
  - rewrite H1. cbn [rev app map]. now rewrite string_of_list_ascii_of_string.
  - rewrite H2. cbn [rev app map]. rewrite string_of_list_ascii_of_string.
    f_equal. apply IH; [discriminate|exact Hrest].
Qed.

(** *** A component *)

Lemma substring_all (s : string) : substring 0 (String.length s) s = s.
Proof. induction s as [|c s IH]; cbn; [reflexivity|now rewrite IH]. Qed.

Lemma substring_skip (a b : string) (n : nat) :
  substring (String.length a) n (a ++ b) = substring 0 n b.
Proof. induction a as [|c a IH]; [reflexivity|]. cbn. exact IH. Qed.

Lemma substring_head (a b : string) :
  substring 0 (String.length a) (a ++ b) = a.
Proof. induction a as [|c a IH]; cbn; [now destruct b|now rewrite IH]. Qed.

Lemma length_append (a b : string) :
  String.length (a ++ b) = (String.length a + String.length b)%nat.
Proof. induction a as [|c a IH]; cbn; [reflexivity|now rewrite IH]. Qed.

Lemma endsWith_last (x c : ascii) (body : string) :
  QStr.endsWith (String x "") (body ++ String c "") = Ascii.eqb c x.
Proof.
  unfold QStr.endsWith. rewrite length_append. cbn [String.length].
  replace (1 <=? String.length body + 1)%nat with true
    by (symmetry; apply Nat.leb_le; lia).
  replace (String.length body + 1 - 1)%nat with (String.length body) by lia.
  rewrite substring_skip. cbn. destruct (Ascii.eqb c x); reflexivity.
Qed.

Lemma endsWith_empty (x : ascii) : QStr.endsWith (String x "") "" = false.
Proof. reflexivity. Qed.

Lemma left_body (c : ascii) (body : string) :
  QStr.left (String.length (body ++ String c "") - 1) (body ++ String c "") = body.
Proof.
  unfold QStr.left. rewrite length_append. cbn [String.length].
  replace (String.length body + 1 - 1)%nat with (String.length body) by lia.
  apply substring_head.
Qed.

Lemma string_last (s : string) (c : ascii) (body : list ascii) :
  rev (list_ascii_of_string s) = c :: body ->
  s = (string_of_list_ascii (rev body) ++ String c "")%string.
Proof.
  intros H. apply (f_equal (@rev ascii)) in H. rewrite rev_involutive in H.
  cbn [rev] in H. rewrite <- (string_of_list_ascii_of_string s), H.
  now rewrite string_of_list_app.
Qed.

Section PathComponents.
Context {K : Constants} {P : Platform}.

Lemma segment_value_bytes (component : string) :
  match segment_value component with
  | Some value => BE32 value
  | None => []
  end = component_bytes component.
Proof.
  unfold segment_value, component_bytes.
  destruct (rev (list_ascii_of_string component)) as [|c body] eqn:E.
  - assert (component = ""%string) as ->.
    { destruct component; [reflexivity|].
      apply (f_equal (@length ascii)) in E. rewrite length_rev in E.
      discriminate E. }
    reflexivity.
  - pose proof (string_last _ _ _ E) as Ec.
    assert (H1 : QStr.endsWith "'" component = Ascii.eqb c "'")
      by (rewrite Ec; apply endsWith_last).
    assert (H2 : QStr.endsWith "h" component = Ascii.eqb c "h")
      by (rewrite Ec; apply endsWith_last).
    assert (H3 : QStr.left (String.length component - 1) component
                 = string_of_list_ascii (rev body))
      by (rewrite Ec; apply left_body).
    rewrite H1, H2, H3.
    destruct (Ascii.eqb c "'" || Ascii.eqb c "h"); [|reflexivity].
    destruct (toUInt _); reflexivity.
Qed.

Lemma fold_components (segments : list string) :
  forall result : QByteArray,
    fold_left (fun result segment =>
                 match segment_value segment with
                 | Some value => stream_u32 result value
                 | None => result
                 end) segments result
    = result ++ flat_map component_bytes segments.
Proof.
  induction segments as [|s segments IH]; intros result; cbn [fold_left flat_map].
  - now rewrite app_nil_r.
  - rewrite IH, <- segment_value_bytes.
    destruct (segment_value s) as [v|]; cbn [app].
    + unfold stream_u32. rewrite <- app_assoc. reflexivity.
    + reflexivity.
Qed.

End PathComponents.

Lemma mid_after (p rest : string) :
  QStr.mid (String.length p) (p ++ rest) = rest.
Proof.
  unfold QStr.mid. rewrite length_append, substring_skip.
  replace (String.length p + String.length rest - String.length p)%nat
    with (String.length rest) by lia.
  apply substring_all.
Qed.

Lemma startsWith_own (p rest : string) : QStr.startsWith p (p ++ rest) = true.
Proof.
  unfold QStr.startsWith. induction p as [|a p IH]; cbn.
  - now destruct rest.
  - destruct (ascii_dec a a); [exact IH|congruence].
Qed.

Lemma join_empty (components : list string) :
  join components = ""%string -> components = [] \/ components = [""%string].
Proof.
  destruct components as [|c [|c' rest]]; [now left| |].
  - cbn [join]. intros ->. now right.
  - change (join (c :: c' :: rest)) with (c ++ "/" ++ join (c' :: rest))%string.
    intros H. apply (f_equal String.length) in H.
    rewrite length_append in H. cbn in H. lia.
Qed.

Section PathParser.
Context {K : Constants} {P : Platform}.

Lemma parse_components (components : list string) (startingPoint : Z) :
  toUInt "" = None ->
  forallb (fun c => negb (has_slash c)) components = true ->
  (if QStr.isEmpty (join components) then ([], startingPoint)
   else (fold_left (fun result segment =>
                      match segment_value segment with
                      | Some value => stream_u32 result value
                      | None => result
                      end) (QStr.split "/" (join components)) [],
         startingPoint))
  = (flat_map component_bytes components, startingPoint).
Proof.
  intros Hempty Hc.
  destruct (QStr.isEmpty (join components)) eqn:E.
  - assert (Hj : join components = ""%string)
      by (destruct (join components); [reflexivity|discriminate E]).
    destruct (join_empty _ Hj) as [-> | ->]; [reflexivity|].
    cbn [flat_map]. unfold component_bytes. cbn [list_ascii_of_string rev].
    now rewrite Hempty.
  - rewrite split_join, fold_components; [reflexivity| |exact Hc].
    intros ->. discriminate E.
Qed.

(** C8 (as amended).  A path is white space ([QChar::isSpace]), one of the
    prefixes [m/], [../], [./] or none, components with [/] between them, and
    white space; the text between the white space is empty or starts and ends
    with a visible character of ASCII.  The white space is dropped; the
    prefix fixes the starting point ([m/]: from master, [../]: from parent,
    [./] or none: from current); the bytes are, in order, what each component
    contributes: nothing when [QString::toUInt] rejects it, else the number
    as four bytes, most significant first, with bit [0x80000000] set, the
    number being what precedes the suffix, when the component ends in [']
    or [h].  The parser has no error result. *)
Theorem parseDerivationPath_serialization (lead trail : list Z) (prefix : Prefix)
  (components : list string) :
  toUInt "" = None ->
  forallb isSpace lead = true -> forallb isSpace trail = true ->
  forallb (fun component => negb (has_slash component)) components = true ->
  (prefix = NoPrefix -> unprefixed (join components) = true) ->
  no_space_at_ends (prefix_text prefix ++ join components) = true ->
  parseDerivationPath
    (text lead ++ (prefix_text prefix ++ join components) ++ text trail)
  = (flat_map component_bytes components, prefix_start prefix).
Proof.
  intros Hempty Hlead Htrail Hc Hun Hends.
  unfold parseDerivationPath. rewrite (trimmed_text lead trail _ Hlead Htrail Hends).
  destruct prefix; cbn [prefix_text prefix_start].
  - rewrite (startsWith_own "m/").
    rewrite (mid_after "m/"). now apply parse_components.
  - change (QStr.startsWith "m/" ("../" ++ join components)) with false.
    rewrite (startsWith_own "../").
    rewrite (mid_after "../"). now apply parse_components.
  - change (QStr.startsWith "m/" ("./" ++ join components)) with false.
    change (QStr.startsWith "../" ("./" ++ join components)) with false.
    rewrite (startsWith_own "./").
    rewrite (mid_after "./"). now apply parse_components.
  - specialize (Hun eq_refl). unfold unprefixed in Hun.
    rewrite !andb_true_iff, !negb_true_iff in Hun. destruct Hun as [[H1 H2] H3].
    change ("" ++ join components)%string with (join components).
    unfold QStr.startsWith. rewrite H1, H2, H3. now apply parse_components.
Qed.

End PathParser.

(** ** The secure channel *)

#[local] Arguments calculateMAC : simpl never.
#[local] Arguments encrypt : simpl never.
#[local] Arguments decrypt : simpl never.
#[local] Arguments serialize : simpl never.
#[local] Arguments Response_of : simpl never.
#[local] Arguments String.append : simpl never.
#[local] Arguments QStr.hex4 : simpl never.
#[local] Arguments QStr.number : simpl never.
#[local] Arguments QStr.toUtf8 : simpl never.
#[local] Arguments derivePairingToken : simpl never.

Section Session.
Context {K : Constants} {P : Platform}.

Lemma send_closed (command : Command) (w : World P) :
  open (d w) = false ->
  send command w = (Thrown (runtime_error "Secure channel not open"), w).
Proof. intros H. unfold send, bind, gets. rewrite H. reflexivity. Qed.

Lemma send_no_channel (command : Command) (w : World P) :
  open (d w) = true -> channel w = None ->
  send command w = (Thrown (runtime_error "No base channel available"), w).
Proof. intros H Hc. unfold send, bind, gets. rewrite H. simpl. now rewrite Hc. Qed.

(** [send] on an open channel: the IV is replaced, then the APDU goes out,
    then the response is processed *)
Lemma send_open (command : Command) (w : World P) (c : Card) :
  open (d w) = true -> channel w = Some c ->
  send command w =
    (let w1 := sending command w in
     let apdu := request_apdu (d w) command in
     let w2 := with_event (Transmit apdu) (with_channel (Some (snd (card_transmit c apdu))) w1) in
     match fst (card_transmit c apdu) with
     | inl what => (Thrown (runtime_error what), w2)
     | inr rawResponse => send_receive (Response_of rawResponse) w2
     end).
Proof.
  intros H Hc. unfold send, bind, gets, modify, emit, transmit.
  rewrite H. simpl. rewrite Hc. simpl. rewrite Hc.
  unfold request_apdu, request_mac, sending.
  destruct (card_transmit c _) as [[what|raw] c']; reflexivity.
Qed.

(** what [send_receive] does to the world: nothing, or one IV assignment *)
Lemma send_receive_cases (response : Response) (w : World P) :
  let data := resp_data response in
  let rmac := calculateMAC (macKey (d w)) (response_meta data) (QBA.mid 16 data) in
  (isOK response && negb (QBA.isEmpty data) = false /\
   send_receive response w = (Returned response, w))
  \/ (isOK response && negb (QBA.isEmpty data) = true /\
      (length data < 16)%nat /\
      send_receive response w = (Thrown (runtime_error "Response too short"), w))
  \/ (isOK response && negb (QBA.isEmpty data) = true /\
      (16 <= length data)%nat /\ rmac <> QBA.left 16 data /\
      send_receive response w
      = (Thrown (runtime_error "Response MAC verification failed"), w))
  \/ (isOK response && negb (QBA.isEmpty data) = true /\
      (16 <= length data)%nat /\ rmac = QBA.left 16 data /\
      send_receive response w
      = (Returned (Response_of (decrypt (d w) (QBA.mid 16 data))),
         with_event (IvUpdated (iv (d w)) rmac) (with_d (set_iv rmac) w))).
Proof.
  intros data rmac. unfold send_receive. fold data.
  destruct (isOK response && negb (QBA.isEmpty data)) eqn:E; [|now left].
  right. destruct (length data <? 16)%nat eqn:L.
  - left. apply Nat.ltb_lt in L. now repeat split.
  - right. apply Nat.ltb_ge in L.
    unfold bind, gets, modify, emit, throw, ret. fold rmac.
    destruct (QBA.eqb rmac (QBA.left 16 data)) eqn:Q; simpl.
    + right. apply QBA_eqb_eq in Q. now repeat split.
    + left. apply QBA_eqb_neq in Q. now repeat split.
Qed.

Lemma calculateMAC_length (macKey meta data : QByteArray) :
  length (calculateMAC macKey meta data) = 16%nat.
Proof.
  unfold calculateMAC.
  destruct (EVP_aes_256_cbc_encrypt macKey (QBA.fill 16 0) meta) as [em|];
    [|reflexivity].
  destruct (EVP_aes_256_cbc_encrypt macKey (QBA.right 16 em) (mac_padding data))
    as [ed|]; [|reflexivity].
  destruct (length ed <? 32)%nat eqn:E; [reflexivity|].
  apply Nat.ltb_ge in E. unfold QBA.mid2.
  rewrite length_firstn, length_skipn. lia.
Qed.

(** the APDU of a request on the wire: header, [Lc], the MAC, the
    ciphertext, and [Le] if the caller set one *)
Lemma request_apdu_layout (p : Private P) (command : Command) :
  request_apdu p command =
    [cmd_cla command; cmd_ins command; cmd_p1 command; cmd_p2 command;
     QBA.to_char (Z.of_nat (16 + length (encrypt p (cmd_data command))))]
    ++ request_mac p command ++ encrypt p (cmd_data command)
    ++ match cmd_le command with Some le => [le] | None => [] end.
Proof.
  unfold request_apdu, secure_command.
  pose proof (calculateMAC_length (macKey p)
                (request_meta command (encrypt p (cmd_data command)))
                (encrypt p (cmd_data command))) as Hl.
  fold (request_mac p command) in Hl.
  destruct (request_mac p command) as [|b mac] eqn:Em; [discriminate|].
  assert (Hlen : length ((b :: mac) ++ encrypt p (cmd_data command))
                 = (16 + length (encrypt p (cmd_data command)))%nat)
    by (rewrite length_app, Hl; reflexivity).
  unfold serialize.
  destruct (cmd_le command); cbn [setLe setData Command4 cmd_cla cmd_ins cmd_p1
    cmd_p2 cmd_data cmd_le]; rewrite Hlen; cbn [QBA.isEmpty app];
    rewrite <- ?app_assoc; try rewrite app_nil_r; reflexivity.
Qed.

Lemma encrypt_length (p : Private P) (plaintext : QByteArray) :
  open p = true ->
  length (encrypt p plaintext) = (16 * (length plaintext / 16 + 1))%nat.
Proof.
  intros Ho. unfold encrypt. rewrite Ho. cbn [negb].
  destruct (EVP_encrypt_whole (encKey p) (iv p) (Utils.pad plaintext 16) _
              (pad16_length plaintext)) as [-> Hl].
  exact Hl.
Qed.

(** on an open channel the request MAC is never the degenerate one: the
    encrypted data is at least one block, the MAC the second-to-last block
    of section 4.3.1 *)
Lemma request_mac_is_retail_mac (p : Private P) (command : Command) :
  open p = true ->
  request_mac p command
  = retail_mac_spec (macKey p)
      (request_meta command (encrypt p (cmd_data command)))
      (encrypt p (cmd_data command)).
Proof.
  intros Ho. unfold request_mac.
  apply calculateMAC_long_data; [reflexivity|].
  rewrite (encrypt_length p _ Ho). lia.
Qed.

(** C2.  Whenever [send] returns, the IV was first overwritten with the MAC
    of the outgoing request (the MAC that leads the data field of the APDU),
    then the APDU was transmitted; if the response was a success with data,
    its MAC was verified and the IV then overwritten with the response MAC,
    which is the first 16 bytes of the response; otherwise the IV stays the
    request MAC.  The trace lists these events in that order. *)
Theorem send_iv_chain (command : Command) (w w' : World P) (r : Response) :
  send command w = (Returned r, w') ->
  exists (c : Card) (rawResponse : QByteArray),
    let mac := request_mac (d w) command in
    let apdu := request_apdu (d w) command in
    let data := resp_data (Response_of rawResponse) in
    channel w = Some c /\
    fst (card_transmit c apdu) = inr rawResponse /\
    firstn 16 (skipn 5 apdu) = mac /\
    if isOK (Response_of rawResponse) && negb (QBA.isEmpty data)
    then
      QBA.left 16 data
        = calculateMAC (macKey (d w)) (response_meta data) (QBA.mid 16 data) /\
      trace w' = trace w ++ [IvUpdated (iv (d w)) mac; Transmit apdu;
                             IvUpdated mac (QBA.left 16 data)] /\
      iv (d w') = QBA.left 16 data
    else
      trace w' = trace w ++ [IvUpdated (iv (d w)) mac; Transmit apdu] /\
      iv (d w') = mac.
Proof.
  intros H.
  destruct (open (d w)) eqn:Ho;
    [|rewrite (send_closed command w Ho) in H; discriminate].
  destruct (channel w) as [c|] eqn:Hc;
    [|rewrite (send_no_channel command w Ho Hc) in H; discriminate].
  rewrite (send_open command w c Ho Hc) in H. cbv zeta in H.
  destruct (fst (card_transmit c (request_apdu (d w) command)))
    as [what|raw] eqn:Ht; [discriminate|].
  exists c, raw. cbv zeta.
  split; [reflexivity|]. split; [exact Ht|]. split.
  { rewrite request_apdu_layout. cbn [skipn app].
    rewrite firstn_app.
    pose proof (calculateMAC_length (macKey (d w))
                  (request_meta command (encrypt (d w) (cmd_data command)))
                  (encrypt (d w) (cmd_data command))) as Hl.
    fold (request_mac (d w) command) in Hl.
    rewrite Hl, Nat.sub_diag, firstn_all2 by lia. cbn [firstn]. apply app_nil_r. }
  match type of H with send_receive ?resp ?w2 = _ =>
    destruct (send_receive_cases resp w2)
      as [(E & Hr) | [(E & _ & Hr) | [(E & _ & _ & Hr) | (E & _ & Hm & Hr)]]]
  end; rewrite Hr in H; try discriminate; rewrite E.
  - injection H as _ <-. simpl. rewrite <- app_assoc. split; reflexivity.
  - injection H as _ <-. simpl in Hm |- *. rewrite <- Hm.
    rewrite <- !app_assoc. repeat split; reflexivity.
Qed.

(** ** C10: operations on a channel that is not open *)

Lemma requires_open_closed {A} (failure : A) (body : M A) (w : World P) :
  isOpen (d w) = false ->
  requires_open failure body w
  = (Returned failure, with_lastError "Secure channel not open" w).
Proof. intros H. unfold requires_open, bind, gets. rewrite H. reflexivity. Qed.

Lemma requires_open_open {A} (failure : A) (body : M A) (w : World P) :
  isOpen (d w) = true -> requires_open failure body w = body w.
Proof. intros H. unfold requires_open, bind, gets. rewrite H. reflexivity. Qed.

(** C10 (as amended).  On a channel that is not open each of the twenty
    operations returns its failure value, sends nothing and changes nothing
    but [m_lastError]; the message is "Secure channel not open" unless the
    operation checks its input first (loadSeed, sign, signWithPath,
    signPinless, setPinlessPath) and the input fails that check, in which
    case it is the message of that check.  [SecureChannel::send] itself
    throws [std::runtime_error("Secure channel not open")] and touches
    nothing. *)
Theorem call_on_closed_channel (op : Operation) (w : World P) :
  isOpen (d w) = false ->
  call op w
  = (Returned (failure_value op),
     with_lastError (match rejected_input op with
                     | Some message => message
                     | None => "Secure channel not open"%string
                     end) w)
  /\ forall command : Command,
       send command w = (Thrown (runtime_error "Secure channel not open"), w).
Proof.
  intros H. split; [|intros command; now apply send_closed].
  destruct op; cbn [call failure_value rejected_input];
    unfold fmap, bind, verifyPIN, changePIN, changePUK, unblockPIN,
      changePairingSecret, generateKey, generateMnemonic, loadSeed, removeKey,
      deriveKey, sign, signWithPath, signPinless, setPinlessPath, storeData,
      getData, exportKey, exportKeyExtended, unpair, getStatus, validate;
    try match goal with
        | |- context [(length ?x =? ?n)%nat] => destruct (length x =? n)%nat
        | |- context [QStr.startsWith ?a ?b] => destruct (QStr.startsWith a b)
        end;
    cbn [negb]; rewrite ?(requires_open_closed _ _ w H); reflexivity.
Qed.

(** ** What [send] leaves alone *)

Lemma same_session_refl (p : Private P) : same_session p p.
Proof. reflexivity. Qed.

Lemma same_session_set_iv (v : QByteArray) (p p' : Private P) :
  same_session p p' -> same_session p (set_iv v p').
Proof. unfold same_session. intros ->. reflexivity. Qed.

Lemma same_session_open (p p' : Private P) :
  same_session p p' -> open p' = open p.
Proof.
  unfold same_session. intros H.
  change (open p') with (open (set_iv [] p')). now rewrite <- H.
Qed.

Lemma send_receive_frame (response : Response) (w w' : World P) (out : Outcome Response) :
  send_receive response w = (out, w') ->
  same_session (d w) (d w') /\ m_lastError w' = m_lastError w /\
  m_pairingInfo w' = m_pairingInfo w /\ rng w' = rng w /\
  channel w' = channel w /\
  m_remainingPINAttempts w' = m_remainingPINAttempts w /\
  transmitted (trace w') = transmitted (trace w) /\
  slept (trace w') = slept (trace w).
Proof.
  intros H.
  destruct (send_receive_cases response w)
    as [(_ & Hr) | [(_ & _ & Hr) | [(_ & _ & _ & Hr) | (_ & _ & _ & Hr)]]];
    rewrite Hr in H; injection H as _ <-;
    try (splits; reflexivity).
  cbn [d m_lastError m_pairingInfo rng channel m_remainingPINAttempts trace
         with_event with_d].
  unfold transmitted, slept. rewrite !flat_map_app. cbn [flat_map].
  rewrite !app_nil_r. splits; reflexivity.
Qed.

Lemma transmit_frame (apdu : QByteArray) (w w' : World P) (out : Outcome QByteArray) :
  transmit apdu w = (out, w') ->
  d w' = d w /\ m_lastError w' = m_lastError w /\
  m_pairingInfo w' = m_pairingInfo w /\ rng w' = rng w /\
  m_remainingPINAttempts w' = m_remainingPINAttempts w /\
  slept (trace w') = slept (trace w) /\
  (trace w' = trace w \/ trace w' = trace w ++ [Transmit apdu]).
Proof.
  unfold transmit. intros H. destruct (channel w) as [c|].
  - destruct (card_transmit c apdu) as [[what|raw] c'];
      injection H as _ <-;
      cbn [d m_lastError m_pairingInfo rng channel m_remainingPINAttempts trace
             with_event with_channel];
      unfold slept; rewrite flat_map_app;
      cbn [flat_map]; rewrite !app_nil_r; splits; try reflexivity; now right.
  - injection H as _ <-. splits; try reflexivity. now left.
Qed.

(** [send] changes the IV, the card and the trace, and nothing else; it
    never sleeps and hands at most one APDU to the channel *)
Lemma send_frame (command : Command) (w w' : World P) (out : Outcome Response) :
  send command w = (out, w') ->
  same_session (d w) (d w') /\ m_lastError w' = m_lastError w /\
  m_pairingInfo w' = m_pairingInfo w /\ rng w' = rng w /\
  m_remainingPINAttempts w' = m_remainingPINAttempts w /\
  slept (trace w') = slept (trace w) /\
  (transmitted (trace w') = transmitted (trace w) \/
   transmitted (trace w')
   = transmitted (trace w) ++ [request_apdu (d w) command]).
Proof.
  intros H.
  destruct (open (d w)) eqn:Ho.
  2:{ rewrite (send_closed command w Ho) in H. injection H as _ <-.
      splits; try reflexivity. now left. }
  destruct (channel w) as [c|] eqn:Hc.
  2:{ rewrite (send_no_channel command w Ho Hc) in H. injection H as _ <-.
      splits; try reflexivity. now left. }
  rewrite (send_open command w c Ho Hc) in H. cbv zeta in H.
  set (apdu := request_apdu (d w) command) in *.
  set (w2 := with_event (Transmit apdu) _) in H.
  assert (Hs : same_session (d w) (d w2))
    by (apply same_session_set_iv, same_session_refl).
  assert (Ht : transmitted (trace w2) = transmitted (trace w) ++ [apdu]).
  { subst w2. cbn [trace with_event with_channel with_d sending].
    unfold transmitted. rewrite !flat_map_app. cbn [flat_map].
    now rewrite !app_nil_r. }
  assert (Hz : slept (trace w2) = slept (trace w)).
  { subst w2. cbn [trace with_event with_channel with_d sending].
    unfold slept. rewrite !flat_map_app. cbn [flat_map].
    now rewrite !app_nil_r. }
  destruct (fst (card_transmit c apdu)) as [what|raw].
  - injection H as _ <-. splits; try assumption; try reflexivity. now right.
  - apply send_receive_frame in H
      as (Hs' & He & Hp & Hr & _ & Hn & Ht' & Hz').
    splits.
    + unfold same_session in *. congruence.
    + now rewrite He.
    + now rewrite Hp.
    + now rewrite Hr.
    + now rewrite Hn.
    + now rewrite Hz'.
    + right. now rewrite Ht'.
Qed.

(** ** C3: when the channel counts as open *)

Lemma checkOK_run (response : Response) (w : World P) :
  checkOK response w
  = (Returned (isOK response),
     with_lastError (if isOK response then ""
                     else "APDU error: SW=" ++ QStr.hex4 (resp_sw response)) w).
Proof. unfold checkOK. now destruct (isOK response). Qed.

Lemma buildCommand_ins (ins p1 p2 : Z) (data : QByteArray) :
  cmd_ins (buildCommand ins p1 p2 data) = ins.
Proof. unfold buildCommand. now destruct (QBA.isEmpty data). Qed.

Lemma request_apdu_ins (p : Private P) (command : Command) :
  nth 1 (request_apdu p command) 0 = cmd_ins command.
Proof. rewrite request_apdu_layout. reflexivity. Qed.

(** MUTUALLY AUTHENTICATE on an open channel with a card behind it: one APDU
    with INS [0x11] goes out, and the channel stays open whatever comes back *)
Lemma mutualAuthenticate_open (w w' : World P) (c : Card) (out : Outcome bool) :
  open (d w) = true -> channel w = Some c ->
  mutualAuthenticate w = (out, w') ->
  open (d w') = true /\
  exists apdu, nth 1 apdu 0 = 0x11 /\
               transmitted (trace w') = transmitted (trace w) ++ [apdu].
Proof.
  intros Ho Hc H. unfold mutualAuthenticate, bind, random_words in H.
  destruct (fillRange (rng w) 8) as [challenge r'].
  set (w0 := with_rng r' w) in H.
  set (cmd := buildCommand 17 0 0 challenge) in H.
  assert (Ho0 : open (d w0) = true) by exact Ho.
  assert (Hc0 : channel w0 = Some c) by exact Hc.
  destruct (send cmd w0) as [[resp|e] w1] eqn:Hs.
  - pose proof (send_frame cmd w0 w1 _ Hs) as (Hss & _).
    rewrite (send_open cmd w0 c Ho0 Hc0) in Hs. cbv zeta in Hs.
    rewrite checkOK_run in H. injection H as _ <-.
    split; [cbn [d with_lastError]; rewrite (same_session_open _ _ Hss); exact Ho0|].
    exists (request_apdu (d w0) cmd). split.
    + rewrite request_apdu_ins. apply buildCommand_ins.
    + cbn [trace with_lastError].
      destruct (fst (card_transmit c (request_apdu (d w0) cmd))); [discriminate|].
      apply send_receive_frame in Hs as (_ & _ & _ & _ & _ & _ & Ht & _).
      rewrite Ht. cbn [trace with_event with_channel with_d sending].
      unfold transmitted. rewrite !flat_map_app. cbn [flat_map].
      now rewrite !app_nil_r.
  - injection H as _ <-.
    pose proof (send_frame cmd w0 w1 _ Hs) as (Hss & _).
    split; [rewrite (same_session_open _ _ Hss); exact Ho0|].
    exists (request_apdu (d w0) cmd). split.
    + rewrite request_apdu_ins. apply buildCommand_ins.
    + rewrite (send_open cmd w0 c Ho0 Hc0) in Hs. cbv zeta in Hs.
      destruct (fst (card_transmit c (request_apdu (d w0) cmd))).
      * injection Hs as _ <-.
        cbn [trace with_event with_channel with_d sending].
        unfold transmitted. rewrite !flat_map_app. cbn [flat_map].
        now rewrite !app_nil_r.
      * apply send_receive_frame in Hs as (_ & _ & _ & _ & _ & _ & Ht & _).
        rewrite Ht. cbn [trace with_event with_channel with_d sending].
        unfold transmitted. rewrite !flat_map_app. cbn [flat_map].
        now rewrite !app_nil_r.
Qed.

(** C3 (as amended).  A new command set has a closed channel.  On a closed
    channel [openSecureChannel] leaves the channel closed when it fails before
    the session keys are derived; once they are derived [SecureChannel::init]
    marks the channel open, the MUTUALLY AUTHENTICATE request (INS [0x11]) is
    then sent through the open channel as the APDU right after OPEN SECURE
    CHANNEL, and the open flag is not touched again. *)
Theorem openSecureChannel_open_flag :
  (forall (ch : option Card) (r : Rng), isOpen (d (CommandSet_new ch r)) = false)
  /\ forall (pairingInfo : PairingInfo) (w w' : World P) (out : Outcome bool),
      isOpen (d w) = false ->
      openSecureChannel pairingInfo w = (out, w') ->
      isOpen (d w') = keys_derived pairingInfo w
      /\ (keys_derived pairingInfo w = true ->
          exists apdu,
            nth 1 apdu 0 = 0x11 /\
            transmitted (trace w')
            = transmitted (trace w) ++ [open_request pairingInfo w; apdu]).
Proof.
  split; [reflexivity|].
  intros pairingInfo w w' out Hclosed H.
  unfold isOpen in *. unfold keys_derived.
  unfold openSecureChannel in H.
  destruct (isValid pairingInfo) eqn:Hv; cbn [negb andb] in *.
  2:{ unfold bind, set_lastError, modify, ret in H. injection H as _ <-.
      split; [exact Hclosed|discriminate]. }
  unfold bind at 1 in H. unfold modify at 1 in H.
  unfold bind at 1 in H. unfold gets at 1 in H.
  cbn [d with_pairingInfo] in H.
  destruct (QBA.isEmpty (rawPublicKey (d w))) eqn:He; cbn [negb andb].
  { unfold bind, set_lastError, modify, ret in H. injection H as _ <-.
    split; [exact Hclosed|discriminate]. }
  unfold bind at 1 in H.
  fold (open_request pairingInfo w) in H.
  unfold transmit in H. cbn [channel with_pairingInfo] in H.
  destruct (channel w) as [c|] eqn:Hc.
  2:{ injection H as _ <-. split; [exact Hclosed|discriminate]. }
  destruct (card_transmit c (open_request pairingInfo w)) as [[what|rawResp] c'] eqn:Hct;
    cbn [fst].
  { injection H as _ <-. split; [exact Hclosed|discriminate]. }
  unfold bind at 1 in H. rewrite checkOK_run in H.
  destruct (isOK (Response_of rawResp)) eqn:Hok; cbn [negb andb] in *.
  2:{ unfold bind, set_lastError, modify, ret in H. injection H as _ <-.
      split; [exact Hclosed|discriminate]. }
  destruct (length (resp_data (Response_of rawResp)) <? 48)%nat eqn:Hlen;
    cbn [negb].
  { unfold bind, set_lastError, modify, ret in H. injection H as _ <-.
    split; [exact Hclosed|discriminate]. }
  unfold bind at 1 in H. unfold modify at 1 in H.
  unfold bind at 1 in H.
  match type of H with
  | context [mutualAuthenticate ?w1] =>
      set (wi := w1) in H;
      destruct (mutualAuthenticate wi) as [[authenticated|e] wm] eqn:Hm;
      destruct (mutualAuthenticate_open wi wm c' _ eq_refl eq_refl Hm)
        as (Hopen & apdu & Hins & Htr)
  end.
  - assert (Hw' : open (d w') = true /\ trace w' = trace wm).
    { destruct authenticated; cbn [negb] in H;
        unfold bind, set_lastError, modify, ret in H;
        injection H as _ <-; split; trivial. }
    destruct Hw' as [Ho' Ht']. split; [exact Ho'|].
    intros _. exists apdu. split; [exact Hins|].
    rewrite Ht', Htr. subst wi.
    cbn [trace with_d with_lastError with_event with_channel with_pairingInfo].
    unfold transmitted. rewrite !flat_map_app. cbn [flat_map].
    now rewrite app_nil_r, <- app_assoc.
  - injection H as _ <-. split; [exact Hopen|].
    intros _. exists apdu. split; [exact Hins|].
    rewrite Htr. subst wi.
    cbn [trace with_d with_lastError with_event with_channel with_pairingInfo].
    unfold transmitted. rewrite !flat_map_app. cbn [flat_map].
    now rewrite app_nil_r, <- app_assoc.
Qed.

(** ** C7: the retry after SW 0x6f05 *)

Lemma quiet_ret {A} (a : A) : quiet (ret a : M A).
Proof. intros w w' out H. now injection H as _ <-. Qed.

Lemma quiet_set_lastError (e : string) : quiet (set_lastError e).
Proof. intros w w' out H. now injection H as _ <-. Qed.

Lemma quiet_with_remaining (n : Z) : quiet (modify (with_remainingPINAttempts n)).
Proof. intros w w' out H. now injection H as _ <-. Qed.

Lemma quiet_checkOK (response : Response) : quiet (checkOK response).
Proof. intros w w' out H. rewrite checkOK_run in H. now injection H as _ <-. Qed.

Lemma quiet_bind {A B} (m : M A) (k : A -> M B) :
  quiet m -> (forall a, quiet (k a)) -> quiet (bind m k).
Proof.
  intros Hm Hk w w' out H. unfold bind in H.
  destruct (m w) as [[a|e] w1] eqn:E.
  - rewrite (Hk a _ _ _ H). exact (Hm _ _ _ E).
  - injection H as _ <-. exact (Hm _ _ _ E).
Qed.

Ltac solve_quiet :=
  repeat first
    [ apply quiet_ret | apply quiet_set_lastError | apply quiet_checkOK
    | apply quiet_with_remaining
    | apply quiet_bind; [|intros ?]
    | match goal with |- quiet (if ?b then _ else _) => destruct b end ].

Lemma one_apdu_quiet {A} (m : M A) : quiet m -> at_most_one_apdu m.
Proof. intros Hq w w' out H. rewrite (Hq _ _ _ H). split; [reflexivity|now left]. Qed.

Lemma one_apdu_send {A} (command : Command) (k : Response -> M A) :
  (forall r, quiet (k r)) -> at_most_one_apdu (bind (send command) k).
Proof.
  intros Hk w w' out H. unfold bind in H.
  destruct (send command w) as [[r|e] w1] eqn:E;
    pose proof (send_frame command w w1 _ E) as (_ & _ & _ & _ & _ & Hz & Ht).
  - rewrite (Hk r _ _ _ H). split; [exact Hz|].
    destruct Ht as [Ht|Ht]; [now left|right; eauto].
  - injection H as _ <-. split; [exact Hz|].
    destruct Ht as [Ht|Ht]; [now left|right; eauto].
Qed.

Lemma one_apdu_requires_open {A} (failure : A) (body : M A) :
  at_most_one_apdu body -> at_most_one_apdu (requires_open failure body).
Proof.
  intros Hb w w' out H. destruct (isOpen (d w)) eqn:Ho.
  - rewrite requires_open_open in H by exact Ho. exact (Hb _ _ _ H).
  - rewrite requires_open_closed in H by exact Ho. injection H as _ <-.
    split; [reflexivity|now left].
Qed.

Lemma one_apdu_validate {A} (valid : bool) (message : string) (failure : A)
  (body : M A) :
  at_most_one_apdu body -> at_most_one_apdu (validate valid message failure body).
Proof.
  intros Hb. unfold validate. destruct valid; cbn [negb]; [exact Hb|].
  apply one_apdu_quiet. solve_quiet.
Qed.

Lemma one_apdu_fmap {A B} (f : A -> B) (m : M A) :
  at_most_one_apdu m -> at_most_one_apdu (fmap f m).
Proof.
  intros Hm w w' out H. unfold fmap, bind in H.
  destruct (m w) as [[a|e] w1] eqn:E; injection H as _ <-; exact (Hm _ _ _ E).
Qed.

Ltac solve_one_apdu :=
  repeat first
    [ apply one_apdu_fmap | apply one_apdu_validate | apply one_apdu_requires_open
    | match goal with
      | |- at_most_one_apdu (let '(_, _) := ?x in _) => destruct x
      end
    | apply one_apdu_send; intros ?; solve_quiet ].

(** a [send] that returns leaves the channel open and the card in place *)
Lemma send_returned (command : Command) (w w1 : World P) (r : Response) :
  send command w = (Returned r, w1) ->
  open (d w1) = true /\ exists c1, channel w1 = Some c1.
Proof.
  intros H.
  destruct (open (d w)) eqn:Ho;
    [|rewrite (send_closed command w Ho) in H; discriminate].
  destruct (channel w) as [c|] eqn:Hc;
    [|rewrite (send_no_channel command w Ho Hc) in H; discriminate].
  pose proof (send_frame command w w1 _ H) as (Hs & _).
  split; [rewrite (same_session_open _ _ Hs); exact Ho|].
  rewrite (send_open command w c Ho Hc) in H. cbv zeta in H.
  destruct (fst (card_transmit c (request_apdu (d w) command))); [discriminate|].
  apply send_receive_frame in H as (_ & _ & _ & _ & Hch & _).
  rewrite Hch. cbn. eauto.
Qed.

(** the events of one [send] on an open channel with a card behind it *)
Lemma send_events (command : Command) (w w' : World P) (c : Card)
  (out : Outcome Response) :
  open (d w) = true -> channel w = Some c ->
  send command w = (out, w') ->
  exists t, trace w' = trace w ++ t /\ slept t = [] /\
            transmitted t = [request_apdu (d w) command].
Proof.
  intros Ho Hc H. rewrite (send_open command w c Ho Hc) in H. cbv zeta in H.
  set (apdu := request_apdu (d w) command) in *.
  destruct (fst (card_transmit c apdu)) as [what|raw].
  - injection H as _ <-.
    exists [IvUpdated (iv (d w)) (request_mac (d w) command); Transmit apdu].
    cbn [trace with_event with_channel with_d sending].
    rewrite <- app_assoc. now splits.
  - match type of H with send_receive ?resp ?w2 = _ =>
      destruct (send_receive_cases resp w2)
        as [(_ & Hr) | [(_ & _ & Hr) | [(_ & _ & _ & Hr) | (_ & _ & _ & Hr)]]]
    end; rewrite Hr in H; injection H as _ <-;
      cbn [trace with_event with_channel with_d sending];
      rewrite <- ?app_assoc; cbn [app]; eexists; splits; reflexivity.
Qed.

Lemma verifyPIN_classify_quiet (resp : Response) :
  quiet (if Z.land (resp_sw resp) 0x63C0 =? 0x63C0
         then bind (modify (with_remainingPINAttempts (Z.land (resp_sw resp) 0x000F)))
                (fun _ => bind (set_lastError
                                  ("Wrong PIN. Remaining attempts: "
                                   ++ QStr.number (Z.land (resp_sw resp) 0x000F)))
                            (fun _ => ret false))
         else bind (modify (with_remainingPINAttempts (-1)))
                (fun _ => checkOK resp)).
Proof. solve_quiet. Qed.

Lemma verifyPIN_settles (resp : Response) (w2 w' : World P) (out : Outcome bool) :
  (if Z.land (resp_sw resp) 0x63C0 =? 0x63C0
   then bind (modify (with_remainingPINAttempts (Z.land (resp_sw resp) 0x000F)))
          (fun _ => bind (set_lastError
                            ("Wrong PIN. Remaining attempts: "
                             ++ QStr.number (Z.land (resp_sw resp) 0x000F)))
                      (fun _ => ret false))
   else bind (modify (with_remainingPINAttempts (-1)))
          (fun _ => checkOK resp)) w2 = (out, w') ->
  verifyPIN_reports resp w2 out w'.
Proof.
  unfold verifyPIN_reports.
  destruct (Z.land (resp_sw resp) 0x63C0 =? 0x63C0) eqn:E.
  - apply Z.eqb_eq in E. intros H.
    apply pair_equal_spec in H. destruct H as [<- <-].
    cbn [trace d m_lastError m_remainingPINAttempts with_lastError
           with_remainingPINAttempts].
    splits; try reflexivity.
    + intros H9. rewrite H9 in E. discriminate E.
    + intros _. now splits.
    + intros _ Hn. contradiction.
  - apply Z.eqb_neq in E. intros H. unfold bind, modify in H.
    rewrite checkOK_run in H. apply pair_equal_spec in H. destruct H as [<- <-].
    cbn [trace d m_lastError m_remainingPINAttempts with_lastError
           with_remainingPINAttempts].
    unfold isOK. splits; try reflexivity.
    + intros H9. rewrite H9. now splits.
    + intros Hw. contradiction.
    + intros H9 _. apply Z.eqb_neq in H9. rewrite H9. now splits.
Qed.


Lemma send_6f05 (command : Command) (w : World P) (c : Card) :
  open (d w) = true -> channel w = Some c ->
  (forall apdu, fst (card_transmit c apdu) = inr [0x6f; 0x05]) ->
  exists w2,
    send command w = (Returned (mkResponse [] 0x6f05), w2) /\
    m_lastError w2 = m_lastError w /\
    slept (trace w2) = slept (trace w) /\
    length (transmitted (trace w2)) = S (length (transmitted (trace w))).
Proof.
  intros Ho Hc Hcard. rewrite (send_open command w c Ho Hc). cbv zeta.
  rewrite Hcard.
  change (Response_of [0x6f; 0x05]) with (mkResponse [] 0x6f05).
  unfold send_receive. cbn [isOK resp_sw Z.eqb Pos.eqb andb].
  eexists. split; [reflexivity|].
  cbn [m_lastError trace with_event with_channel with_d sending].
  unfold slept, transmitted. rewrite !flat_map_app, !length_app.
  cbn [flat_map app length]. rewrite !app_nil_r. splits; trivial. lia.
Qed.

Lemma never_sleeps_send (command : Command) : never_sleeps (send command).
Proof.
  intros w w' out H.
  now destruct (send_frame command w w' out H) as (_ & _ & _ & _ & _ & Hz & _).
Qed.

Lemma slept_transmit (t : list Event) (apdu : QByteArray) :
  slept (t ++ [Transmit apdu]) = slept t.
Proof. unfold slept. rewrite flat_map_app. cbn [flat_map]. apply app_nil_r. Qed.

Lemma never_sleeps_pair (pairingPassword : QString) :
  never_sleeps (pair pairingPassword).
Proof.
  intros w w' out H.
  unfold pair in H. unfold bind at 1 in H. unfold random_words in H.
  destruct (fillRange (rng w) 8) as [challenge r'].
  unfold bind at 1 in H. unfold transmit at 1 in H. cbn [channel with_rng] in H.
  destruct (channel w) as [c|]; [|finish H; reflexivity].
  destruct (card_transmit c _) as [[what|rawResp1] c1];
    [finish H; apply slept_transmit|].
  unfold bind at 1 in H. rewrite checkOK_run in H.
  destruct (isOK (Response_of rawResp1)); cbn [negb] in H.
  2:{ destruct (resp_sw (Response_of rawResp1) =? 0x6A84);
        finish H; apply slept_transmit. }
  destruct (length (resp_data (Response_of rawResp1)) <? 64)%nat;
    [finish H; apply slept_transmit|].
  destruct (QBA.eqb _ _); cbn [negb] in H; [|finish H; apply slept_transmit].
  unfold bind at 1 in H. unfold transmit in H.
  cbn [channel with_rng with_lastError with_event with_channel] in H.
  destruct (card_transmit c1 _) as [[what|rawResp2] c2];
    [finish H; cbn [trace with_event with_channel with_lastError with_rng];
     now rewrite !slept_transmit|].
  unfold bind at 1 in H. rewrite checkOK_run in H.
  destruct (isOK (Response_of rawResp2)); cbn [negb] in H.
  2:{ finish H. cbn [trace with_event with_channel with_lastError with_rng].
      now rewrite !slept_transmit. }
  destruct (QBA.isEmpty (resp_data (Response_of rawResp2)));
    finish H;
    cbn [trace with_event with_channel with_lastError with_rng with_pairingInfo];
    now rewrite !slept_transmit.
Qed.

Lemma never_sleeps_mutualAuthenticate : never_sleeps mutualAuthenticate.
Proof.
  intros w w' out H. unfold mutualAuthenticate, bind, random_words in H.
  destruct (fillRange (rng w) 8) as [challenge r'].
  destruct (send _ _) as [[resp|e] w1] eqn:Hs;
    pose proof (never_sleeps_send _ _ _ _ Hs) as Hz.
  - rewrite checkOK_run in H. apply pair_equal_spec in H. destruct H as [<- <-].
    exact Hz.
  - apply pair_equal_spec in H. destruct H as [<- <-]. exact Hz.
Qed.

Lemma never_sleeps_openSecureChannel (pairingInfo : PairingInfo) :
  never_sleeps (openSecureChannel pairingInfo).
Proof.
  intros w w' out H. unfold openSecureChannel in H.
  destruct (isValid pairingInfo); cbn [negb] in H; [|finish H; reflexivity].
  unfold bind at 1 in H. unfold modify at 1 in H.
  unfold bind at 1 in H. unfold gets at 1 in H.
  cbn [d with_pairingInfo] in H.
  destruct (QBA.isEmpty (rawPublicKey (d w))); [finish H; reflexivity|].
  unfold bind at 1 in H. unfold transmit in H. cbn [channel with_pairingInfo] in H.
  destruct (channel w) as [c|]; [|finish H; reflexivity].
  destruct (card_transmit c _) as [[what|rawResp] c'];
    [finish H; apply slept_transmit|].
  unfold bind at 1 in H. rewrite checkOK_run in H.
  destruct (isOK (Response_of rawResp)); cbn [negb] in H;
    [|finish H; apply slept_transmit].
  destruct (length (resp_data (Response_of rawResp)) <? 48)%nat;
    [finish H; apply slept_transmit|].
  unfold bind at 1 in H. unfold modify at 1 in H. unfold bind at 1 in H.
  destruct (mutualAuthenticate _) as [[authenticated|e] wm] eqn:Hm;
    pose proof (never_sleeps_mutualAuthenticate _ _ _ Hm) as Hz;
    cbn [trace with_d with_lastError with_event with_channel with_pairingInfo] in Hz;
    rewrite slept_transmit in Hz.
  - destruct authenticated; cbn [negb] in H; finish H; exact Hz.
  - finish H. exact Hz.
Qed.


(** an operation other than [verifyPIN] surfaces [6f 05] at once *)
Lemma surfaced_at_once (op : Operation) (w : World P) (c : Card) :
  (forall pin, op <> VerifyPIN pin) ->
  isOpen (d w) = true -> rejected_input op = None -> channel w = Some c ->
  (forall apdu, fst (card_transmit c apdu) = inr [0x6f; 0x05]) ->
  exists w',
    call op w = (Returned (failure_value op), w') /\
    m_lastError w' = surfaced_6f05 op /\
    slept (trace w') = slept (trace w) /\
    length (transmitted (trace w')) = S (length (transmitted (trace w))).
Proof.
  intros Hop Ho Hin Hc Hcard.
  destruct op; try (exfalso; eapply Hop; reflexivity);
    cbn [call failure_value surfaced_6f05 rejected_input] in *;
    unfold fmap, changePIN, changePUK, unblockPIN, changePairingSecret, generateKey,
      generateMnemonic, loadSeed, removeKey, deriveKey, sign, signWithPath,
      signPinless, setPinlessPath, storeData, getData, exportKey,
      exportKeyExtended, unpair, getStatus, validate;
    try match type of Hin with
        | (if ?b then _ else _) = None => destruct b; [|discriminate Hin]
        end;
    cbn [negb];
    repeat match goal with
           | |- context [let '(_, _) := ?x in _] => destruct x
           end;
    unfold bind at 1; rewrite (requires_open_open _ _ w Ho); cbv zeta;
    unfold bind at 1;
    match goal with
    | |- context [send ?cmd w] =>
        destruct (send_6f05 cmd w c Ho Hc Hcard) as (w2 & -> & He & Hz & Ht)
    end;
    unfold bind, set_lastError, modify, ret; cbn [resp_sw]; rewrite ?checkOK_run;
    cbn [isOK resp_sw Z.eqb Pos.eqb negb Z.land Pos.land];
    eexists; (split; [reflexivity|]);
    cbn [m_lastError trace with_lastError];
    (split; [vm_compute; reflexivity|]); split; assumption.
Qed.

(** C7 (as amended).  [verifyPIN] is the one operation that retries: when
    its VERIFY PIN command comes back with SW [0x6f05] (on any call, the first
    after opening or a later one) it sleeps 50 ms and sends the command once
    more, and what the caller gets is settled by that second exchange alone:
    its exception if it throws; true with an empty [m_lastError] for
    [0x9000]; false with the wrong-PIN message and count when
    [(SW & 0x63C0) = 0x63C0]; false with "APDU error: SW=..." otherwise.
    Without [0x6f05] the first exchange settles it in the same way and
    nothing more is sent.  Each of the other nineteen operations on the
    secure channel never sleeps and hands at most one APDU to the channel;
    when the card answers [6f 05] it returns its failure value at once, with
    that status word in [m_lastError].  [SecureChannel::send], [pair] and
    [openSecureChannel] never sleep either. *)
Theorem hot_plug_retry_only_in_verifyPIN :
  (forall (pin : QString) (w w1 w' : World P) (r1 : Response) (out : Outcome bool),
      isOpen (d w) = true ->
      send (verify_command pin) w = (Returned r1, w1) ->
      verifyPIN pin w = (out, w') ->
      if resp_sw r1 =? 0x6f05
      then exists (t2 : list Event) (out2 : Outcome Response) (w2 : World P),
          send (verify_command pin) (with_event (Msleep 50) w1) = (out2, w2) /\
          trace w2 = trace w1 ++ Msleep 50 :: t2 /\ slept t2 = [] /\
          transmitted t2 = [request_apdu (d w1) (verify_command pin)] /\
          trace w' = trace w1 ++ Msleep 50 :: t2 /\
          match out2 with
          | Returned r2 => verifyPIN_reports r2 w2 out w'
          | Thrown e => out = Thrown e /\ w' = w2
          end
      else trace w' = trace w1 /\ verifyPIN_reports r1 w1 out w')
  /\ (forall op : Operation,
         (forall pin, op <> VerifyPIN pin) ->
         at_most_one_apdu (call op) /\
         forall (w : World P) (c : Card),
           isOpen (d w) = true -> rejected_input op = None ->
           channel w = Some c ->
           (forall apdu, fst (card_transmit c apdu) = inr [0x6f; 0x05]) ->
           exists w',
             call op w = (Returned (failure_value op), w') /\
             m_lastError w' = surfaced_6f05 op /\
             slept (trace w') = slept (trace w) /\
             length (transmitted (trace w')) = S (length (transmitted (trace w))))
  /\ (forall command, never_sleeps (send command) /\ at_most_one_apdu (send command))
  /\ (forall pairingPassword, never_sleeps (pair pairingPassword))
  /\ (forall pairingInfo, never_sleeps (openSecureChannel pairingInfo)).
Proof.
  split; [|split; [|split; [|split]]].
  - intros pin w w1 w' r1 out Ho Hs H.
    unfold verifyPIN in H. rewrite requires_open_open in H by exact Ho.
    fold (verify_command pin) in H.
    unfold bind at 1 in H. rewrite Hs in H.
    destruct (send_returned _ _ _ _ Hs) as (Ho1 & c1 & Hc1).
    unfold bind at 1 in H.
    destruct (resp_sw r1 =? 0x6f05).
    + unfold bind at 1 in H. unfold msleep, emit, modify in H.
      set (ws := with_event (Msleep 50) w1) in *.
      destruct (send (verify_command pin) ws) as [[r2|e] w2] eqn:Hs2;
        destruct (send_events (verify_command pin) ws w2 c1 _ Ho1 Hc1 Hs2)
          as (t2 & Ht & Hz & Hx);
        exists t2, (fst (send (verify_command pin) ws)), w2;
        rewrite Hs2; cbn [fst];
        assert (Ht2 : trace w2 = trace w1 ++ Msleep 50 :: t2)
          by (rewrite Ht; subst ws; cbn [trace with_event];
              now rewrite <- app_assoc).
      * pose proof (verifyPIN_settles r2 _ _ _ H) as Hrep.
        splits; trivial. now rewrite (proj1 Hrep).
      * apply pair_equal_spec in H. destruct H as [<- <-]. now splits.
    + unfold ret at 1 in H.
      pose proof (verifyPIN_settles r1 _ _ _ H) as Hrep.
      split; [exact (proj1 Hrep)|exact Hrep].
  - intros op Hop. split.
    + destruct op; try (exfalso; eapply Hop; reflexivity);
        cbn [call];
        unfold changePIN, changePUK, unblockPIN, changePairingSecret, generateKey,
          generateMnemonic, loadSeed, removeKey, deriveKey, sign, signWithPath,
          signPinless, setPinlessPath, storeData, getData, exportKey,
          exportKeyExtended, unpair, getStatus;
        solve_one_apdu.
    + intros w c. now apply surfaced_at_once.
  - intros command. split; [apply never_sleeps_send|].
    intros w w' out H.
    destruct (send_frame command w w' out H) as (_ & _ & _ & _ & _ & Hz & Ht).
    split; [exact Hz|]. destruct Ht as [Ht|Ht]; [now left|right; eauto].
  - apply never_sleeps_pair.
  - apply never_sleeps_openSecureChannel.
Qed.

(** ** C4: the classification of status words *)

(** The code tests
    [(SW & 0x63C0) == 0x63C0]; every status the claim calls wrong-PIN passes
    that test, with the same count of remaining attempts. *)
Lemma wrong_pin_mask (sw : Z) :
  Z.land sw 0xFFF0 = 0x63C0 ->
  (Z.land sw 0x63C0 =? 0x63C0) = true.
Proof.
  intros H. apply Z.eqb_eq.
  replace (Z.land sw 0x63C0) with (Z.land (Z.land sw 0xFFF0) 0x63C0)
    by (rewrite <- Z.land_assoc; reflexivity).
  now rewrite H.
Qed.

Lemma wrong_pin_is_not_6f05 (sw : Z) :
  Z.land sw 0xFFF0 = 0x63C0 -> (sw =? 0x6f05) = false.
Proof.
  intros H. apply Z.eqb_neq. intros ->. discriminate H.
Qed.

(** a status [63 Cx] on VERIFY PIN: [verifyPIN] returns false, stores [x] as
    the remaining attempts, says so in [m_lastError], sends nothing more, and
    the channel stays open *)
Lemma verifyPIN_wrong_pin (pin : QString) (w w1 : World P) (r1 : Response) :
  isOpen (d w) = true ->
  send (verify_command pin) w = (Returned r1, w1) ->
  Z.land (resp_sw r1) 0xFFF0 = 0x63C0 ->
  verifyPIN pin w
  = (Returned false,
     with_lastError ("Wrong PIN. Remaining attempts: "
                     ++ QStr.number (Z.land (resp_sw r1) 0x000F))
       (with_remainingPINAttempts (Z.land (resp_sw r1) 0x000F) w1))
  /\ isOpen (d w1) = true.
Proof.
  intros Ho Hs Hsw. split; [|exact (proj1 (send_returned _ _ _ _ Hs))].
  unfold verifyPIN. rewrite requires_open_open by exact Ho.
  fold (verify_command pin). unfold bind at 1. rewrite Hs.
  rewrite (wrong_pin_is_not_6f05 _ Hsw).
  unfold bind at 1. unfold ret at 1.
  rewrite (wrong_pin_mask _ Hsw). reflexivity.
Qed.

(** ** C9: PAIR with a wrong cryptogram *)

(** C9.  When the first PAIR step succeeds with a well-formed response (at
    least 64 bytes) whose card cryptogram differs from
    [SHA-256(PBKDF2(password) || challenge)], [pair] returns the default
    (invalid) [PairingInfo] with the cryptogram error in [m_lastError]; the
    step-1 APDU is the only one transmitted, and neither the stored pairing
    nor the secure channel changes. *)
Theorem pair_cryptogram_mismatch (pairingPassword : QString) (w : World P)
  (c c' : Card) (challenge rawResp1 : QByteArray) (r' : Rng) :
  channel w = Some c ->
  fillRange (rng w) 8 = (challenge, r') ->
  card_transmit c (serialize (buildCommand INS_PAIR P1PairFirstStep 0 challenge))
  = (inr rawResp1, c') ->
  isOK (Response_of rawResp1) = true ->
  (64 <= length (resp_data (Response_of rawResp1)))%nat ->
  QBA.left 32 (resp_data (Response_of rawResp1))
  <> sha256 (derivePairingToken pairingPassword ++ challenge) ->
  exists w',
    pair pairingPassword w = (Returned PairingInfo_default, w') /\
    m_lastError w' = "Invalid card cryptogram - wrong pairing password"%string /\
    trace w'
    = trace w ++ [Transmit (serialize (buildCommand INS_PAIR P1PairFirstStep 0
                                                    challenge))] /\
    m_pairingInfo w' = m_pairingInfo w /\ d w' = d w.
Proof.
  intros Hc Hr Ht Hok Hlen Hneq.
  unfold pair. unfold bind at 1. unfold random_words. rewrite Hr.
  unfold bind at 1. unfold transmit. cbn [channel with_rng]. rewrite Hc, Ht.
  unfold bind at 1. rewrite checkOK_run, Hok. cbn [negb].
  replace (length (resp_data (Response_of rawResp1)) <? 64)%nat with false
    by (symmetry; apply Nat.ltb_ge; exact Hlen).
  assert (E : QBA.eqb (sha256 (derivePairingToken pairingPassword ++ challenge))
                      (QBA.left 32 (resp_data (Response_of rawResp1))) = false)
    by (apply QBA_eqb_neq; congruence).
  rewrite E. cbn [negb].
  eexists. split; [reflexivity|]. now splits.
Qed.

(** ** C8: the path parser *)

Lemma stream_u32_BE32 (result : QByteArray) (value : Z) :
  stream_u32 result value = result ++ BE32 value.
Proof. reflexivity. Qed.

Lemma fold_stream (segments : list QString) :
  forall result : QByteArray,
    fold_left (fun result segment =>
                 match segment_value segment with
                 | Some value => stream_u32 result value
                 | None => result
                 end) segments result
    = result ++ flat_map BE32 (path_values segments).
Proof.
  induction segments as [|s segments IH]; intros result; cbn [fold_left].
  - cbn. now rewrite app_nil_r.
  - rewrite IH. unfold path_values. cbn [flat_map].
    destruct (segment_value s) as [v|]; cbn [app flat_map].
    + rewrite stream_u32_BE32, <- app_assoc. reflexivity.
    + reflexivity.
Qed.

Lemma decode_BE32_bytes (v : Z) (rest : QByteArray) :
  0 <= v < 2 ^ 32 -> decode_BE32 (BE32 v ++ rest) = v :: decode_BE32 rest.
Proof.
  intros Hv. unfold BE32. cbn [app decode_BE32]. f_equal.
  rewrite !Z.shiftl_mul_pow2, !Z.shiftr_div_pow2 by lia.
  change 255 with (Z.ones 8). rewrite !Z.land_ones by lia.
  change (2 ^ 8) with 256. change (2 ^ 16) with 65536.
  change (2 ^ 24) with 16777216. change (2 ^ 32) with 4294967296 in Hv.
  Z.div_mod_to_equations. lia.
Qed.

(** the parser in terms of its own pieces: the bytes of the components that
    are numbers, after the prefix of the trimmed path *)
Lemma parseDerivationPath_unfolded (path : QString) :
  parseDerivationPath path
  = (flat_map BE32 (path_values (path_segments path)),
     path_start (QStr.trimmed path))
  /\ length (fst (parseDerivationPath path))
     = (4 * length (path_values (path_segments path)))%nat.
Proof.
  assert (E : parseDerivationPath path
              = (flat_map BE32 (path_values (path_segments path)),
                 path_start (QStr.trimmed path))).
  { unfold parseDerivationPath, path_segments, path_start, path_rest.
    destruct (QStr.startsWith "m/" (QStr.trimmed path));
      [|destruct (QStr.startsWith "../" (QStr.trimmed path));
        [|destruct (QStr.startsWith "./" (QStr.trimmed path))]];
      match goal with
      | |- context [QStr.isEmpty ?r] => destruct (QStr.isEmpty r)
      end; try reflexivity; now rewrite fold_stream. }
  split; [exact E|]. rewrite E. cbn [fst]. clear E.
  induction (path_values (path_segments path)) as [|v vs IH]; [reflexivity|].
  cbn [flat_map length]. rewrite length_app, IH. cbn [BE32 length]. lia.
Qed.

(** the hardened bit of a component, for a [toUInt] with values below 2^32:
    it is set when the component ends in ['] or [h], and otherwise exactly
    when the number itself is 2^31 or more *)
Lemma segment_value_hardened_bit (segment : QString) (value : Z) :
  (forall s n, toUInt s = Some n -> 0 <= n < 2 ^ 32) ->
  segment_value segment = Some value ->
  0 <= value < 2 ^ 32 /\
  if QStr.endsWith "'" segment || QStr.endsWith "h" segment
  then Z.testbit value 31 = true
  else (Z.testbit value 31 = true <-> 2 ^ 31 <= value).
Proof.
  intros Hrange. unfold segment_value.
  destruct (QStr.endsWith "'" segment || QStr.endsWith "h" segment).
  - destruct (toUInt _) as [n|] eqn:En; [|discriminate].
    intros [= <-]. apply Hrange in En.
    split.
    + change 2147483648 with (2 ^ 31).
      assert (Hb : 0 <= Z.lor n (2 ^ 31)) by (apply Z.lor_nonneg; lia).
      split; [exact Hb|].
      destruct (Z.eq_dec (Z.lor n (2 ^ 31)) 0) as [->|Hnz]; [lia|].
      apply Z.log2_lt_pow2; [lia|].
      rewrite Z.log2_lor by lia. rewrite Z.log2_pow2 by lia.
      destruct (Z.eq_dec n 0) as [->|Hn]; [cbn; lia|].
      assert (Z.log2 n < 32) by (apply Z.log2_lt_pow2; lia). lia.
    + rewrite Z.lor_spec. change 2147483648 with (2 ^ 31).
      rewrite Z.pow2_bits_true by lia. apply orb_true_r.
  - intros Hv. apply Hrange in Hv as Hr. split; [exact Hr|].
    split.
    + intros Hb. destruct (Z_lt_le_dec value (2 ^ 31)) as [Hlt|]; [|assumption].
      destruct (Z.eq_dec value 0) as [->|Hnz]; [discriminate|].
      rewrite Z.bits_above_log2 in Hb; [discriminate|lia|].
      apply Z.log2_lt_pow2; lia.
    + intros Hge. rewrite Z.testbit_true by lia.
      change (2 ^ 31) with 2147483648 in *.
      change (2 ^ 32) with 4294967296 in *.
      Z.div_mod_to_equations. lia.
Qed.

Lemma decode_BE32_flat_map (values : list Z) :
  Forall (fun v => 0 <= v < 2 ^ 32) values ->
  decode_BE32 (flat_map BE32 values) = values.
Proof.
  induction 1 as [|v vs Hv _ IH]; [reflexivity|].
  cbn [flat_map]. rewrite decode_BE32_bytes by exact Hv. now rewrite IH.
Qed.

(** ** C5: what [reset] clears *)

(** C5 (as amended).  After a SELECT has seeded the handshake
    ([generateSecret] returned true), [reset] clears the IV, both session
    keys, the open flag, the opened index and the card's public key, and it
    keeps the ECDH shared secret and the client's ephemeral key pair (private
    key and raw public key), which OPEN SECURE CHANNEL needs afterwards. *)
Theorem reset_keeps_handshake (cardKey : QByteArray) (w w' : World P) :
  generateSecret cardKey w = (Returned true, w') ->
  let p := SecureChannel_reset (d w') in
  (iv p = [] /\ encKey p = [] /\ macKey p = [] /\ isOpen p = false /\
   openedIndex p = -1 /\ cardPublicKey p = None)
  /\ exists priv pub card s r',
      EVP_PKEY_keygen (rng w) = (Some (priv, pub), r') /\
      EC_POINT_oct2point cardKey = Some card /\
      EVP_PKEY_derive priv card = Some s /\
      secret p = s /\ rawPublicKeyData p = pub /\ privateKey p = Some priv.
Proof.
  intros H p. split; [now splits|].
  unfold generateSecret in H.
  destruct (negb (length cardKey =? 65)%nat
            || negb (QBA.to_char (hd 0 cardKey) =? 4)); [discriminate|].
  unfold bind at 1 in H. unfold gets at 1 in H.
  destruct (EVP_PKEY_keygen (rng w)) as [[[priv pub]|] r'] eqn:Ek;
    unfold bind at 1 in H; unfold modify at 1 in H; [|discriminate].
  unfold bind at 1 in H. unfold modify at 1 in H.
  destruct (EC_POINT_oct2point cardKey) as [card|] eqn:Ec; [|discriminate].
  unfold bind at 1 in H. unfold modify at 1 in H.
  destruct (EVP_PKEY_derive priv card) as [s|] eqn:Ed; [|discriminate].
  unfold bind, modify, ret in H. injection H as <-.
  exists priv, pub, card, s, r'. now splits.
Qed.

End Session.

(** ** Multi-frame responses (C6) *)

Section NfcFacts.
Variable Tag : Type.
Variable isoDep_transceive : Tag -> QByteArray -> option QByteArray * Tag.

(** the Android handler sends at most one GET RESPONSE *)
Lemma handleMultiFrameResponse_one_round (response : QByteArray) (tag : Tag) :
  let '(_, _, sent) := handleMultiFrameResponse Tag isoDep_transceive response tag in
  sent = [] \/ sent = [getResponseApdu (sw2_of response)].
Proof.
  unfold handleMultiFrameResponse.
  destruct (length response <? 2)%nat; [now left|].
  destruct (sw1_of response =? 0x61); [|now left].
  destruct (isoDep_transceive tag (getResponseApdu (sw2_of response)))
    as [[additional|] tag']; now right.
Qed.

(** the Qt NFC loop stops only on a response that is too short to carry a
    status word, on a status other than [61 xx], or on a failed GET RESPONSE *)
Lemma QtNfc_collect_stops (fuel : nat) :
  forall (response : QByteArray) (tag : Tag) (sent : list QByteArray)
         (final : QByteArray) (tag' : Tag) (sent' : list QByteArray),
    QtNfc_collect Tag isoDep_transceive fuel response tag sent
    = Some (final, tag', sent') ->
    (length final < 2)%nat \/ sw1_of final <> 0x61 \/
    exists tag0, fst (isoDep_transceive tag0 (getResponseApdu (sw2_of final))) = None.
Proof.
  induction fuel as [|f IH]; intros response tag sent final tag' sent' H;
    [discriminate|].
  cbn [QtNfc_collect] in H.
  destruct (length response <? 2)%nat eqn:L.
  - injection H as <- _ _. left. now apply Nat.ltb_lt.
  - destruct (sw1_of response =? 0x61) eqn:S; cbn [negb] in H.
    + destruct (isoDep_transceive tag (getResponseApdu (sw2_of response)))
        as [[additional|] tag1] eqn:T.
      * exact (IH _ _ _ _ _ _ H).
      * injection H as <- _ _. right. right. exists tag. now rewrite T.
    + injection H as <- _ _. right. left. now apply Z.eqb_neq.
Qed.

(** more fuel does not change a result the loop has reached *)
Lemma QtNfc_collect_fuel (fuel : nat) :
  forall (response : QByteArray) (tag : Tag) (sent : list QByteArray)
         (result : QByteArray * Tag * list QByteArray),
    QtNfc_collect Tag isoDep_transceive fuel response tag sent = Some result ->
    QtNfc_collect Tag isoDep_transceive (S fuel) response tag sent = Some result.
Proof.
  induction fuel as [|f IH]; intros response tag sent result H; [discriminate|].
  cbn [QtNfc_collect] in H. remember (S f) as f1. cbn [QtNfc_collect]. subst f1.
  destruct (length response <? 2)%nat; [exact H|].
  destruct (negb (sw1_of response =? 0x61)); [exact H|].
  destruct (isoDep_transceive tag (getResponseApdu (sw2_of response)))
    as [[additional|] tag1]; [|exact H].
  exact (IH _ _ _ _ H).
Qed.

End NfcFacts.

(** C6 fails on the Android backend and on the secure channel.  With the
    frames [01 02 | 61 02], [03 04 | 61 02], [05 06 | 90 00]:
    [handleMultiFrameResponse] sends one GET RESPONSE and leaves a response
    that still ends in [61 02], the third frame never fetched; the loop of
    [KeycardChannelQtNfc::transmit] sends two and returns the whole payload
    with [90 00]; and [SecureChannel::send], given a raw response [61 02],
    hands it back after its single APDU, with no GET RESPONSE at all. *)
Theorem multi_frame_single_round :
  handleMultiFrameResponse _ script_transceive frame1 later_frames
  = ([0x01; 0x02; 0x03; 0x04; 0x61; 0x02], [Some frame3], [[0x00; 0xC0; 0x00; 0x00; 0x02]])
  /\ QtNfc_collect _ script_transceive 3 frame1 later_frames []
     = Some ([0x01; 0x02; 0x03; 0x04; 0x05; 0x06; 0x90; 0x00], [],
             [[0x00; 0xC0; 0x00; 0x00; 0x02]; [0x00; 0xC0; 0x00; 0x00; 0x02]])
  /\ (let '(out, w') := send exchange_command (bench_world [[0x61; 0x02]] frame3) in
      out = Returned (mkResponse [] 0x6102) /\
      length (transmitted (trace w')) = 1%nat).
Proof.
  split; [reflexivity|]. split; [reflexivity|].
  vm_compute. split; reflexivity.
Qed.

(** ** The properties on the test bench *)

Lemma exchange_returns :
  send exchange_command exchange_world
  = (Returned (mkResponse [0x01; 0x02; 0x03] 0x9000), exchange_after).
Proof.
  apply injective_projections; [|reflexivity].
  change (fst (send exchange_command exchange_world)
          = Returned (mkResponse [0x01; 0x02; 0x03] 0x9000)).
  vm_compute. reflexivity.
Qed.

Lemma send_iv_chain_witness :
  (exists (c : MockChannel) (rawResponse : QByteArray),
      let mac := request_mac (d exchange_world) exchange_command in
      let apdu := request_apdu (d exchange_world) exchange_command in
      let data := resp_data (Response_of rawResponse) in
      channel exchange_world = Some c /\
      fst (MockChannel_transmit c apdu) = inr rawResponse /\
      firstn 16 (skipn 5 apdu) = mac /\
      if isOK (Response_of rawResponse) && negb (QBA.isEmpty data)
      then
        QBA.left 16 data
        = calculateMAC (macKey (d exchange_world)) (response_meta data)
                       (QBA.mid 16 data) /\
        trace exchange_after
        = trace exchange_world ++ [IvUpdated (iv (d exchange_world)) mac;
                                   Transmit apdu;
                                   IvUpdated mac (QBA.left 16 data)] /\
        iv (d exchange_after) = QBA.left 16 data
      else
        trace exchange_after
        = trace exchange_world ++ [IvUpdated (iv (d exchange_world)) mac;
                                   Transmit apdu] /\
        iv (d exchange_after) = mac)
  /\ iv (d exchange_after) = QBA.left 16 exchange_reply.
Proof.
  split.
  - exact (send_iv_chain exchange_command exchange_world exchange_after
             (mkResponse [0x01; 0x02; 0x03] 0x9000) exchange_returns).
  - vm_compute. reflexivity.
Defined.

Lemma openSecureChannel_open_flag_witness :
  isOpen (d handshake_world) = false
  /\ isOpen (d (snd (openSecureChannel bench_pairing handshake_world)))
     = keys_derived bench_pairing handshake_world
  /\ keys_derived bench_pairing handshake_world = true.
Proof.
  split; [reflexivity|]. split.
  - exact (proj1 (proj2 openSecureChannel_open_flag bench_pairing handshake_world
                    (snd (openSecureChannel bench_pairing handshake_world))
                    (fst (openSecureChannel bench_pairing handshake_world))
                    eq_refl (surjective_pairing _))).
  - vm_compute. reflexivity.
Defined.

(** C3 as stated fails: the card accepts OPEN SECURE CHANNEL and then
    refuses MUTUALLY AUTHENTICATE with [69 82]; [openSecureChannel] returns
    false with "Mutual authentication failed", the MUTUALLY AUTHENTICATE
    request (INS [0x11]) went out through the secure channel, and the channel
    is open although no mutual authentication ever succeeded. *)
Lemma open_before_mutual_authentication :
  let '(out, w') := openSecureChannel bench_pairing handshake_world in
  isOpen (d handshake_world) = false /\
  out = Returned false /\
  m_lastError w' = "Mutual authentication failed"%string /\
  map (fun apdu => nth 1 apdu 0) (transmitted (trace w')) = [0x10; 0x11] /\
  isOpen (d w') = true.
Proof. vm_compute. now splits. Qed.

(** Scenario S5: SW [63 C2] is a wrong PIN with two attempts left, and the
    session stays open. *)
Example verifyPIN_63C2 :
  let '(out, w') := verifyPIN "000000" (bench_world [] [0x63; 0xC2]) in
  out = Returned false /\ m_remainingPINAttempts w' = 2 /\
  m_lastError w' = "Wrong PIN. Remaining attempts: 2"%string /\
  isOpen (d w') = true.
Proof. vm_compute. now splits. Qed.

(** C4 does not hold of the code: the test is passed by status words that
    are not [63 Cx].  The card answers VERIFY PIN with [6F C2]:
    [(0x6FC2 & 0xFFF0) <> 0x63C0], yet [verifyPIN] reports a wrong PIN with
    two attempts left; [unblockPIN] does the same for the PUK. *)
Theorem verifyPIN_misclassifies_6FC2 :
  Z.land 0x6FC2 0xFFF0 <> 0x63C0 /\
  (let '(out, w') := verifyPIN "000000" (bench_world [] [0x6F; 0xC2]) in
   out = Returned false /\ m_remainingPINAttempts w' = 2 /\
   m_lastError w' = "Wrong PIN. Remaining attempts: 2"%string) /\
  (let '(out, w') := unblockPIN "123456789012" "000000"
                               (bench_world [] [0x6F; 0xC2]) in
   out = Returned false /\
   m_lastError w' = "Wrong PUK. Remaining attempts: 2"%string).
Proof.
  split; [discriminate|]. split; vm_compute; now splits.
Qed.

Lemma reset_keeps_handshake_witness :
  let p := SecureChannel_reset (d handshake_world) in
  (iv p = [] /\ encKey p = [] /\ macKey p = [] /\ isOpen p = false /\
   openedIndex p = -1 /\ cardPublicKey p = None)
  /\ exists priv pub card s r',
      EVP_PKEY_keygen (rng (fresh_world [QBA.fill 48 0x22 ++ [0x90; 0x00]]
                                        [0x69; 0x82]))
      = (Some (priv, pub), r') /\
      EC_POINT_oct2point card_key = Some card /\
      EVP_PKEY_derive priv card = Some s /\
      secret p = s /\ rawPublicKeyData p = pub /\ privateKey p = Some priv.
Proof.
  exact (reset_keeps_handshake card_key
           (fresh_world [QBA.fill 48 0x22 ++ [0x90; 0x00]] [0x69; 0x82])
           handshake_world eq_refl).
Defined.

(** C5 as stated fails: after SELECT has seeded the handshake, [reset]
    leaves the 32-byte shared secret, the 65-byte public key and the private
    key where they were. *)
Lemma reset_leaves_handshake_state :
  let p := SecureChannel_reset (d handshake_world) in
  secret p = secret (d handshake_world) /\ length (secret p) = 32%nat /\
  length (rawPublicKeyData p) = 65%nat /\ privateKey p <> None.
Proof. vm_compute. splits; try reflexivity. discriminate. Qed.

Lemma hot_plug_first_answer :
  send (verify_command "000000") hot_plug_world
  = (Returned (mkResponse [] 0x6f05),
     snd (send (verify_command "000000") hot_plug_world)).
Proof.
  apply injective_projections; [|reflexivity].
  change (fst (send (verify_command "000000") hot_plug_world)
          = Returned (mkResponse [] 0x6f05)).
  vm_compute. reflexivity.
Qed.

Lemma hot_plug_retry_only_in_verifyPIN_witness :
  isOpen (d hot_plug_world) = true /\
  (let w1 := snd (send (verify_command "000000") hot_plug_world) in
   let out := fst (verifyPIN "000000" hot_plug_world) in
   let w' := snd (verifyPIN "000000" hot_plug_world) in
   exists (t2 : list Event) (out2 : Outcome Response) (w2 : World bench),
     send (verify_command "000000") (with_event (Msleep 50) w1) = (out2, w2) /\
     trace w2 = trace w1 ++ Msleep 50 :: t2 /\ slept t2 = [] /\
     transmitted t2 = [request_apdu (d w1) (verify_command "000000")] /\
     trace w' = trace w1 ++ Msleep 50 :: t2 /\
     match out2 with
     | Returned r2 => verifyPIN_reports r2 w2 out w'
     | Thrown e => out = Thrown e /\ w' = w2
     end) /\
  (exists w',
      call (GetData 0) (bench_world [] [0x6F; 0x05])
      = (Returned (VBytes []), w') /\
      m_lastError w' = "APDU error: SW=6f05"%string /\
      slept (trace w') = slept (trace (bench_world [] [0x6F; 0x05])) /\
      length (transmitted (trace w'))
      = S (length (transmitted (trace (bench_world [] [0x6F; 0x05]))))).
Proof.
  split; [reflexivity|]. split.
  - exact (proj1 hot_plug_retry_only_in_verifyPIN "000000"%string hot_plug_world
             (snd (send (verify_command "000000") hot_plug_world))
             (snd (verifyPIN "000000" hot_plug_world))
             (mkResponse [] 0x6f05)
             (fst (verifyPIN "000000" hot_plug_world))
             eq_refl hot_plug_first_answer (surjective_pairing _)).
  - assert (Hop : forall pin, GetData 0 <> VerifyPIN pin) by discriminate.
    exact (proj2 (proj1 (proj2 hot_plug_retry_only_in_verifyPIN) (GetData 0) Hop)
             (bench_world [] [0x6F; 0x05]) (mkMockChannel [] [0x6F; 0x05])
             eq_refl eq_refl eq_refl (fun apdu => eq_refl)).
Defined.

(** C7 as stated fails: GET DATA is the first command after the channel is
    opened and the card answers it with [6f 05]; [getData] returns at once
    with the error, having sent one APDU and slept not at all, while
    [verifyPIN] on the same card sleeps 50 ms, sends a second APDU and
    succeeds. *)
Lemma no_retry_outside_verifyPIN :
  (let '(out, w') := getData 0 hot_plug_world in
   out = Returned [] /\ m_lastError w' = "APDU error: SW=6f05"%string /\
   length (transmitted (trace w')) = 1%nat /\ slept (trace w') = []) /\
  (let '(out, w') := verifyPIN "000000" hot_plug_world in
   out = Returned true /\
   length (transmitted (trace w')) = 2%nat /\ slept (trace w') = [50]).
Proof. split; vm_compute; now splits. Qed.

Lemma parseDerivationPath_serialization_witness :
  parseDerivationPath (text [0x20; 0xA0] ++ ("m/" ++ join ["44'"; "60h"; "x"; "7"])
                       ++ text [0x09; 0x2028])%string
  = (BE32 (Z.setbit 44 31) ++ BE32 (Z.setbit 60 31) ++ BE32 7, P1DeriveKeyFromMaster).
Proof.
  exact (parseDerivationPath_serialization [0x20; 0xA0] [0x09; 0x2028] FromMaster
           ["44'"; "60h"; "x"; "7"]%string eq_refl eq_refl eq_refl eq_refl
           (fun E => match E with end) eq_refl).
Defined.

(** C8 as stated fails: a component that is not a number is dropped without
    any error, so ["m/44'/x/0"] parses to the same bytes as ["m/44'/0"]; and
    a component of 2^31 or more has bit [0x80000000] set without ending in
    ['] or [h]. *)
Lemma invalid_component_is_skipped :
  parseDerivationPath "m/44'/x/0"
  = ([0x80; 0x00; 0x00; 0x2C; 0x00; 0x00; 0x00; 0x00], P1DeriveKeyFromMaster)
  /\ parseDerivationPath "m/44'/x/0" = parseDerivationPath "m/44'/0"
  /\ parseDerivationPath "m/2147483648"
     = ([0x80; 0x00; 0x00; 0x00], P1DeriveKeyFromMaster).
Proof. splits; vm_compute; reflexivity. Qed.

Lemma pair_cryptogram_mismatch_witness :
  exists w',
    pair "KeycardTest" pairing_world = (Returned PairingInfo_default, w') /\
    m_lastError w' = "Invalid card cryptogram - wrong pairing password"%string /\
    trace w'
    = trace pairing_world
      ++ [Transmit (serialize (buildCommand INS_PAIR P1PairFirstStep 0
                                            pairing_challenge))] /\
    m_pairingInfo w' = m_pairingInfo pairing_world /\ d w' = d pairing_world.
Proof.
  refine (pair_cryptogram_mismatch "KeycardTest"%string pairing_world
            (mkMockChannel [QBA.fill 64 0x33 ++ [0x90; 0x00]] [])
            (mkMockChannel [] [])
            pairing_challenge (QBA.fill 64 0x33 ++ [0x90; 0x00]) 1
            eq_refl eq_refl eq_refl eq_refl _ _).
  - vm_compute. lia.
  - vm_compute. discriminate.
Defined.

Lemma call_on_closed_channel_witness :
  call (GetData 0) (fresh_world [] [])
  = (Returned (VBytes []),
     with_lastError "Secure channel not open" (fresh_world [] []))
  /\ forall command : Command,
       send command (fresh_world [] [])
       = (Thrown (runtime_error "Secure channel not open"), fresh_world [] []).
Proof.
  exact (call_on_closed_channel (GetData 0) (fresh_world [] []) eq_refl).
Defined.

(** C10 as stated fails: [loadSeed] with a seed that is not 64 bytes long,
    on a channel that is not open, leaves "Seed must be 64 bytes" in
    [m_lastError], not "Secure channel not open"; so do the three signing
    operations with data that is not 32 bytes long and [setPinlessPath] with
    a path that is not absolute. *)
Lemma validation_precedes_the_channel_check :
  isOpen (d (fresh_world [] [])) = false /\
  m_lastError (snd (call (LoadSeed []) (fresh_world [] [])))
  = "Seed must be 64 bytes"%string /\
  m_lastError (snd (call (Sign [0x00]) (fresh_world [] [])))
  = "Data must be 32 bytes (hash)"%string /\
  m_lastError (snd (call (SetPinlessPath "../0") (fresh_world [] [])))
  = "Pinless path must be absolute (start with m/)"%string /\
  m_lastError (snd (call (LoadSeed []) (fresh_world [] [])))
  <> "Secure channel not open"%string.
Proof. splits; try (vm_compute; reflexivity). vm_compute. discriminate. Qed.

(** ** AES-256 and the channel's encryption *)

Lemma in_byte_values (b : Z) : is_byte b -> In b AES256.byte_values.
Proof.
  intros Hb. unfold AES256.byte_values.
  replace b with (Z.of_nat (Z.to_nat b)) by (unfold is_byte in Hb; lia).
  apply in_map, in_seq. unfold is_byte in Hb. lia.
Qed.

Lemma for_all_bytes (f : Z -> bool) :
  forallb f AES256.byte_values = true -> forall b, is_byte b -> f b = true.
Proof.
  intros H b Hb. rewrite forallb_forall in H. apply H, in_byte_values, Hb.
Qed.

Lemma for_all_byte_pairs (f : Z -> Z -> bool) :
  forallb (fun a => forallb (f a) AES256.byte_values) AES256.byte_values = true ->
  forall a b, is_byte a -> is_byte b -> f a b = true.
Proof.
  intros H a b Ha Hb.
  apply (for_all_bytes (f a)); [|exact Hb].
  exact (for_all_bytes (fun a => forallb (f a) AES256.byte_values) H a Ha).
Qed.

Lemma byteb_spec (b : Z) : byteb b = true <-> is_byte b.
Proof. unfold byteb, is_byte. rewrite andb_true_iff, Z.leb_le, Z.ltb_lt. tauto. Qed.

Lemma lxor_byte (a b : Z) : is_byte a -> is_byte b -> is_byte (Z.lxor a b).
Proof.
  intros Ha Hb. apply byteb_spec.
  apply (for_all_byte_pairs (fun a b => byteb (Z.lxor a b)));
    [vm_compute; reflexivity|exact Ha|exact Hb].
Qed.

Lemma xtime_byte (a : Z) : is_byte a -> is_byte (AES256.xtime a).
Proof.
  intros Ha. apply byteb_spec.
  apply (for_all_bytes (fun a => byteb (AES256.xtime a)));
    [vm_compute; reflexivity|exact Ha].
Qed.

Lemma xtime_lxor (a b : Z) :
  is_byte a -> is_byte b ->
  AES256.xtime (Z.lxor a b) = Z.lxor (AES256.xtime a) (AES256.xtime b).
Proof.
  intros Ha Hb. apply Z.eqb_eq.
  apply (for_all_byte_pairs
           (fun a b => AES256.xtime (Z.lxor a b)
                       =? Z.lxor (AES256.xtime a) (AES256.xtime b)));
    [vm_compute; reflexivity|exact Ha|exact Hb].
Qed.

Lemma gmul_fuel_byte (n : nat) :
  forall a b, is_byte a -> is_byte (AES256.gmul_fuel n a b).
Proof.
  induction n as [|n IH]; intros a b Ha; cbn [AES256.gmul_fuel].
  - unfold is_byte. lia.
  - apply lxor_byte; [destruct (Z.testbit b 0); [exact Ha|unfold is_byte; lia]|].
    apply IH, xtime_byte, Ha.
Qed.

Lemma gmul_byte (a b : Z) : is_byte a -> is_byte (AES256.gmul a b).
Proof. apply gmul_fuel_byte. Qed.

Lemma lxor_medial (a b c d : Z) :
  Z.lxor (Z.lxor a b) (Z.lxor c d) = Z.lxor (Z.lxor a c) (Z.lxor b d).
Proof. apply Z.bits_inj'. intros n _. rewrite !Z.lxor_spec. btauto. Qed.

Lemma gmul_fuel_lxor (n : nat) :
  forall a b c, is_byte a -> is_byte b ->
    AES256.gmul_fuel n (Z.lxor a b) c
    = Z.lxor (AES256.gmul_fuel n a c) (AES256.gmul_fuel n b c).
Proof.
  induction n as [|n IH]; intros a b c Ha Hb; cbn [AES256.gmul_fuel]; [reflexivity|].
  rewrite xtime_lxor, IH by auto using xtime_byte.
  rewrite (lxor_medial (if Z.testbit c 0 then a else 0)).
  f_equal. destruct (Z.testbit c 0); reflexivity.
Qed.

Lemma gmul_lxor (a b c : Z) :
  is_byte a -> is_byte b ->
  AES256.gmul (Z.lxor a b) c = Z.lxor (AES256.gmul a c) (AES256.gmul b c).
Proof. apply gmul_fuel_lxor. Qed.

Lemma xor16 (t00 t01 t02 t03 t10 t11 t12 t13 t20 t21 t22 t23 t30 t31 t32 t33 : Z) :
  Z.lxor (Z.lxor (Z.lxor (Z.lxor t00 t01) (Z.lxor t02 t03))
                 (Z.lxor (Z.lxor t10 t11) (Z.lxor t12 t13)))
         (Z.lxor (Z.lxor (Z.lxor t20 t21) (Z.lxor t22 t23))
                 (Z.lxor (Z.lxor t30 t31) (Z.lxor t32 t33)))
  = Z.lxor (Z.lxor (Z.lxor (Z.lxor t00 t13) (Z.lxor t22 t31))
                   (Z.lxor (Z.lxor t01 t10) (Z.lxor t23 t32)))
           (Z.lxor (Z.lxor (Z.lxor t02 t11) (Z.lxor t20 t33))
                   (Z.lxor (Z.lxor t03 t12) (Z.lxor t21 t30))).
Proof.
  apply Z.bits_inj'. intros n _. rewrite !Z.lxor_spec. btauto.
Qed.

Lemma gmul_0_l (c : Z) : AES256.gmul 0 c = 0.
Proof.
  unfold AES256.gmul.
  assert (H : forall n c, AES256.gmul_fuel n 0 c = 0).
  { induction n as [|n IH]; intros c'; cbn [AES256.gmul_fuel]; [reflexivity|].
    change (AES256.xtime 0) with 0. rewrite IH. now destruct (Z.testbit c' 0). }
  apply H.
Qed.

Lemma mix_column_inverse_terms (a : Z) :
  is_byte a ->
  let g := AES256.gmul in
  Z.lxor (Z.lxor (g (g a 2) 14) (g (g a 1) 11)) (Z.lxor (g (g a 1) 13) (g (g a 3) 9)) = a /\
  Z.lxor (Z.lxor (g (g a 3) 14) (g (g a 2) 11)) (Z.lxor (g (g a 1) 13) (g (g a 1) 9)) = 0 /\
  Z.lxor (Z.lxor (g (g a 1) 14) (g (g a 3) 11)) (Z.lxor (g (g a 2) 13) (g (g a 1) 9)) = 0 /\
  Z.lxor (Z.lxor (g (g a 1) 14) (g (g a 1) 11)) (Z.lxor (g (g a 3) 13) (g (g a 2) 9)) = 0.
Proof.
  intros Ha. cbv zeta.
  pose proof (for_all_bytes
    (fun a =>
       let g := AES256.gmul in
       (Z.lxor (Z.lxor (g (g a 2) 14) (g (g a 1) 11)) (Z.lxor (g (g a 1) 13) (g (g a 3) 9)) =? a) &&
       (Z.lxor (Z.lxor (g (g a 3) 14) (g (g a 2) 11)) (Z.lxor (g (g a 1) 13) (g (g a 1) 9)) =? 0) &&
       (Z.lxor (Z.lxor (g (g a 1) 14) (g (g a 3) 11)) (Z.lxor (g (g a 2) 13) (g (g a 1) 9)) =? 0) &&
       (Z.lxor (Z.lxor (g (g a 1) 14) (g (g a 1) 11)) (Z.lxor (g (g a 3) 13) (g (g a 2) 9)) =? 0))
    ltac:(vm_compute; reflexivity) a Ha) as H.
  cbv zeta in H. rewrite !andb_true_iff, !Z.eqb_eq in H. tauto.
Qed.

Lemma mix_column_inverse (a0 a1 a2 a3 : Z) :
  is_byte a0 -> is_byte a1 -> is_byte a2 -> is_byte a3 ->
  let M := AES256.mix_column 2 3 1 1 in
  AES256.mix_column 14 11 13 9 (M a0 a1 a2 a3) (M a1 a2 a3 a0) (M a2 a3 a0 a1)
                    (M a3 a0 a1 a2) = a0.
Proof.
  intros H0 H1 H2 H3. cbv zeta. unfold AES256.mix_column.
  assert (G : forall a c, is_byte a -> is_byte (AES256.gmul a c))
    by (intros; now apply gmul_byte).
  rewrite !gmul_lxor by auto using lxor_byte.
  rewrite xor16.
  destruct (mix_column_inverse_terms a0 H0) as (-> & _).
  destruct (mix_column_inverse_terms a1 H1) as (_ & -> & _).
  destruct (mix_column_inverse_terms a2 H2) as (_ & _ & -> & _).
  destruct (mix_column_inverse_terms a3 H3) as (_ & _ & _ & ->).
  now rewrite !Z.lxor_0_r.
Qed.

Lemma mix_column_byte (m0 m1 m2 m3 a0 a1 a2 a3 : Z) :
  is_byte a0 -> is_byte a1 -> is_byte a2 -> is_byte a3 ->
  is_byte (AES256.mix_column m0 m1 m2 m3 a0 a1 a2 a3).
Proof.
  intros. unfold AES256.mix_column. auto using lxor_byte, gmul_byte.
Qed.

(** a block: sixteen bytes *)

Ltac block_cases s Hl Hb :=
  do 16 (destruct s as [|? s]; [discriminate Hl|]);
  destruct s; [clear Hl|discriminate Hl];
  repeat match type of Hb with
         | Forall _ (_ :: _) =>
             let H := fresh "Hb" in
             apply Forall_cons_iff in Hb; destruct Hb as [H Hb]
         end;
  clear Hb.

Lemma inv_mix_columns_mix_columns (s : list Z) :
  is_block s -> AES256.inv_mix_columns (AES256.mix_columns s) = s.
Proof.
  intros [Hl Hb]. block_cases s Hl Hb.
  cbn -[AES256.mix_column].
  rewrite !mix_column_inverse by assumption. reflexivity.
Qed.

Lemma mix_columns_block (s : list Z) : is_block s -> is_block (AES256.mix_columns s).
Proof.
  intros [Hl Hb]. block_cases s Hl Hb.
  cbn -[AES256.mix_column]. split; [reflexivity|].
  repeat (apply Forall_cons; [apply mix_column_byte; assumption|]). constructor.
Qed.

Lemma sbox_table_bytes : Forall is_byte AES256.sbox_table.
Proof.
  apply Forall_forall. intros b Hb. apply byteb_spec.
  assert (H : forallb byteb AES256.sbox_table = true) by (vm_compute; reflexivity).
  rewrite forallb_forall in H. now apply H.
Qed.

Lemma inv_sbox_table_bytes : Forall is_byte AES256.inv_sbox_table.
Proof.
  apply Forall_forall. intros b Hb. apply byteb_spec.
  assert (H : forallb byteb AES256.inv_sbox_table = true) by (vm_compute; reflexivity).
  rewrite forallb_forall in H. now apply H.
Qed.

Lemma nth_byte (l : list Z) (i : nat) : Forall is_byte l -> is_byte (nth i l 0).
Proof.
  intros H. destruct (nth_in_or_default i l 0) as [Hin| ->].
  - rewrite Forall_forall in H. now apply H.
  - unfold is_byte. lia.
Qed.

Lemma sub_byte_byte (b : Z) : is_byte (AES256.sub_byte b).
Proof. apply nth_byte, sbox_table_bytes. Qed.

Lemma inv_sub_byte_byte (b : Z) : is_byte (AES256.inv_sub_byte b).
Proof. apply nth_byte, inv_sbox_table_bytes. Qed.

Lemma inv_sub_byte_sub_byte (b : Z) :
  is_byte b -> AES256.inv_sub_byte (AES256.sub_byte b) = b.
Proof.
  intros Hb. apply Z.eqb_eq.
  apply (for_all_bytes (fun b => AES256.inv_sub_byte (AES256.sub_byte b) =? b));
    [vm_compute; reflexivity|exact Hb].
Qed.

#[local] Arguments AES256.sub_byte : simpl never.
#[local] Arguments AES256.inv_sub_byte : simpl never.

Lemma inv_sub_bytes_sub_bytes (s : list Z) :
  is_block s -> AES256.inv_sub_bytes (AES256.sub_bytes s) = s.
Proof.
  intros [Hl Hb]. block_cases s Hl Hb.
  cbn -[AES256.sub_byte AES256.inv_sub_byte].
  rewrite !inv_sub_byte_sub_byte by assumption. reflexivity.
Qed.

Lemma sub_bytes_block (s : list Z) : is_block (AES256.sub_bytes s).
Proof.
  split; [reflexivity|]. unfold AES256.sub_bytes.
  apply Forall_forall. intros b Hb. apply in_map_iff in Hb as (i & <- & _).
  apply sub_byte_byte.
Qed.

Lemma inv_shift_rows_shift_rows (s : list Z) :
  length s = 16%nat -> AES256.inv_shift_rows (AES256.shift_rows s) = s.
Proof.
  intros Hl.
  do 16 (destruct s as [|? s]; [discriminate Hl|]);
    destruct s; [|discriminate Hl].
  reflexivity.
Qed.

Lemma shift_rows_block (s : list Z) : is_block s -> is_block (AES256.shift_rows s).
Proof.
  intros [Hl Hb]. block_cases s Hl Hb.
  split; [reflexivity|]. cbn. repeat (apply Forall_cons; [assumption|]). constructor.
Qed.

Lemma lxor_cancel (x k : Z) : Z.lxor (Z.lxor x k) k = x.
Proof. now rewrite Z.lxor_assoc, Z.lxor_nilpotent, Z.lxor_0_r. Qed.

Lemma add_round_key_involutive (rk s : list Z) :
  length s = 16%nat -> AES256.add_round_key rk (AES256.add_round_key rk s) = s.
Proof.
  intros Hl.
  do 16 (destruct s as [|? s]; [discriminate Hl|]);
    destruct s; [|discriminate Hl].
  unfold AES256.add_round_key, AES256.sixteen. cbn [seq map].
  cbn [AES256.at_ nth]. rewrite !lxor_cancel. reflexivity.
Qed.

Lemma add_round_key_block (rk s : list Z) :
  Forall is_byte rk -> Forall is_byte s -> is_block (AES256.add_round_key rk s).
Proof.
  intros Hk Hs. split; [reflexivity|]. unfold AES256.add_round_key.
  apply Forall_forall. intros b Hb. apply in_map_iff in Hb as (i & <- & _).
  apply lxor_byte; apply nth_byte; assumption.
Qed.

Lemma rcon_byte (j : nat) : is_byte (AES256.rcon j).
Proof.
  unfold AES256.rcon. induction (j - 1)%nat as [|n IH]; cbn [Nat.iter nat_rect].
  - unfold is_byte. lia.
  - apply xtime_byte, IH.
Qed.

Lemma next_word_bytes (w : list Z) (i : nat) :
  Forall is_byte w -> Forall is_byte (AES256.next_word w i).
Proof.
  intros Hw. unfold AES256.next_word.
  apply Forall_forall. intros b Hb. apply in_map_iff in Hb as (j & <- & _).
  apply lxor_byte; [apply nth_byte, Hw|].
  unfold AES256.at_ at 1. apply nth_byte.
  destruct (i mod 8 =? 0)%nat; [|destruct (i mod 8 =? 4)%nat];
    repeat (apply Forall_cons;
            [first [apply lxor_byte; [apply sub_byte_byte|apply rcon_byte]
                   |apply sub_byte_byte|apply nth_byte, Hw]|]);
    constructor.
Qed.

Lemma key_expansion_bytes (key : QByteArray) :
  Forall is_byte key -> Forall is_byte (AES256.key_expansion key).
Proof.
  intros Hk. unfold AES256.key_expansion.
  assert (H0 : Forall is_byte (map (fun i => AES256.at_ key i) (seq 0 32))).
  { apply Forall_forall. intros b Hb. apply in_map_iff in Hb as (j & <- & _).
    apply nth_byte, Hk. }
  revert H0. generalize (map (fun i => AES256.at_ key i) (seq 0 32)).
  induction (seq 8 52) as [|i l IH]; intros w Hw; cbn [fold_left]; [exact Hw|].
  apply IH, Forall_app. split; [exact Hw|apply next_word_bytes, Hw].
Qed.

Lemma Forall_firstn_bytes (n : nat) (l : list Z) :
  Forall is_byte l -> Forall is_byte (firstn n l).
Proof.
  intros H. rewrite <- (firstn_skipn n l) in H. now apply Forall_app in H.
Qed.

Lemma Forall_skipn_bytes (n : nat) (l : list Z) :
  Forall is_byte l -> Forall is_byte (skipn n l).
Proof.
  intros H. rewrite <- (firstn_skipn n l) in H. now apply Forall_app in H.
Qed.

Lemma round_key_bytes (w : list Z) (r : nat) :
  Forall is_byte w -> Forall is_byte (AES256.round_key w r).
Proof.
  intros Hw. unfold AES256.round_key.
  apply Forall_firstn_bytes, Forall_skipn_bytes, Hw.
Qed.

Lemma is_block_bytes (s : list Z) : is_block s -> Forall is_byte s.
Proof. now intros [_ H]. Qed.

Lemma is_block_length (s : list Z) : is_block s -> length s = 16%nat.
Proof. now intros [H _]. Qed.

Section Rounds.
Variable w : list Z.
Hypothesis Hw : Forall is_byte w.

Local Abbreviation enc_round :=
  (fun (s : list Z) (r : nat) =>
     AES256.add_round_key (AES256.round_key w r)
       (AES256.mix_columns (AES256.shift_rows (AES256.sub_bytes s)))).
Local Abbreviation dec_round :=
  (fun (s : list Z) (r : nat) =>
     AES256.inv_mix_columns
       (AES256.add_round_key (AES256.round_key w r)
          (AES256.inv_sub_bytes (AES256.inv_shift_rows s)))).

Lemma enc_round_block (s : list Z) (r : nat) : is_block (enc_round s r).
Proof.
  apply add_round_key_block; [apply round_key_bytes, Hw|].
  apply is_block_bytes, mix_columns_block, shift_rows_block, sub_bytes_block.
Qed.

Lemma undo_sub_shift (s : list Z) :
  is_block s ->
  AES256.inv_sub_bytes (AES256.inv_shift_rows (AES256.shift_rows (AES256.sub_bytes s)))
  = s.
Proof.
  intros Hs. rewrite inv_shift_rows_shift_rows by reflexivity.
  now apply inv_sub_bytes_sub_bytes.
Qed.

Lemma dec_round_enc_round (s : list Z) (r : nat) :
  is_block s ->
  dec_round (AES256.shift_rows (AES256.sub_bytes (enc_round s r))) r
  = AES256.shift_rows (AES256.sub_bytes s).
Proof.
  intros Hs. cbv beta.
  rewrite undo_sub_shift by apply enc_round_block.
  rewrite add_round_key_involutive by reflexivity.
  apply inv_mix_columns_mix_columns, shift_rows_block, sub_bytes_block.
Qed.

Lemma rounds_undone (rs : list nat) :
  forall s, is_block s ->
    fold_left dec_round (rev rs)
      (AES256.shift_rows (AES256.sub_bytes (fold_left enc_round rs s)))
    = AES256.shift_rows (AES256.sub_bytes s).
Proof.
  induction rs as [|r rs IH]; intros s Hs; [reflexivity|].
  cbn [fold_left rev]. rewrite fold_left_app. cbn [fold_left].
  rewrite IH by apply enc_round_block.
  now apply (dec_round_enc_round s r).
Qed.

End Rounds.

Lemma aes256_decrypt_encrypt_block (key block : QByteArray) :
  Forall is_byte key -> is_block block ->
  AES256.decrypt_block key (AES256.encrypt_block key block) = block.
Proof.
  intros Hk Hb. unfold AES256.decrypt_block, AES256.encrypt_block.
  set (w := AES256.key_expansion key).
  assert (Hw : Forall is_byte w) by apply key_expansion_bytes, Hk.
  rewrite add_round_key_involutive by reflexivity.
  assert (H0 : is_block (AES256.add_round_key (AES256.round_key w 0) block))
    by (apply add_round_key_block; [apply round_key_bytes, Hw|apply Hb]).
  rewrite (rounds_undone w Hw (seq 1 13) _ H0).
  rewrite undo_sub_shift by exact H0.
  apply add_round_key_involutive, Hb.
Qed.

Lemma aes256_encrypt_block_is_block (key block : QByteArray) :
  Forall is_byte key -> is_block (AES256.encrypt_block key block).
Proof.
  intros Hk. unfold AES256.encrypt_block.
  apply add_round_key_block;
    [apply round_key_bytes, key_expansion_bytes, Hk|].
  apply is_block_bytes, shift_rows_block, sub_bytes_block.
Qed.

(** ** CBC *)

Lemma QBA_xor_cancel (a : QByteArray) :
  forall b, QBA.xor (QBA.xor a b) b = a.
Proof.
  induction a as [|x a IH]; intros b; cbn [QBA.xor]; [reflexivity|].
  cbn [hd tl]. now rewrite lxor_cancel, IH.
Qed.

Lemma QBA_xor_block (a b : QByteArray) :
  is_block a -> Forall is_byte b -> is_block (QBA.xor a b).
Proof.
  intros [Hl Ha] Hb. split.
  - rewrite <- Hl. clear. revert b.
    induction a as [|x a IH]; intros b; cbn [QBA.xor length]; [reflexivity|].
    now rewrite IH.
  - clear Hl. revert b Hb.
    induction Ha as [|x a Hx Ha IH]; intros b Hb; cbn [QBA.xor]; [constructor|].
    constructor.
    + apply lxor_byte; [exact Hx|]. destruct Hb; [unfold is_byte; cbn; lia|assumption].
    + apply IH. destruct Hb; [constructor|assumption].
Qed.

Lemma cbc_decrypt_encrypt_blocks (key : QByteArray) (bs : list QByteArray) :
  Forall is_byte key ->
  Forall is_block bs ->
  forall iv, Forall is_byte iv ->
    cbc_decrypt_blocks key iv (cbc_encrypt_blocks key iv bs) = bs.
Proof.
  intros Hk Hbs. induction Hbs as [|b bs Hb Hbs IH]; intros iv Hiv; [reflexivity|].
  cbn [cbc_encrypt_blocks cbc_decrypt_blocks]. cbv zeta.
  rewrite aes256_decrypt_encrypt_block by (trivial; now apply QBA_xor_block).
  rewrite QBA_xor_cancel. f_equal.
  apply IH, is_block_bytes, aes256_encrypt_block_is_block, Hk.
Qed.

Lemma blocks16_concat (cs : list QByteArray) :
  Forall (fun c => length c = 16%nat) cs -> blocks16 (concat cs) = cs.
Proof.
  induction 1 as [|c cs Hc Hcs IH]; [reflexivity|].
  cbn [concat]. now rewrite blocks16_cons, IH.
Qed.

Lemma Forall_concat_bytes (bs : list QByteArray) :
  Forall is_byte (concat bs) -> Forall (Forall is_byte) bs.
Proof.
  induction bs as [|b bs IH]; cbn [concat]; intros H; [constructor|].
  apply Forall_app in H as [H1 H2]. constructor; [exact H1|now apply IH].
Qed.

Lemma blocks16_blocks (data : QByteArray) (n : nat) :
  length data = (16 * n)%nat -> Forall is_byte data ->
  Forall is_block (blocks16 data) /\ concat (blocks16 data) = data.
Proof.
  intros Hl Hb.
  destruct (chunks16_whole n (length data) data Hl (le_n _)) as (_ & Hc & Hf).
  fold (blocks16 data) in Hc, Hf. split; [|exact Hc].
  rewrite <- Hc in Hb. apply Forall_concat_bytes in Hb.
  apply Forall_forall. intros b Hin. rewrite Forall_forall in Hf, Hb.
  split; [now apply Hf|now apply Hb].
Qed.

Lemma EVP_decrypt_encrypt (key iv data : QByteArray) (n : nat) :
  Forall is_byte key -> Forall is_byte iv -> Forall is_byte data ->
  length data = (16 * n)%nat ->
  exists encrypted,
    EVP_aes_256_cbc_encrypt key iv data = Some encrypted /\
    length encrypted = (16 * n)%nat /\
    EVP_aes_256_cbc_decrypt key iv encrypted = Some data.
Proof.
  intros Hk Hiv Hd Hl.
  destruct (EVP_encrypt_whole key iv data n Hl) as [He Hlen].
  exists (aes256_cbc_encrypt key iv data). split; [exact He|]. split; [exact Hlen|].
  unfold EVP_aes_256_cbc_decrypt.
  assert (W : whole_blocks (aes256_cbc_encrypt key iv data) = true)
    by (apply whole_blocks_iff; eauto).
  rewrite W. unfold aes256_cbc_encrypt.
  destruct (blocks16_blocks data n Hl Hd) as [Hb Hc].
  rewrite blocks16_concat by apply cbc_encrypt_blocks_sizes.
  now rewrite cbc_decrypt_encrypt_blocks, Hc.
Qed.

Lemma pad_bytes (x : QByteArray) (block : nat) :
  Forall is_byte x -> Forall is_byte (Utils.pad x block).
Proof.
  intros Hx. unfold Utils.pad. apply Forall_app. split; [exact Hx|].
  apply Forall_app. split; [repeat constructor; unfold is_byte; lia|].
  apply Forall_forall. intros b Hb. apply repeat_spec in Hb as ->.
  unfold is_byte. lia.
Qed.

(** ** The secure exchange, end to end *)

Lemma bytes_check (l : list Z) : forallb byteb l = true -> Forall is_byte l.
Proof.
  intros H. apply Forall_forall. intros b Hb. apply byteb_spec.
  rewrite forallb_forall in H. now apply H.
Qed.

Lemma Response_of_success (data : QByteArray) :
  Response_of (data ++ [0x90; 0x00]) = mkResponse data 0x9000.
Proof.
  unfold Response_of. rewrite length_app. cbn [length].
  replace (length data + 2 <? 2)%nat with false by (symmetry; apply Nat.ltb_ge; lia).
  replace (length data + 2 - 2)%nat with (length data) by lia.
  unfold QBA.left. rewrite firstn_app, Nat.sub_diag, firstn_all. cbn [firstn].
  rewrite app_nil_r. rewrite !app_nth2 by lia.
  replace (length data - length data)%nat with 0%nat by lia.
  replace (S (length data) - length data)%nat with 1%nat by lia.
  reflexivity.
Qed.

Lemma cbc_encrypt_blocks_bytes (key : QByteArray) (bs : list QByteArray) :
  Forall is_byte key ->
  forall iv, Forall is_byte (concat (cbc_encrypt_blocks key iv bs)).
Proof.
  intros Hk. induction bs as [|b bs IH]; intros iv; cbn [cbc_encrypt_blocks concat];
    [constructor|].
  cbv zeta. apply Forall_app. split; [|apply IH].
  apply is_block_bytes, aes256_encrypt_block_is_block, Hk.
Qed.

Lemma fill_bytes (n : nat) (b : Z) : is_byte b -> Forall is_byte (QBA.fill n b).
Proof.
  intros Hb. apply Forall_forall. intros x Hx. now apply repeat_spec in Hx as ->.
Qed.

Lemma calculateMAC_bytes (macKey meta data : QByteArray) :
  Forall is_byte macKey -> Forall is_byte (calculateMAC macKey meta data).
Proof.
  intros Hk. unfold calculateMAC.
  assert (Hz : Forall is_byte (QBA.fill 16 0)) by (apply fill_bytes; unfold is_byte; lia).
  unfold EVP_aes_256_cbc_encrypt.
  destruct (whole_blocks meta); [|exact Hz].
  destruct (whole_blocks (mac_padding data)); [|exact Hz].
  destruct (_ <? 32)%nat; [exact Hz|].
  unfold QBA.mid2. apply Forall_firstn_bytes, Forall_skipn_bytes.
  now apply cbc_encrypt_blocks_bytes.
Qed.

Section EndToEnd.
Context {K : Constants} {P : Platform}.

Lemma open_set_iv (v : QByteArray) (p : Private P) : open (set_iv v p) = open p.
Proof. reflexivity. Qed.

Lemma decrypt_encrypt_bytes (p : Private P) (plaintext : QByteArray) :
  open p = true ->
  Forall is_byte (encKey p) -> Forall is_byte (iv p) ->
  Forall is_byte plaintext ->
  decrypt p (encrypt p plaintext) = plaintext.
Proof.
  intros Ho Hk Hiv Hx.
  unfold decrypt, encrypt. rewrite Ho. cbn [negb].
  destruct (EVP_decrypt_encrypt (encKey p) (iv p) (Utils.pad plaintext 16) _
              Hk Hiv (pad_bytes _ _ Hx) (pad16_length plaintext))
    as (encrypted & -> & Hlen & ->).
  destruct encrypted as [|c encrypted]; [cbn in Hlen; lia|].
  cbn [QBA.isEmpty]. apply unpad_pad.
Qed.

(** X3: [send] against a card that shares the session: when the card
    encrypts its reply under the request MAC as IV and prefixes the response
    MAC, [send] returns that reply in the clear (its last two bytes as the
    status word), keeps the channel open and takes the response MAC as the
    next IV. *)
Theorem send_decodes_reply (command : Command) (w : World P) (c : Card)
  (plain : QByteArray) :
  open (d w) = true -> channel w = Some c ->
  Forall is_byte (encKey (d w)) -> Forall is_byte (macKey (d w)) ->
  Forall is_byte plain ->
  fst (card_transmit c (request_apdu (d w) command))
  = inr (secure_reply (d w) command plain) ->
  exists w',
    send command w = (Returned (Response_of plain), w') /\
    iv (d w') = QBA.left 16 (secure_reply (d w) command plain) /\
    open (d w') = true.
Proof.
  intros Ho Hc Hk Hm Hx Ht.
  rewrite (send_open command w c Ho Hc). cbv zeta. rewrite Ht.
  unfold secure_reply. cbv zeta.
  assert (Hd2 : forall e c',
             d (with_event e (with_channel c' (sending command w)))
             = set_iv (request_mac (d w) command) (d w)) by reflexivity.
  remember (with_event (Transmit (request_apdu (d w) command)) _) as w2 eqn:Ew2.
  assert (Hdw2 : d w2 = set_iv (request_mac (d w) command) (d w))
    by (rewrite Ew2; apply Hd2).
  clear Hd2 Ew2.
  remember (set_iv (request_mac (d w) command) (d w)) as p' eqn:Ep.
  assert (Hop : open p' = true) by (rewrite Ep; exact Ho).
  assert (Hkp : encKey p' = encKey (d w)) by (rewrite Ep; reflexivity).
  assert (Hmp : macKey p' = macKey (d w)) by (rewrite Ep; reflexivity).
  assert (Hivp : iv p' = request_mac (d w) command) by (rewrite Ep; reflexivity).
  clear Ep.
  remember (encrypt p' plain) as rct eqn:Erct.
  assert (Hmeta : forall x : QByteArray,
             length x = 16%nat ->
             response_meta (x ++ rct) = response_meta (QBA.fill 16 0 ++ rct)).
  { intros x Hx16. unfold response_meta. rewrite !length_app, Hx16.
    unfold QBA.fill at 2. now rewrite repeat_length. }
  remember (calculateMAC (macKey p') (response_meta (QBA.fill 16 0 ++ rct)) rct)
    as rmac eqn:Ermac.
  assert (Hl : length rmac = 16%nat) by (rewrite Ermac; apply calculateMAC_length).
  rewrite app_assoc, Response_of_success.
  assert (Hmid : QBA.mid 16 (rmac ++ rct) = rct).
  { unfold QBA.mid. rewrite skipn_app, Hl, Nat.sub_diag, skipn_all2 by lia.
    reflexivity. }
  assert (Hleft : forall rest, QBA.left 16 (rmac ++ rest) = rmac).
  { intros rest. unfold QBA.left.
    rewrite firstn_app, Hl, Nat.sub_diag, firstn_all2 by lia.
    cbn [firstn]. apply app_nil_r. }
  assert (Hmac : calculateMAC (macKey (d w2)) (response_meta (rmac ++ rct))
                   (QBA.mid 16 (rmac ++ rct)) = rmac).
  { rewrite Hdw2, Hmid, (Hmeta rmac Hl). symmetry. exact Ermac. }
  assert (Hdec : decrypt (d w2) (QBA.mid 16 (rmac ++ rct)) = plain).
  { rewrite Hdw2, Hmid, Erct.
    apply decrypt_encrypt_bytes; [exact Hop|now rewrite Hkp| |exact Hx].
    rewrite Hivp. unfold request_mac. apply calculateMAC_bytes, Hm. }
  destruct (send_receive_cases (mkResponse (rmac ++ rct) 0x9000) w2)
    as [(E & Hr) | [(E & Hs & Hr) | [(E & Hs & Hne & Hr) | (E & Hs & He & Hr)]]];
    cbn [resp_data] in *.
  - exfalso. destruct rmac; [discriminate Hl|discriminate E].
  - exfalso. rewrite length_app in Hs. lia.
  - exfalso. apply Hne. rewrite Hmac. symmetry. apply Hleft.
  - rewrite Hr, Hdec, Hmac. eexists. split; [reflexivity|].
    cbn [d with_event with_d]. split.
    + rewrite <- app_assoc, Hleft. reflexivity.
    + rewrite open_set_iv, Hdw2. exact Hop.
Qed.

(** X4: on an open channel whose key and IV are bytes, [decrypt] undoes
    [encrypt]; the ciphertext is a whole number of 16-byte blocks, one more
    than the full blocks of the plaintext, and consists of bytes. *)
Theorem decrypt_encrypt (p : Private P) (plaintext : QByteArray) :
  open p = true ->
  Forall is_byte (encKey p) -> Forall is_byte (iv p) ->
  Forall is_byte plaintext ->
  decrypt p (encrypt p plaintext) = plaintext
  /\ length (encrypt p plaintext) = (16 * (length plaintext / 16 + 1))%nat
  /\ Forall is_byte (encrypt p plaintext).
Proof.
  intros Ho Hk Hiv Hx. split; [now apply decrypt_encrypt_bytes|].
  split; [now apply encrypt_length|].
  unfold encrypt. rewrite Ho. cbn [negb]. unfold EVP_aes_256_cbc_encrypt.
  destruct (whole_blocks _); [|constructor].
  now apply cbc_encrypt_blocks_bytes.
Qed.

(** X14: [mutualAuthenticate] looks at the status word only: a bare [90 00]
    in answer to the challenge makes it return [true], whatever keys the card
    holds. *)
Theorem mutualAuthenticate_checks_status_only (w : World P) (c : Card)
  (challenge rawResponse : QByteArray) (r' : Rng) :
  open (d w) = true -> channel w = Some c ->
  fillRange (rng w) 8 = (challenge, r') ->
  fst (card_transmit c (request_apdu (d w) (buildCommand 0x11 0 0 challenge)))
  = inr rawResponse ->
  isOK (Response_of rawResponse) = true ->
  resp_data (Response_of rawResponse) = [] ->
  fst (mutualAuthenticate w) = Returned true.
Proof.
  intros Ho Hc Hr Ht Hok He.
  unfold mutualAuthenticate. unfold bind at 1. unfold random_words. rewrite Hr.
  unfold bind.
  rewrite (send_open _ (with_rng r' w) c Ho Hc). cbv zeta.
  cbn [d with_rng]. rewrite Ht.
  unfold send_receive. rewrite Hok, He. cbn [QBA.isEmpty negb andb].
  unfold ret. rewrite checkOK_run, Hok. reflexivity.
Qed.

End EndToEnd.

(** ** What send returns without verification *)

Section SendFacts.
Context {K : Constants} {P : Platform}.

(** X1: [send] hands a response whose status is not [90 00], or that carries
    no data, to the caller as the card gave it: no MAC is checked and nothing
    is decrypted.  The IV is then the MAC of the request, the channel stays
    open and one APDU went out. *)
Theorem send_returns_unauthenticated_status (command : Command) (w : World P)
  (c : Card) (rawResponse : QByteArray) :
  open (d w) = true -> channel w = Some c ->
  fst (card_transmit c (request_apdu (d w) command)) = inr rawResponse ->
  isOK (Response_of rawResponse) = false
  \/ resp_data (Response_of rawResponse) = [] ->
  exists w',
    send command w = (Returned (Response_of rawResponse), w') /\
    iv (d w') = request_mac (d w) command /\
    open (d w') = true /\
    trace w' = trace w ++ [IvUpdated (iv (d w)) (request_mac (d w) command);
                           Transmit (request_apdu (d w) command)].
Proof.
  intros Ho Hc Ht Hs.
  rewrite (send_open command w c Ho Hc). cbv zeta. rewrite Ht.
  assert (E : isOK (Response_of rawResponse)
              && negb (QBA.isEmpty (resp_data (Response_of rawResponse))) = false).
  { destruct Hs as [-> | ->]; [reflexivity|apply andb_false_r]. }
  unfold send_receive. rewrite E.
  eexists. split; [reflexivity|].
  cbn [d trace with_event with_channel with_d sending set_iv iv open].
  rewrite <- app_assoc. splits; trivial.
Qed.

(** X2: a [90 00] response with data shorter than a MAC, or whose first 16
    bytes are not the MAC the session computes over the rest, makes [send]
    throw, with the message of the check that failed; the channel stays open
    and the IV is the MAC of the request. *)
Theorem send_rejects_unverified_response (command : Command) (w : World P)
  (c : Card) (rawResponse : QByteArray) :
  let data := resp_data (Response_of rawResponse) in
  open (d w) = true -> channel w = Some c ->
  fst (card_transmit c (request_apdu (d w) command)) = inr rawResponse ->
  isOK (Response_of rawResponse) = true -> data <> [] ->
  (length data < 16)%nat
  \/ QBA.left 16 data
     <> calculateMAC (macKey (d w)) (response_meta data) (QBA.mid 16 data) ->
  exists w',
    send command w
    = (Thrown (runtime_error (if (length data <? 16)%nat then "Response too short"
                              else "Response MAC verification failed")), w') /\
    iv (d w') = request_mac (d w) command /\
    open (d w') = true /\
    trace w' = trace w ++ [IvUpdated (iv (d w)) (request_mac (d w) command);
                           Transmit (request_apdu (d w) command)].
Proof.
  cbv zeta. intros Ho Hc Ht Hok Hne Hbad.
  set (data := resp_data (Response_of rawResponse)) in *.
  rewrite (send_open command w c Ho Hc). cbv zeta. rewrite Ht.
  match goal with |- context [send_receive ?resp ?w2] =>
    destruct (send_receive_cases resp w2)
      as [(E & Hr) | [(E & Hl & Hr) | [(E & Hl & Hm & Hr) | (E & Hl & Hm & Hr)]]]
  end; fold data in E, Hr; try fold data in Hl; try fold data in Hm.
  - rewrite Hok in E. destruct data; [congruence|discriminate].
  - exists (with_event (Transmit (request_apdu (d w) command))
       (with_channel (Some (snd (card_transmit c (request_apdu (d w) command))))
          (sending command w))).
    replace (length data <? 16)%nat with true by (symmetry; now apply Nat.ltb_lt).
    split; [exact Hr|].
    cbn [d trace with_event with_channel with_d sending set_iv iv open].
    rewrite <- app_assoc. splits; trivial.
  - eexists.
    replace (length data <? 16)%nat with false by (symmetry; apply Nat.ltb_ge; lia).
    split; [exact Hr|].
    cbn [d trace with_event with_channel with_d sending set_iv iv open].
    rewrite <- app_assoc. splits; trivial.
  - exfalso. destruct Hbad as [Hs|Hm']; [lia|].
    apply Hm'. cbn [d with_event with_channel with_d sending set_iv macKey] in Hm.
    now rewrite Hm.
Qed.

End SendFacts.

(** ** What the operations keep *)


Section Frames.
Context {K : Constants} {P : Platform}.

Section Relation.
Variable R : World P -> World P -> Prop.
Hypothesis R_refl : forall w, R w w.
Hypothesis R_trans : forall w1 w2 w3, R w1 w2 -> R w2 w3 -> R w1 w3.
Hypothesis R_lastError : forall e w, R w (with_lastError e w).
Hypothesis R_event : forall e w, R w (with_event e w).
Hypothesis R_send :
  forall command w w' (out : Outcome Response), send command w = (out, w') -> R w w'.

Lemma preserves_ret {A} (a : A) : preserves R (ret a : M A).
Proof. intros w w' out H. injection H as _ <-. apply R_refl. Qed.

Lemma preserves_set_lastError (e : string) : preserves R (set_lastError e).
Proof. intros w w' out H. injection H as _ <-. apply R_lastError. Qed.

Lemma preserves_msleep (ms : Z) : preserves R (msleep ms).
Proof. intros w w' out H. injection H as _ <-. apply R_event. Qed.

Lemma preserves_checkOK (response : Response) : preserves R (checkOK response).
Proof.
  intros w w' out H. rewrite checkOK_run in H. injection H as _ <-.
  apply R_lastError.
Qed.

Lemma preserves_gets {A} (f : World P -> A) : preserves R (gets f).
Proof. intros w w' out H. injection H as _ <-. apply R_refl. Qed.

Lemma preserves_send (command : Command) : preserves R (send command).
Proof. intros w w' out H. exact (R_send _ _ _ _ H). Qed.

Lemma preserves_bind {A B} (m : M A) (k : A -> M B) :
  preserves R m -> (forall a, preserves R (k a)) -> preserves R (bind m k).
Proof.
  intros Hm Hk w w' out H. unfold bind in H.
  destruct (m w) as [[a|e] w1] eqn:E.
  - exact (R_trans _ _ _ (Hm _ _ _ E) (Hk a _ _ _ H)).
  - injection H as _ <-. exact (Hm _ _ _ E).
Qed.

Ltac solve_preserves :=
  repeat first
    [ apply preserves_ret | apply preserves_set_lastError | apply preserves_checkOK
    | apply preserves_msleep | apply preserves_send | apply preserves_gets
    | assumption
    | apply preserves_bind; [|intros ?]
    | match goal with
      | |- preserves _ (if ?b then _ else _) => destruct b
      | |- preserves _ (let '(_, _) := ?x in _) => destruct x
      end ].

Lemma preserves_call (op : Operation) :
  (forall n, preserves R (modify (with_remainingPINAttempts n))) \/
  (forall pin, op <> VerifyPIN pin) ->
  preserves R (call op).
Proof.
  intros Hop.
  destruct op; cbn [call];
    unfold fmap, verifyPIN, changePIN, changePUK, unblockPIN, changePairingSecret,
      generateKey, generateMnemonic, loadSeed, removeKey, deriveKey, sign,
      signWithPath, signPinless, setPinlessPath, storeData, getData, exportKey,
      exportKeyExtended, unpair, getStatus, validate, requires_open;
    try (solve_preserves; fail).
  destruct Hop as [Hn|Hop]; [|exfalso; eapply Hop; reflexivity].
  solve_preserves; apply Hn.
Qed.

End Relation.

Lemma session_kept_send (command : Command) (w w' : World P) (out : Outcome Response) :
  send command w = (out, w') -> session_kept w w'.
Proof.
  intros H. destruct (send_frame command w w' out H) as (Hs & _ & Hp & Hr & _).
  now splits.
Qed.

Lemma attempts_kept_send (command : Command) (w w' : World P) (out : Outcome Response) :
  send command w = (out, w') -> attempts_kept w w'.
Proof.
  intros H. destruct (send_frame command w w' out H) as (_ & _ & _ & _ & Hn & _).
  exact Hn.
Qed.

Lemma session_kept_trans (w1 w2 w3 : World P) :
  session_kept w1 w2 -> session_kept w2 w3 -> session_kept w1 w3.
Proof.
  unfold session_kept, same_session. intros (A1 & B1 & C1) (A2 & B2 & C2).
  splits; congruence.
Qed.

(** X7: whatever an operation of the command set returns or throws, it
    leaves the secure channel as it was but for the IV (keys, secret, key
    pair, the open flag), the stored pairing and the random generator; only
    [verifyPIN] touches the count of remaining PIN attempts. *)
Theorem call_keeps_session (op : Operation) (w w' : World P) (out : Outcome Value) :
  call op w = (out, w') ->
  same_session (d w) (d w') /\ isOpen (d w') = isOpen (d w) /\
  m_pairingInfo w' = m_pairingInfo w /\ rng w' = rng w /\
  ((forall pin, op <> VerifyPIN pin) ->
   m_remainingPINAttempts w' = m_remainingPINAttempts w).
Proof.
  intros H.
  assert (Hs : session_kept w w').
  { refine (preserves_call session_kept _ session_kept_trans _ _ session_kept_send
              op _ w w' out H).
    - intros w0. now splits.
    - intros e w0. now splits.
    - intros e w0. now splits.
    - left. intros n w0 w1 o E. injection E as _ <-. now splits. }
  destruct Hs as (Hs & Hp & Hr).
  splits; trivial.
  - unfold isOpen. exact (same_session_open _ _ Hs).
  - intros Hop.
    refine (preserves_call attempts_kept _ _ _ _ attempts_kept_send
              op (or_intror Hop) w w' out H); unfold attempts_kept.
    + reflexivity.
    + intros w1 w2 w3 H1 H2. congruence.
    + reflexivity.
    + reflexivity.
Qed.

End Frames.

Lemma call_keeps_session_witness :
  let w' := snd (call (GetData 0) exchange_world) in
  same_session (d exchange_world) (d w') /\ isOpen (d w') = true /\
  m_pairingInfo w' = m_pairingInfo exchange_world /\ rng w' = rng exchange_world /\
  m_remainingPINAttempts w' = m_remainingPINAttempts exchange_world.
Proof.
  destruct (call_keeps_session (GetData 0) exchange_world _ _
              (surjective_pairing _)) as (Hs & Ho & Hp & Hr & Hn).
  assert (Hop : forall pin, GetData 0 <> VerifyPIN pin) by discriminate.
  exact (conj Hs (conj Ho (conj Hp (conj Hr (Hn Hop))))).
Defined.

(** ** Returned values and the last error *)

Section Verdicts.
Context {K : Constants} {P : Platform}.

Lemma verdict_bind {A B} (failure : B) (strict : bool) (m : M A) (k : A -> M B) :
  (forall a, verdict failure strict (k a)) -> verdict failure strict (bind m k).
Proof.
  intros Hk w w' b H. unfold bind in H.
  destruct (m w) as [[a|e] w1]; [|discriminate].
  exact (Hk a _ _ _ H).
Qed.

Lemma verdict_fmap {A B} (f : A -> B) (failure : A) (strict : bool) (m : M A) :
  (forall a a', f a = f a' -> a = a') ->
  verdict failure strict m -> verdict (f failure) strict (fmap f m).
Proof.
  intros Hf Hm w w' b H. unfold fmap, bind in H.
  destruct (m w) as [[a|e] w1] eqn:E; [|discriminate].
  injection H as <- <-. destruct (Hm _ _ _ E) as [H1 H2]. split.
  - intros Hne. apply H1. congruence.
  - intros Hs Heq. apply H2; [exact Hs|]. now apply Hf.
Qed.

Lemma verdict_weaken {A} (failure : A) (m : M A) :
  verdict failure true m -> verdict failure false m.
Proof.
  intros Hm w w' a H. destruct (Hm _ _ _ H) as [H1 _].
  split; [exact H1|discriminate].
Qed.

Ltac verdict_leaf :=
  let w := fresh "w" in let w' := fresh "w" in let a := fresh "a" in
  let H := fresh "H" in
  intros w w' a H;
  unfold bind, checkOK, set_lastError, modify, ret, gets in H;
  repeat match type of H with
         | context [if ?b then _ else _] => destruct b; cbn [negb] in H
         end;
  injection H as <- <-; cbn [m_lastError with_lastError with_remainingPINAttempts];
  split; intros; try reflexivity; try congruence; try discriminate.

Ltac solve_verdict :=
  repeat first
    [ apply verdict_fmap; [intros ? ? [=]; assumption|]
    | match goal with
      | |- verdict _ _ (let '(_, _) := ?x in _) => destruct x
      | |- verdict _ _ (bind (send _) _) => apply verdict_bind; intros ?
      | |- verdict _ _ (bind (gets _) _) => apply verdict_bind; intros ?
      | |- verdict _ _ (if ?b then _ else _) => destruct b
      | |- verdict _ _ (bind (if _ then bind (msleep _) _ else _) _) =>
          apply verdict_bind; intros ?
      end
    | verdict_leaf ].

(** X8: what a returned value says about [m_lastError]: a value other than
    the operation's failure value comes with an empty [m_lastError], and a
    returned [false] comes with a message. *)
Theorem returned_value_and_lastError (op : Operation) (w w' : World P) (v : Value) :
  call op w = (Returned v, w') ->
  (v <> failure_value op -> m_lastError w' = ""%string) /\
  (v = VBool false -> m_lastError w' <> ""%string).
Proof.
  intros H.
  assert (Hv : verdict (failure_value op)
                 (match failure_value op with VBool _ => true | _ => false end)
                 (call op)).
  { clear. destruct op; cbn [call failure_value];
    unfold verifyPIN, changePIN, changePUK, unblockPIN, changePairingSecret,
      generateKey, generateMnemonic, loadSeed, removeKey, deriveKey, sign,
      signWithPath, signPinless, setPinlessPath, storeData, getData, exportKey,
      exportKeyExtended, unpair, getStatus, validate, requires_open.
    all: solve_verdict. }
  destruct (Hv _ _ _ H) as [H1 H2]. split; [exact H1|].
  intros ->. clear Hv H1.
  destruct op; cbn [call failure_value] in *; unfold fmap, bind in H;
    match type of H with
    | context [match ?m w with _ => _ end] => destruct (m w) as [[a|e] w1]
    end; try discriminate; now apply H2.
Qed.

End Verdicts.

(** ** The PIN attempts counter *)

Section PinFacts.
Context {K : Constants} {P : Platform}.

Lemma land_15_range (sw : Z) : 0 <= Z.land sw 15 <= 15.
Proof.
  change 15 with (Z.ones 4) at 1 2. rewrite Z.land_ones by lia.
  pose proof (Z.mod_pos_bound sw (2 ^ 4) ltac:(lia)). change (2 ^ 4) with 16 in *. lia.
Qed.

(** what [verifyPIN] does with the response it settles on *)
Lemma verifyPIN_classify (resp : Response) (w w' : World P) (b : bool) :
  (if Z.land (resp_sw resp) 0x63C0 =? 0x63C0
   then bind (modify (with_remainingPINAttempts (Z.land (resp_sw resp) 0x000F)))
          (fun _ => bind (set_lastError
                            ("Wrong PIN. Remaining attempts: "
                             ++ QStr.number (Z.land (resp_sw resp) 0x000F)))
                      (fun _ => ret false))
   else bind (modify (with_remainingPINAttempts (-1)))
          (fun _ => checkOK resp)) w = (Returned b, w') ->
  -1 <= m_remainingPINAttempts w' <= 15 /\
  (b = true -> resp_sw resp = 0x9000 /\ m_remainingPINAttempts w' = -1) /\
  (0 <= m_remainingPINAttempts w' ->
   b = false /\
   m_remainingPINAttempts w' = Z.land (resp_sw resp) 0x000F /\
   m_lastError w'
   = ("Wrong PIN. Remaining attempts: "
      ++ QStr.number (m_remainingPINAttempts w'))%string).
Proof.
  destruct (Z.land (resp_sw resp) 0x63C0 =? 0x63C0) eqn:E.
  - intros H. injection H as <- <-.
    cbn [m_remainingPINAttempts m_lastError with_lastError with_remainingPINAttempts].
    pose proof (land_15_range (resp_sw resp)).
    splits; [lia|lia|discriminate|intros _; now splits].
  - intros H. unfold bind, modify in H. rewrite checkOK_run in H.
    injection H as <- <-.
    cbn [m_remainingPINAttempts m_lastError with_lastError with_remainingPINAttempts].
    splits; try lia.
    intros Hb. unfold isOK in Hb. apply Z.eqb_eq in Hb. now split.
Qed.

(** X9: after [verifyPIN] has returned on an open channel, the count of
    remaining attempts is [-1] or a number from 0 to 15; it is [-1] after a
    success, and a count from 0 on means that [false] was returned with the
    wrong-PIN message that shows that count. *)
Theorem verifyPIN_remaining_attempts (pin : QString) (w w' : World P) (b : bool) :
  isOpen (d w) = true ->
  verifyPIN pin w = (Returned b, w') ->
  -1 <= m_remainingPINAttempts w' <= 15 /\
  (b = true -> m_remainingPINAttempts w' = -1) /\
  (0 <= m_remainingPINAttempts w' ->
   b = false /\
   m_lastError w'
   = ("Wrong PIN. Remaining attempts: "
      ++ QStr.number (m_remainingPINAttempts w'))%string).
Proof.
  intros Ho H. unfold verifyPIN in H. rewrite requires_open_open in H by exact Ho.
  unfold bind at 1 in H.
  destruct (send _ w) as [[r1|e] w1]; [|discriminate].
  unfold bind at 1 in H.
  destruct (resp_sw r1 =? 0x6f05).
  - unfold bind at 1 in H. unfold msleep, emit, modify in H.
    destruct (send _ _) as [[r2|e] w2]; [|discriminate].
    destruct (verifyPIN_classify r2 _ _ _ H) as (H1 & H2 & H3).
    split; [exact H1|]. split; [intros Hb; exact (proj2 (H2 Hb))|].
    intros Hn. destruct (H3 Hn) as (A & _ & B). now split.
  - unfold ret at 1 in H.
    destruct (verifyPIN_classify r1 _ _ _ H) as (H1 & H2 & H3).
    split; [exact H1|]. split; [intros Hb; exact (proj2 (H2 Hb))|].
    intros Hn. destruct (H3 Hn) as (A & _ & B). now split.
Qed.

End PinFacts.

Lemma verifyPIN_63C2_returns :
  verifyPIN "000000" (bench_world [] [0x63; 0xC2])
  = (Returned false, snd (verifyPIN "000000" (bench_world [] [0x63; 0xC2]))).
Proof.
  apply injective_projections; [|reflexivity].
  change (fst (verifyPIN "000000" (bench_world [] [0x63; 0xC2])) = Returned false).
  vm_compute. reflexivity.
Qed.

Lemma verifyPIN_remaining_attempts_witness :
  let w' := snd (verifyPIN "000000" (bench_world [] [0x63; 0xC2])) in
  isOpen (d (bench_world [] [0x63; 0xC2])) = true /\
  -1 <= m_remainingPINAttempts w' <= 15 /\
  m_remainingPINAttempts w' = 2.
Proof.
  split; [reflexivity|].
  destruct (verifyPIN_remaining_attempts "000000"%string
              (bench_world [] [0x63; 0xC2]) _ false eq_refl verifyPIN_63C2_returns)
    as (H1 & _ & _).
  split; [exact H1|]. vm_compute. reflexivity.
Defined.

(** ** Pairing *)

Section PairFacts.
Context {K : Constants} {P : Platform}.

(** X10: [pair] against a card that proves it knows the password: two PAIR
    commands go out in the clear, the second with the digest of the token and
    the card's challenge; the pairing key is the digest of the token and the
    salt, the index the first byte of the second answer; the pairing is
    returned and stored, [m_lastError] is cleared and the secure channel is
    not touched. *)
Theorem pair_stores_pairing (pairingPassword : QString) (w : World P)
  (c c1 c2 : Card) (challenge rawResp1 rawResp2 : QByteArray) (r' : Rng) :
  let token := derivePairingToken pairingPassword in
  let data1 := resp_data (Response_of rawResp1) in
  let data2 := resp_data (Response_of rawResp2) in
  let step1 := serialize (buildCommand INS_PAIR P1PairFirstStep 0 challenge) in
  let step2 := serialize (buildCommand INS_PAIR P1PairFinalStep 0
                            (sha256 (token ++ QBA.mid2 32 32 data1))) in
  let info := mkPairingInfo (sha256 (token ++ QBA.mid 1 data2))
                            (QBA.to_char (hd 0 data2)) in
  channel w = Some c ->
  fillRange (rng w) 8 = (challenge, r') ->
  card_transmit c step1 = (inr rawResp1, c1) ->
  isOK (Response_of rawResp1) = true ->
  (64 <= length data1)%nat ->
  QBA.left 32 data1 = sha256 (token ++ challenge) ->
  card_transmit c1 step2 = (inr rawResp2, c2) ->
  isOK (Response_of rawResp2) = true ->
  data2 <> [] ->
  exists w',
    pair pairingPassword w = (Returned info, w') /\
    m_pairingInfo w' = info /\
    m_lastError w' = ""%string /\
    trace w' = trace w ++ [Transmit step1; Transmit step2] /\
    d w' = d w.
Proof.
  cbv zeta. intros Hc Hr Ht1 Hok1 Hlen Hcg Ht2 Hok2 Hne.
  unfold pair. unfold bind at 1. unfold random_words. rewrite Hr.
  unfold bind at 1. unfold transmit at 1. cbn [channel with_rng]. rewrite Hc, Ht1.
  unfold bind at 1. rewrite checkOK_run, Hok1. cbn [negb].
  replace (length (resp_data (Response_of rawResp1)) <? 64)%nat with false
    by (symmetry; apply Nat.ltb_ge; exact Hlen).
  rewrite Hcg, QBA_eqb_refl. cbn [negb].
  unfold bind at 1. unfold transmit.
  cbn [channel with_rng with_lastError with_event with_channel]. rewrite Ht2.
  unfold bind at 1. rewrite checkOK_run, Hok2. cbn [negb].
  destruct (resp_data (Response_of rawResp2)) as [|b0 rest] eqn:E2; [congruence|].
  cbn [QBA.isEmpty].
  eexists. split; [reflexivity|].
  cbn [m_pairingInfo m_lastError trace d with_pairingInfo with_lastError
         with_event with_channel with_rng].
  rewrite <- app_assoc. now splits.
Qed.

(** X11: whatever [pair] returns or throws, the secure channel and the count
    of PIN attempts are as they were, at most two APDUs went out, and the
    stored pairing changes only when it is the pairing returned, with
    [m_lastError] cleared. *)
Theorem pair_leaves_the_channel (pairingPassword : QString) (w w' : World P)
  (out : Outcome PairingInfo) :
  pair pairingPassword w = (out, w') ->
  d w' = d w /\
  m_remainingPINAttempts w' = m_remainingPINAttempts w /\
  (m_pairingInfo w' = m_pairingInfo w \/
   out = Returned (m_pairingInfo w') /\ m_lastError w' = ""%string) /\
  (length (transmitted (trace w')) <= length (transmitted (trace w)) + 2)%nat.
Proof.
  intros H.
  assert (Hlen : forall (t : list Event) (a b : QByteArray),
             (length (transmitted (t ++ [Transmit a])) <= length (transmitted t) + 2
              /\ length (transmitted ((t ++ [Transmit a]) ++ [Transmit b]))
                 <= length (transmitted t) + 2)%nat).
  { intros t a b. unfold transmitted. rewrite !flat_map_app, !length_app.
    cbn [flat_map app length]. lia. }
  assert (Hlen0 : forall t : list Event,
             (length (transmitted t) <= length (transmitted t) + 2)%nat)
    by (intros; lia).
  unfold pair in H. unfold bind at 1 in H. unfold random_words in H.
  destruct (fillRange (rng w) 8) as [challenge r'].
  unfold bind at 1 in H. unfold transmit at 1 in H. cbn [channel with_rng] in H.
  destruct (channel w) as [c|];
    [|finish H; splits; try reflexivity; try (now left); apply Hlen0].
  destruct (card_transmit c _) as [[what|rawResp1] c1];
    [finish H; splits; try reflexivity; try (now left);
     apply (Hlen (trace w) _ []) |].
  unfold bind at 1 in H. rewrite checkOK_run in H.
  destruct (isOK (Response_of rawResp1)); cbn [negb] in H.
  2:{ destruct (resp_sw (Response_of rawResp1) =? 0x6A84);
        finish H; splits; try reflexivity; try (now left);
        apply (Hlen (trace w) _ []). }
  destruct (length (resp_data (Response_of rawResp1)) <? 64)%nat.
  { finish H; splits; try reflexivity; try (now left);
      apply (Hlen (trace w) _ []). }
  destruct (QBA.eqb _ _); cbn [negb] in H.
  2:{ finish H; splits; try reflexivity; try (now left);
      apply (Hlen (trace w) _ []). }
  unfold bind at 1 in H. unfold transmit in H.
  cbn [channel with_rng with_lastError with_event with_channel] in H.
  destruct (card_transmit c1 _) as [[what|rawResp2] c2];
    [finish H; splits; try reflexivity; try (now left);
     apply (Hlen (trace w)) |].
  unfold bind at 1 in H. rewrite checkOK_run in H.
  destruct (isOK (Response_of rawResp2)); cbn [negb] in H.
  2:{ finish H; splits; try reflexivity; try (now left);
      apply (Hlen (trace w)). }
  destruct (QBA.isEmpty (resp_data (Response_of rawResp2)));
    finish H; splits; try reflexivity; try (now left);
    try apply (Hlen (trace w)).
  right. now split.
Qed.

End PairFacts.

Lemma pair_stores_pairing_witness :
  exists w',
    pair "KeycardTest" paired_world
    = (Returned (mkPairingInfo
                   (sha256 (derivePairingToken "KeycardTest" ++ QBA.fill 32 0x55))
                   2), w') /\
    m_pairingInfo w'
    = mkPairingInfo (sha256 (derivePairingToken "KeycardTest" ++ QBA.fill 32 0x55)) 2 /\
    m_lastError w' = ""%string /\
    length (transmitted (trace w')) = 2%nat /\
    d w' = d paired_world.
Proof.
  destruct (pair_stores_pairing "KeycardTest"%string paired_world
            (mkMockChannel [paired_step1; paired_step2] [])
            (mkMockChannel [paired_step2] [])
            (mkMockChannel [] [])
            pairing_challenge paired_step1 paired_step2 1
            eq_refl eq_refl eq_refl eq_refl
            ltac:(vm_compute; lia) ltac:(vm_compute; reflexivity)
            eq_refl eq_refl ltac:(discriminate))
    as (w' & Hp & Hi & He & Ht & Hd).
  exists w'. split; [exact Hp|]. split; [exact Hi|]. split; [exact He|].
  split; [rewrite Ht; reflexivity|exact Hd].
Defined.

(** ** Opening the secure channel *)


Section OpenFacts.
Context {K : Constants} {P : Platform}.

Lemma same_session_fields (p p' : Private P) :
  same_session p p' ->
  encKey p' = encKey p /\ macKey p' = macKey p /\ secret p' = secret p /\
  rawPublicKeyData p' = rawPublicKeyData p /\ openedIndex p' = openedIndex p /\
  open p' = open p.
Proof.
  unfold same_session. intros H.
  change (encKey p') with (encKey (set_iv [] p')).
  change (macKey p') with (macKey (set_iv [] p')).
  change (secret p') with (secret (set_iv [] p')).
  change (rawPublicKeyData p') with (rawPublicKeyData (set_iv [] p')).
  change (openedIndex p') with (openedIndex (set_iv [] p')).
  change (open p') with (open (set_iv [] p')).
  rewrite <- H. now splits.
Qed.

Lemma mutualAuthenticate_frame (w w' : World P) (out : Outcome bool) :
  mutualAuthenticate w = (out, w') ->
  same_session (d w) (d w') /\ m_pairingInfo w' = m_pairingInfo w /\
  (out = Returned true -> m_lastError w' = ""%string).
Proof.
  intros H. unfold mutualAuthenticate, bind, random_words in H.
  destruct (fillRange (rng w) 8) as [challenge r'].
  destruct (send _ _) as [[resp|e] w1] eqn:Hs;
    destruct (send_frame _ _ _ _ Hs) as (Hss & _ & Hp & _).
  - rewrite checkOK_run in H. apply pair_equal_spec in H. destruct H as [<- <-].
    splits; [exact Hss|exact Hp|].
    intros [= ->]. reflexivity.
  - apply pair_equal_spec in H. destruct H as [<- <-].
    splits; [exact Hss|exact Hp|discriminate].
Qed.

(** the two ways [openSecureChannel] runs *)
Lemma openSecureChannel_run (pairingInfo : PairingInfo) (w w' : World P)
  (out : Outcome bool) :
  openSecureChannel pairingInfo w = (out, w') ->
  (keys_derived pairingInfo w = false /\ d w' = d w /\ out <> Returned true)
  \/ (keys_derived pairingInfo w = true /\
      exists (c c' : Card) (rawResp : QByteArray) (outm : Outcome bool) (wm : World P),
        channel w = Some c /\
        card_transmit c (open_request pairingInfo w) = (inr rawResp, c') /\
        mutualAuthenticate (session_opened pairingInfo rawResp c' w) = (outm, wm) /\
        (outm = out /\ w' = wm /\ out <> Returned false
         \/ outm = Returned false /\ out = Returned false /\
            w' = with_lastError "Mutual authentication failed" wm)).
Proof.
  intros H. unfold keys_derived. unfold openSecureChannel in H.
  destruct (isValid pairingInfo) eqn:Hv; cbn [negb andb] in *.
  2:{ finish H. left. splits; [reflexivity|reflexivity|discriminate]. }
  unfold bind at 1 in H. unfold modify at 1 in H.
  unfold bind at 1 in H. unfold gets at 1 in H.
  cbn [d with_pairingInfo] in H.
  destruct (QBA.isEmpty (rawPublicKey (d w))) eqn:He; cbn [negb andb].
  { finish H. left. splits; [reflexivity|reflexivity|discriminate]. }
  unfold bind at 1 in H.
  fold (open_request pairingInfo w) in H.
  unfold transmit in H. cbn [channel with_pairingInfo] in H.
  destruct (channel w) as [c|] eqn:Hc.
  2:{ finish H. left. splits; [reflexivity|reflexivity|discriminate]. }
  destruct (card_transmit c (open_request pairingInfo w)) as [[what|rawResp] c'] eqn:Hct;
    cbn [fst].
  { finish H. left. splits; [reflexivity|reflexivity|discriminate]. }
  unfold bind at 1 in H. rewrite checkOK_run in H.
  destruct (isOK (Response_of rawResp)) eqn:Hok; cbn [negb andb] in *.
  2:{ finish H. left. splits; [reflexivity|reflexivity|discriminate]. }
  destruct (length (resp_data (Response_of rawResp)) <? 48)%nat eqn:Hlen;
    cbn [negb].
  { finish H. left. splits; [reflexivity|reflexivity|discriminate]. }
  right. split; [reflexivity|].
  unfold bind at 1 in H. unfold modify at 1 in H.
  unfold bind at 1 in H.
  fold (session_opened pairingInfo rawResp c' w) in H.
  destruct (mutualAuthenticate (session_opened pairingInfo rawResp c' w))
    as [[authenticated|e] wm] eqn:Hm.
  - exists c, c', rawResp, (Returned authenticated), wm.
    split; [reflexivity|]. split; [exact Hct|]. split; [exact Hm|].
    destruct authenticated; cbn [negb] in H; finish H.
    + left. splits; [reflexivity|reflexivity|discriminate].
    + right. now splits.
  - exists c, c', rawResp, (Thrown e), wm.
    split; [reflexivity|]. split; [exact Hct|]. split; [exact Hm|].
    finish H. left. splits; [reflexivity|reflexivity|discriminate].
Qed.

(** X12: once [openSecureChannel] has derived the session keys, whatever
    [mutualAuthenticate] then does: the encryption key is the first half and
    the MAC key the second half of SHA-512 over the shared secret, the pairing
    key and the first 32 bytes of the card's answer; the secret and the public
    key are kept and the pairing handed in is the one stored. *)
Theorem openSecureChannel_session_keys (pairingInfo : PairingInfo) (w w' : World P)
  (out : Outcome bool) :
  keys_derived pairingInfo w = true ->
  openSecureChannel pairingInfo w = (out, w') ->
  exists (c : Card) (rawResp : QByteArray),
    let cardData := resp_data (Response_of rawResp) in
    let result := sha512 (secret (d w) ++ pi_key pairingInfo ++ QBA.left 32 cardData) in
    channel w = Some c /\
    fst (card_transmit c (open_request pairingInfo w)) = inr rawResp /\
    encKey (d w') = QBA.left 32 result /\
    macKey (d w') = QBA.mid 32 result /\
    secret (d w') = secret (d w) /\
    rawPublicKeyData (d w') = rawPublicKeyData (d w) /\
    openedIndex (d w') = 0 /\
    m_pairingInfo w' = pairingInfo.
Proof.
  intros Hk H.
  destruct (openSecureChannel_run _ _ _ _ H)
    as [(Hk' & _) | (_ & c & c' & rawResp & outm & wm & Hc & Ht & Hm & Hcases)];
    [congruence|].
  exists c, rawResp. cbv zeta.
  destruct (mutualAuthenticate_frame _ _ _ Hm) as (Hs & Hp & _).
  destruct (same_session_fields _ _ Hs) as (He & Hmk & Hse & Hpk & Hi & _).
  assert (Hw : d w' = d wm /\ m_pairingInfo w' = m_pairingInfo wm)
    by (destruct Hcases as [(_ & -> & _)|(_ & _ & ->)]; now split).
  destruct Hw as [-> ->].
  rewrite He, Hmk, Hse, Hpk, Hi, Hp, Ht. now splits.
Qed.

(** X13: [openSecureChannel] returns [true] only after the session keys were
    derived; the channel is then open, [m_lastError] is empty, the pairing is
    stored and exactly two APDUs went out. *)
Theorem openSecureChannel_true_means_open (pairingInfo : PairingInfo)
  (w w' : World P) :
  openSecureChannel pairingInfo w = (Returned true, w') ->
  keys_derived pairingInfo w = true /\ isOpen (d w') = true /\
  m_lastError w' = ""%string /\ m_pairingInfo w' = pairingInfo /\
  length (transmitted (trace w')) = (length (transmitted (trace w)) + 2)%nat.
Proof.
  intros H.
  destruct (openSecureChannel_run _ _ _ _ H)
    as [(_ & _ & Hne) | (Hk & c & c' & rawResp & outm & wm & Hc & Ht & Hm & Hcases)];
    [congruence|].
  destruct Hcases as [(-> & -> & _)|(_ & Hf & _)]; [|discriminate].
  destruct (mutualAuthenticate_frame _ _ _ Hm) as (Hs & Hp & He).
  destruct (same_session_fields _ _ Hs) as (_ & _ & _ & _ & _ & Ho).
  destruct (mutualAuthenticate_open (session_opened pairingInfo rawResp c' w) wm c'
              _ eq_refl eq_refl Hm)
    as (_ & apdu & _ & Htr).
  splits; [exact Hk|exact Ho|now apply He|exact Hp|].
  rewrite Htr. unfold session_opened.
  cbn [trace with_d with_lastError with_event with_channel with_pairingInfo].
  unfold transmitted. rewrite !flat_map_app, !length_app. cbn [flat_map app length].
  lia.
Qed.

End OpenFacts.

(** ** Mnemonic indexes *)

Lemma to_char_range (n : Z) : 0 <= QBA.to_char n < 256.
Proof.
  unfold QBA.to_char. change 255 with (Z.ones 8). rewrite Z.land_ones by lia.
  apply Z.mod_pos_bound. lia.
Qed.

Lemma to_char_mod (n : Z) : QBA.to_char n = n mod 256.
Proof.
  unfold QBA.to_char. change 255 with (Z.ones 8). now rewrite Z.land_ones by lia.
Qed.

Lemma index_value (b0 b1 : Z) :
  Z.land (Z.lor (Z.shiftl (QBA.to_char b0) 8) (QBA.to_char b1)) 0xFFFF
  = 256 * (b0 mod 256) + b1 mod 256.
Proof.
  rewrite !to_char_mod.
  pose proof (Z.mod_pos_bound b0 256 ltac:(lia)) as H0.
  pose proof (Z.mod_pos_bound b1 256 ltac:(lia)) as H1.
  set (x := b0 mod 256) in *. set (y := b1 mod 256) in *.
  assert (E : Z.lor (Z.shiftl x 8) y = 256 * x + y).
  { rewrite Z.shiftl_mul_pow2 by lia. change (2 ^ 8) with 256.
    assert (N : Z.land (x * 256) y = 0).
    { apply Z.bits_inj'. intros n Hn. rewrite Z.land_spec, Z.bits_0.
      destruct (Z_lt_le_dec n 8).
      + replace (x * 256) with (x * 2 ^ 8) by lia.
        rewrite Z.mul_pow2_bits_low by lia. reflexivity.
      + rewrite (Z.bits_above_log2 y n); [apply andb_false_r|lia|].
        destruct (Z.eq_dec y 0) as [->|]; [cbn; lia|].
        assert (Z.log2 y < 8) by (apply Z.log2_lt_pow2; lia). lia. }
    rewrite <- (Z.lxor_lor _ _ N), <- (Z.add_nocarry_lxor _ _ N). lia. }
  rewrite E. change 65535 with (Z.ones 16). rewrite Z.land_ones by lia.
  apply Z.mod_small. change (2 ^ 16) with 65536. lia.
Qed.

Lemma two_step_induction {A} (Q : list A -> Prop) :
  Q [] -> (forall b, Q [b]) ->
  (forall b0 b1 rest, Q rest -> Q (b0 :: b1 :: rest)) ->
  forall l, Q l.
Proof.
  intros H0 H1 H2.
  assert (H : forall l, Q l /\ forall b, Q (b :: l)).
  { induction l as [|a l [IH1 IH2]]; [now split|].
    split; [apply IH2|]. intros b. apply H2, IH1. }
  intros l. apply H.
Qed.

Lemma half_step (n : nat) : (S (S n) / 2 = S (n / 2))%nat.
Proof.
  replace (S (S n)) with (n + 1 * 2)%nat by lia.
  rewrite Nat.div_add by lia. lia.
Qed.

(** X15: the indexes [generateMnemonic] reads from the response: one for
    each full pair of bytes, big-endian, between 0 and 65535; a trailing odd
    byte is dropped. *)
Theorem mnemonic_indexes_pairs (data : QByteArray) :
  length (mnemonic_indexes data) = (length data / 2)%nat /\
  (forall k : nat,
      (k < length data / 2)%nat ->
      nth k (mnemonic_indexes data) 0
      = 256 * (nth (2 * k) data 0 mod 256) + nth (2 * k + 1) data 0 mod 256) /\
  Forall (fun index => 0 <= index <= 65535) (mnemonic_indexes data).
Proof.
  induction data as [|b|b0 b1 rest (IHl & IHn & IHf)] using two_step_induction.
  - splits; [reflexivity|intros k Hk; cbn in Hk; lia|constructor].
  - splits; [reflexivity|intros k Hk; cbn in Hk; lia|constructor].
  - cbn [mnemonic_indexes]. rewrite index_value. cbn [length]. rewrite half_step.
    splits.
    + now rewrite IHl.
    + intros [|k] Hk; [reflexivity|].
      replace (2 * S k)%nat with (S (S (2 * k))) by lia.
      replace (S (S (2 * k)) + 1)%nat with (S (S (2 * k + 1))) by lia.
      cbn [nth]. apply IHn. lia.
    + constructor; [|exact IHf].
      pose proof (Z.mod_pos_bound b0 256 ltac:(lia)).
      pose proof (Z.mod_pos_bound b1 256 ltac:(lia)). lia.
Qed.

(** ** Chained responses *)

Section NfcChain.
Variable Tag : Type.
Variable isoDep_transceive : Tag -> QByteArray -> option QByteArray * Tag.
Variable reader_transceive : Tag -> QByteArray -> option QByteArray * Tag.

Lemma sw_of_frame (payload : QByteArray) (sw1 sw2 : Z) :
  length (payload ++ [sw1; sw2]) = (length payload + 2)%nat /\
  sw1_of (payload ++ [sw1; sw2]) = QBA.to_char sw1 /\
  sw2_of (payload ++ [sw1; sw2]) = QBA.to_char sw2 /\
  QBA.left (length (payload ++ [sw1; sw2]) - 2) (payload ++ [sw1; sw2]) = payload.
Proof.
  assert (L : length (payload ++ [sw1; sw2]) = (length payload + 2)%nat)
    by (rewrite length_app; reflexivity).
  unfold sw1_of, sw2_of, QBA.left. rewrite L.
  replace (length payload + 2 - 2)%nat with (length payload) by lia.
  replace (length payload + 2 - 1)%nat with (S (length payload)) by lia.
  rewrite !app_nth2 by lia.
  replace (length payload - length payload)%nat with 0%nat by lia.
  replace (S (length payload) - length payload)%nat with 1%nat by lia.
  rewrite firstn_app, Nat.sub_diag, firstn_all. cbn [firstn nth].
  rewrite app_nil_r. now splits.
Qed.

(** X16: when the transceive of [KeycardChannelAndroidNfc::transmit] fails,
    the caller gets the empty array, the one APDU went to the tag, and every
    later [transmit] returns the empty array without reaching the tag. *)
Theorem AndroidNfc_transmit_after_failure (apdu : QByteArray) (s : AndroidNfc Tag)
  (tag : Tag) :
  s_connected Tag s = true -> s_activeIsoDep Tag s = Some tag ->
  fst (reader_transceive tag apdu) = None ->
  let '(response, s', sent) :=
    AndroidNfc_transmit Tag isoDep_transceive reader_transceive apdu s in
  response = [] /\ sent = [apdu] /\
  forall apdu' : QByteArray,
    AndroidNfc_transmit Tag isoDep_transceive reader_transceive apdu' s'
    = ([], s', []).
Proof.
  intros Hc Hi Hf. unfold AndroidNfc_transmit at 1. rewrite Hc, Hi.
  destruct (reader_transceive tag apdu) as [[response|] tag']; [discriminate|].
  splits; reflexivity.
Qed.

(** X17: the Android backend asks for one continuation at most; when the
    frames end there (or the GET RESPONSE fails) the Qt backend returns the
    same bytes, leaves the tag in the same state and has sent the same
    APDUs. *)
Theorem backends_agree_on_one_continuation (response : QByteArray) (tag : Tag)
  (fuel : nat) :
  let '(final, tag', sent) :=
    handleMultiFrameResponse Tag isoDep_transceive response tag in
  ((length final < 2)%nat \/ sw1_of final <> 0x61
   \/ fst (isoDep_transceive tag (getResponseApdu (sw2_of response))) = None) ->
  QtNfc_collect Tag isoDep_transceive (S (S fuel)) response tag []
  = Some (final, tag', sent).
Proof.
  unfold handleMultiFrameResponse. cbn [QtNfc_collect].
  destruct (length response <? 2)%nat eqn:L; [reflexivity|].
  destruct (sw1_of response =? 0x61) eqn:S1; cbn [negb]; [|reflexivity].
  destruct (isoDep_transceive tag (getResponseApdu (sw2_of response)))
    as [[additional|] tag1]; cbn [fst app]; [|reflexivity].
  intros [H|[H|H]]; [| |discriminate]; cbn [QtNfc_collect].
  - apply Nat.ltb_lt in H. rewrite H. reflexivity.
  - apply Z.eqb_neq in H. rewrite H. cbn [negb].
    match goal with |- (if ?b then _ else _) = _ => destruct b end; reflexivity.
Qed.

End NfcChain.

(** X18: the Qt backend reassembles a chain of any length: it answers each
    [61 le] frame with one GET RESPONSE carrying that [le], and returns the
    payloads in order, followed by the payload and the status word of the
    closing frame. *)
Theorem QtNfc_collect_reassembles (more : list (QByteArray * Z)) :
  forall (payload : QByteArray) (le : Z) (last : QByteArray) (sw1 sw2 : Z)
         (tail : list (option QByteArray)) (sent : list QByteArray) (fuel : nat),
    QBA.to_char sw1 <> 0x61 ->
    (length more + 2 <= fuel)%nat ->
    QtNfc_collect _ script_transceive fuel (payload ++ [0x61; le])
      (map Some (chained more (last ++ [sw1; sw2])) ++ tail) sent
    = Some (payload ++ concat (map fst more) ++ last ++ [sw1; sw2], tail,
            sent ++ map (fun frame => getResponseApdu (QBA.to_char (snd frame)))
                        ((payload, le) :: more)).
Proof.
  induction more as [|[p1 le1] more IH];
    intros payload le last sw1 sw2 tail sent fuel Hsw Hfuel.
  - destruct fuel as [|[|fuel]]; try (cbn in Hfuel; lia).
    cbn [chained map app script_transceive concat]. cbn [QtNfc_collect].
    destruct (sw_of_frame payload 0x61 le) as (L & S1 & S2 & Hp).
    rewrite Hp, S1, S2, L.
    replace (length payload + 2 <? 2)%nat with false
      by (symmetry; apply Nat.ltb_ge; lia).
    cbn [QBA.to_char Z.land Z.eqb negb Pos.eqb Pos.land script_transceive].
    destruct (sw_of_frame (payload ++ last) sw1 sw2) as (L' & S1' & S2' & Hp').
    rewrite <- app_assoc in L', S1'. rewrite L', S1'.
    replace (length (payload ++ last) + 2 <? 2)%nat with false
      by (symmetry; apply Nat.ltb_ge; lia).
    apply Z.eqb_neq in Hsw. rewrite Hsw. cbn [negb]. reflexivity.
  - destruct fuel as [|fuel]; [cbn in Hfuel; lia|].
    cbn [chained map app concat fst]. cbn [QtNfc_collect].
    destruct (sw_of_frame payload 0x61 le) as (L & S1 & S2 & Hp).
    rewrite Hp, S1, S2, L.
    replace (length payload + 2 <? 2)%nat with false
      by (symmetry; apply Nat.ltb_ge; lia).
    cbn [QBA.to_char Z.land Z.eqb negb Pos.eqb Pos.land script_transceive].
    rewrite app_assoc.
    rewrite (IH (payload ++ p1) le1 last sw1 sw2 tail _ fuel Hsw)
      by (cbn [length] in Hfuel; lia).
    rewrite <- !app_assoc. reflexivity.
Qed.

Lemma QtNfc_collect_reassembles_witness :
  QBA.to_char 0x90 <> 0x61 /\
  QtNfc_collect _ script_transceive 3 frame1 later_frames []
  = Some ([0x01; 0x02; 0x03; 0x04; 0x05; 0x06; 0x90; 0x00], [],
          [getResponseApdu 0x02; getResponseApdu 0x02]).
Proof.
  split; [discriminate|].
  exact (QtNfc_collect_reassembles [([0x03; 0x04], 0x02)] [0x01; 0x02] 0x02
           [0x05; 0x06] 0x90 0x00 [] [] 3 ltac:(discriminate) ltac:(cbn; lia)).
Defined.

Lemma AndroidNfc_transmit_after_failure_witness :
  let '(response, s', sent) :=
    AndroidNfc_transmit _ script_transceive script_transceive [0x00; 0xA4]
      (mkAndroidNfc _ true (Some [None])) in
  response = [] /\ sent = [[0x00; 0xA4]] /\
  forall apdu' : QByteArray,
    AndroidNfc_transmit _ script_transceive script_transceive apdu' s' = ([], s', []).
Proof.
  exact (AndroidNfc_transmit_after_failure _ script_transceive script_transceive
           [0x00; 0xA4] (mkAndroidNfc _ true (Some [None])) [None]
           eq_refl eq_refl eq_refl).
Defined.

Lemma backends_agree_on_one_continuation_witness :
  QtNfc_collect _ script_transceive 2 frame2 [Some frame3] []
  = Some ([0x03; 0x04; 0x05; 0x06; 0x90; 0x00], [], [getResponseApdu 0x02]).
Proof.
  refine (backends_agree_on_one_continuation _ script_transceive frame2
            [Some frame3] 0 _).
  right. left. discriminate.
Defined.

(** ** One-shot encryption *)

Section OneShotFacts.
Context {P : Platform}.
Variable RandState : Type.
Variable RAND_bytes : RandState -> nat -> option QByteArray * RandState.

(** X6: with a shared secret and 16 random bytes for the IV,
    [oneShotEncrypt] returns the length of the public key in one byte, the
    public key, the IV and the ciphertext, in this order; the ciphertext is
    one block more than the full blocks of the data, and AES-256-CBC
    decryption under the secret and that IV, then unpadding, gives the data
    back. *)
Theorem oneShotEncrypt_payload (p : Private P) (data iv_ : QByteArray)
  (r r' : RandState) :
  secret p <> [] ->
  RAND_bytes r 16 = (Some iv_, r') -> length iv_ = 16%nat ->
  Forall is_byte (secret p) -> Forall is_byte iv_ -> Forall is_byte data ->
  exists encrypted,
    oneShotEncrypt RandState RAND_bytes p data r
    = (QBA.to_char (Z.of_nat (length (rawPublicKeyData p)))
         :: rawPublicKeyData p ++ iv_ ++ encrypted, r') /\
    length encrypted = (16 * (length data / 16 + 1))%nat /\
    length (fst (oneShotEncrypt RandState RAND_bytes p data r))
    = (1 + length (rawPublicKeyData p) + 16 + 16 * (length data / 16 + 1))%nat /\
    option_map Utils.unpad (EVP_aes_256_cbc_decrypt (secret p) iv_ encrypted)
    = Some data.
Proof.
  intros Hs Hr Hl Hk Hiv Hd.
  destruct (EVP_decrypt_encrypt (secret p) iv_ (Utils.pad data 16) _
              Hk Hiv (pad_bytes _ _ Hd) (pad16_length data))
    as (encrypted & He & Hlen & Hdec).
  exists encrypted. unfold oneShotEncrypt.
  destruct (secret p) as [|b s] eqn:Es; [contradiction|]. cbn [QBA.isEmpty].
  rewrite Hr. cbv zeta. rewrite He.
  split; [reflexivity|]. split; [exact Hlen|]. split.
  - cbn [fst length]. rewrite !length_app, Hl, Hlen. lia.
  - rewrite Hdec. cbn [option_map]. now rewrite unpad_pad.
Qed.

End OneShotFacts.

(** ** The properties on the test bench *)

Lemma pair_of_fst {A B} (p : A * B) (a : A) : fst p = a -> p = (a, snd p).
Proof. intros <-. apply surjective_pairing. Qed.

Lemma send_returns_unauthenticated_status_witness :
  let w := bench_world [] [0x69; 0x82] in
  exists w',
    send exchange_command w = (Returned (mkResponse [] 0x6982), w') /\
    iv (d w') = request_mac (d w) exchange_command /\ open (d w') = true.
Proof.
  destruct (send_returns_unauthenticated_status exchange_command
              (bench_world [] [0x69; 0x82]) (mkMockChannel [] [0x69; 0x82])
              [0x69; 0x82] eq_refl eq_refl eq_refl (or_introl eq_refl))
    as (w' & Hs & Hi & Ho & _).
  exists w'. exact (conj Hs (conj Hi Ho)).
Defined.

Lemma send_rejects_unverified_response_witness :
  let w := bench_world [] [0x01; 0x02; 0x03; 0x90; 0x00] in
  exists w',
    send exchange_command w = (Thrown (runtime_error "Response too short"), w') /\
    open (d w') = true.
Proof.
  assert (Hne : resp_data (Response_of [0x01; 0x02; 0x03; 0x90; 0x00]) <> [])
    by (vm_compute; discriminate).
  assert (Hshort : lt (length (resp_data (Response_of [0x01; 0x02; 0x03; 0x90; 0x00])))
                       16) by (vm_compute; lia).
  destruct (send_rejects_unverified_response exchange_command
              (bench_world [] [0x01; 0x02; 0x03; 0x90; 0x00])
              (mkMockChannel [] [0x01; 0x02; 0x03; 0x90; 0x00])
              [0x01; 0x02; 0x03; 0x90; 0x00] eq_refl eq_refl eq_refl eq_refl
              Hne (or_introl Hshort))
    as (w' & Hs & _ & Ho & _).
  exists w'. exact (conj Hs Ho).
Defined.

Lemma exchange_reply_secure :
  secure_reply (d exchange_world) exchange_command [0x01; 0x02; 0x03; 0x90; 0x00]
  = exchange_reply.
Proof. vm_compute. reflexivity. Qed.

Lemma send_decodes_reply_witness :
  exists w',
    send exchange_command exchange_world
    = (Returned (mkResponse [0x01; 0x02; 0x03] 0x9000), w') /\
    open (d w') = true.
Proof.
  destruct (send_decodes_reply exchange_command exchange_world
              (mkMockChannel [exchange_reply] []) [0x01; 0x02; 0x03; 0x90; 0x00]
              eq_refl eq_refl
              (bytes_check (encKey (d exchange_world)) eq_refl)
              (bytes_check (macKey (d exchange_world)) eq_refl)
              (bytes_check [0x01; 0x02; 0x03; 0x90; 0x00] eq_refl)
              (f_equal inr (eq_sym exchange_reply_secure)))
    as (w' & Hs & _ & Ho).
  exists w'. exact (conj Hs Ho).
Defined.

Lemma decrypt_encrypt_witness :
  let p := d exchange_world in
  decrypt p (encrypt p [0x01; 0x02; 0x03]) = [0x01; 0x02; 0x03] /\
  length (encrypt p [0x01; 0x02; 0x03]) = 16%nat.
Proof.
  destruct (decrypt_encrypt (d exchange_world) [0x01; 0x02; 0x03] eq_refl
              (bytes_check (encKey (d exchange_world)) eq_refl)
              (bytes_check (iv (d exchange_world)) eq_refl)
              (bytes_check [0x01; 0x02; 0x03] eq_refl)) as (Hd & Hl & _).
  exact (conj Hd Hl).
Defined.

Lemma calculateMAC_is_cbc_mac_witness :
  calculateMAC (QBA.fill 32 0xDD) (QBA.fill 16 0x01) (QBA.fill 16 0x02)
  = last (cbc_encrypt_blocks (QBA.fill 32 0xDD) (QBA.fill 16 0x00)
            (blocks16 (QBA.fill 16 0x01 ++ QBA.fill 16 0x02))) [].
Proof.
  exact (calculateMAC_is_cbc_mac (QBA.fill 32 0xDD) (QBA.fill 16 0x01)
           (QBA.fill 16 0x02) 0 eq_refl eq_refl).
Defined.

Lemma handshake_secret_bytes :
  secret (d handshake_world) <> [] /\
  forallb byteb (secret (d handshake_world)) = true.
Proof. vm_compute. split; [discriminate|reflexivity]. Qed.

Lemma oneShotEncrypt_payload_witness :
  exists encrypted,
    oneShotEncrypt Z scripted_RAND_bytes (d handshake_world) [0x01; 0x02; 0x03] 0x17
    = (0x41 :: rawPublicKeyData (d handshake_world) ++ QBA.fill 16 0x17 ++ encrypted,
       0x18) /\
    length encrypted = 16%nat /\
    option_map Utils.unpad
      (EVP_aes_256_cbc_decrypt (secret (d handshake_world)) (QBA.fill 16 0x17)
         encrypted)
    = Some [0x01; 0x02; 0x03].
Proof.
  destruct (oneShotEncrypt_payload Z scripted_RAND_bytes (d handshake_world)
              [0x01; 0x02; 0x03] (QBA.fill 16 0x17) 0x17 0x18
              (proj1 handshake_secret_bytes) eq_refl eq_refl
              (bytes_check _ (proj2 handshake_secret_bytes))
              (bytes_check (QBA.fill 16 0x17) eq_refl)
              (bytes_check [0x01; 0x02; 0x03] eq_refl))
    as (encrypted & He & Hl & _ & Hd).
  exists encrypted. exact (conj He (conj Hl Hd)).
Defined.

Lemma getData_exchange_returns :
  call (GetData 0) exchange_world
  = (Returned (VBytes [0x01; 0x02; 0x03]), snd (call (GetData 0) exchange_world)).
Proof.
  assert (H : fst (call (GetData 0) exchange_world)
              = Returned (VBytes [0x01; 0x02; 0x03])) by (vm_compute; reflexivity).
  exact (pair_of_fst _ _ H).
Qed.

Lemma returned_value_and_lastError_witness :
  m_lastError (snd (call (GetData 0) exchange_world)) = ""%string.
Proof.
  refine (proj1 (returned_value_and_lastError (GetData 0) exchange_world _ _
                   getData_exchange_returns) _).
  discriminate.
Defined.

Lemma pair_leaves_the_channel_witness :
  let w' := snd (pair "KeycardTest" pairing_world) in
  d w' = d pairing_world /\
  (length (transmitted (trace w')) <= length (transmitted (trace pairing_world)) + 2)%nat.
Proof.
  destruct (pair_leaves_the_channel "KeycardTest"%string pairing_world _ _
              (surjective_pairing _)) as (Hd & _ & _ & Hl).
  exact (conj Hd Hl).
Defined.

Lemma openSecureChannel_session_keys_witness :
  let w' := snd (openSecureChannel bench_pairing handshake_world) in
  secret (d w') = secret (d handshake_world) /\
  openedIndex (d w') = 0 /\ m_pairingInfo w' = bench_pairing.
Proof.
  destruct (openSecureChannel_session_keys bench_pairing handshake_world _ _
              eq_refl (surjective_pairing _))
    as (c & rawResp & _ & _ & _ & _ & Hs & _ & Hi & Hp).
  exact (conj Hs (conj Hi Hp)).
Defined.

Lemma accepting_world_opens :
  openSecureChannel bench_pairing accepting_world
  = (Returned true, snd (openSecureChannel bench_pairing accepting_world)).
Proof.
  assert (H : fst (openSecureChannel bench_pairing accepting_world) = Returned true)
    by (vm_compute; reflexivity).
  exact (pair_of_fst _ _ H).
Qed.

Lemma openSecureChannel_true_means_open_witness :
  let w' := snd (openSecureChannel bench_pairing accepting_world) in
  isOpen (d w') = true /\ m_lastError w' = ""%string /\
  m_pairingInfo w' = bench_pairing.
Proof.
  destruct (openSecureChannel_true_means_open bench_pairing accepting_world _
              accepting_world_opens) as (_ & Ho & He & Hp & _).
  exact (conj Ho (conj He Hp)).
Defined.

Lemma mutualAuthenticate_checks_status_only_witness :
  fst (mutualAuthenticate (bench_world [] [0x90; 0x00])) = Returned true.
Proof.
  exact (mutualAuthenticate_checks_status_only (bench_world [] [0x90; 0x00])
           (mkMockChannel [] [0x90; 0x00])
           (fst (fillRange (rng (bench_world [] [0x90; 0x00])) 8))
           [0x90; 0x00]
           (snd (fillRange (rng (bench_world [] [0x90; 0x00])) 8))
           eq_refl eq_refl (surjective_pairing _) eq_refl eq_refl eq_refl).
Defined.
